(** * OpenIFEM fluid solvers: InsIMEX and ParallelNavierStokes

    A shallow embedding of the two incompressible Navier-Stokes drivers
    of OpenIFEM (the single-process IMEX solver [InsIMEX] and the
    distributed Newton solver [ParallelNavierStokes]) together with the
    block Schur-complement preconditioner both of them use.

    The C++ classes keep their state in members that the methods mutate
    and abort through exceptions, so the methods are embedded in a
    state-and-exception monad over one record of members; a member that
    was written before a throw stays written.  deal.II (vectors, sparse
    matrices, Krylov solvers, constraints, the DoF handler, the error
    estimator) is a collaborator: its operations are the fields of the
    class [DealII], and a small executable instance is given at the end
    to run the drivers on concrete data.  The mesh is a forest of cells
    carrying the refine and coarsen flags, with deal.II's documented
    meaning of executing them. *)

From Stdlib Require Import String List Bool Arith ZArith Lia PrimFloat.
Import ListNotations.

Set Implicit Arguments.
#[local] Set Warnings "-inexact-float,-register-all".

(** ** Scalars

    [double] is IEEE binary64: the kernel's primitive floats.  The
    literals of the sources that are not binary64 values denote the
    nearest one, here as in C++. *)

Definition double : Set := float.

Definition d_zero : double := 0%float.
Definition d_one : double := 1%float.
Definition d_minus_one : double := (-1)%float.
Definition cg_relative_tolerance : double := 1e-6%float.
Definition gmres_relative_tolerance : double := 1e-8%float.
Definition newton_absolute_floor : double := 1e-14%float.
Definition run_time_epsilon : double := 1e-12%float.
Definition refine_fraction : double := 0.6%float.
Definition coarsen_fraction : double := 0.4%float.

(** ** Exceptions *)

Inductive Exc : Type :=
| ExcMessage (msg : string)
    (* AssertThrow(cond, ExcMessage(msg)) *)
| NoConvergence (last_step : nat) (last_residual : double)
    (* SolverControl::NoConvergence, thrown by every deal.II solver whose
       control ends in the failure state *)
| ExcLibrary (what : string)
    (* any other exception a deal.II call raises, e.g. a zero pivot in
       an incomplete factorisation *)
| ExcUndefined (what : string).
    (* behaviour C++ leaves undefined (an unchecked index past the end,
       an empty shared_ptr dereferenced); the model stops there *)

Definition unrecognized_flag : Exc :=
  ExcMessage "Unrecogonized component flag!".
Definition too_many_newton : Exc :=
  ExcMessage "Too many Newton iterations!".

(** ** The state-and-exception monad *)

Definition M (S A : Type) : Type := S -> (Exc + A) * S.

Definition ret {S A} (a : A) : M S A := fun s => (inr a, s).
Definition bind {S A B} (m : M S A) (k : A -> M S B) : M S B :=
  fun s => match m s with
           | (inr a, s') => k a s'
           | (inl e, s') => (inl e, s')
           end.
Definition throw {S A} (e : Exc) : M S A := fun s => (inl e, s).
Definition get {S} : M S S := fun s => (inr s, s).
Definition gets {S A} (f : S -> A) : M S A := fun s => (inr (f s), s).
Definition modify {S} (f : S -> S) : M S unit := fun s => (inr tt, f s).
Definition lift {S A} (r : Exc + A) : M S A := fun s => (r, s).
Definition assert_throw {S} (cond : bool) (e : Exc) : M S unit :=
  if cond then ret tt else throw e.

Declare Scope monad_scope.
Delimit Scope monad_scope with monad.
Notation "x <- m ;; k" := (bind m (fun x => k))
  (at level 100, m at next level, right associativity) : monad_scope.
Notation "m ;; k" := (bind m (fun _ => k))
  (at level 100, right associativity) : monad_scope.
Open Scope monad_scope.

(** The pure error monad, for code that owns no members (the
    preconditioner's [vmult] is a const method). *)

Definition ebind {A B} (r : Exc + A) (k : A -> Exc + B) : Exc + B :=
  match r with inr a => k a | inl e => inl e end.

Notation "x <-! m ;; k" := (ebind m (fun x => k))
  (at level 100, m at next level, right associativity) : monad_scope.

(** ** Solver control

    [SolverControl(n, tol, log_history)] and what a solver leaves in it. *)

Record SolverControl : Type := mkSolverControl {
  max_steps : nat;
  tolerance : double;
  log_history : bool
}.

Inductive SolverState : Type := success | failure.

Record SolveResult (X : Type) : Type := mkSolveResult {
  solution : X;
  last_step : nat;
  last_value : double;
  final_state : SolverState
}.

(** Every deal.II solver ends with
    [AssertThrow(state == success, NoConvergence(last_step, last_value))]. *)
Definition converged_or_throw {X} (r : SolveResult X) : Exc + X :=
  match final_state r with
  | success => inr (solution r)
  | failure => inl (NoConvergence (last_step r) (last_value r))
  end.

(** [SolverControl::check]: success as soon as the residual is within the
    tolerance, failure once the step count reaches the budget or the
    residual is not a number, otherwise iterate ([None]). *)
Definition SolverControl_check (c : SolverControl) (step : nat)
    (check_value : double) : option SolverState :=
  if (check_value <=? tolerance c)%float then Some success
  else if (max_steps c <=? step) || is_nan check_value then Some failure
  else None.

(** ** The triangulation

    A forest of cells: the coarse cells are at level 0, an active cell
    carries its refine and coarsen flags, a refined cell its children
    one level down. *)

Inductive Cell : Type :=
| Active (refine_flag coarsen_flag : bool)
| Refined (children : list Cell).

Definition Triangulation : Type := list Cell.

Section CellInduction.
Variable P : Cell -> Prop.
Hypothesis P_active : forall r c, P (Active r c).
Hypothesis P_refined : forall cs, Forall P cs -> P (Refined cs).

Fixpoint Cell_nested_ind (c : Cell) : P c :=
  match c with
  | Active r co => P_active r co
  | Refined cs =>
      P_refined
        ((fix go (l : list Cell) : Forall P l :=
            match l with
            | [] => Forall_nil P
            | x :: l' => Forall_cons x (Cell_nested_ind x) (go l')
            end) cs)
  end.
End CellInduction.

(** One record per active cell, in the order the cell iterators visit
    them: its level and its two flags. *)
Record ActiveCell : Type := mkActiveCell {
  ac_level : nat;
  ac_refine : bool;
  ac_coarsen : bool
}.

Fixpoint active_cells_from (level : nat) (c : Cell) : list ActiveCell :=
  match c with
  | Active r co => [mkActiveCell level r co]
  | Refined cs => flat_map (active_cells_from (S level)) cs
  end.

Definition active_cells (t : Triangulation) : list ActiveCell :=
  flat_map (active_cells_from 0) t.

Definition n_active_cells (t : Triangulation) : nat :=
  length (active_cells t).

(** [Triangulation::n_levels]: one more than the deepest level in use. *)
Fixpoint n_levels_from (level : nat) (c : Cell) : nat :=
  match c with
  | Active _ _ => S level
  | Refined cs =>
      fold_right (fun c' acc => Nat.max (n_levels_from (S level) c') acc)
                 (S level) cs
  end.

Definition n_levels (t : Triangulation) : nat :=
  fold_right (fun c acc => Nat.max (n_levels_from 0 c) acc) 0 t.

(** [for (cell = begin_active(from); cell != end(); ++cell)
       cell->clear_refine_flag();]
    visits the active cells of level [from] and of every deeper level. *)
Fixpoint clear_refine_flag_from (from level : nat) (c : Cell) : Cell :=
  match c with
  | Active r co => if from <=? level then Active false co else Active r co
  | Refined cs => Refined (map (clear_refine_flag_from from (S level)) cs)
  end.

(** [for (cell = begin_active(at); cell != end_active(at); ++cell)
       cell->clear_coarsen_flag();]
    visits the active cells of level [at] only. *)
Fixpoint clear_coarsen_flag_at (at_level level : nat) (c : Cell) : Cell :=
  match c with
  | Active r co => if at_level =? level then Active r false else Active r co
  | Refined cs => Refined (map (clear_coarsen_flag_at at_level (S level)) cs)
  end.

(** Writing a list of flag pairs onto the active cells, in iterator
    order; this is how a flagging routine of the library acts on the
    triangulation (it never changes the cells themselves). *)
Fixpoint set_flags_cell (c : Cell) (fl : list (bool * bool))
  : Cell * list (bool * bool) :=
  match c with
  | Active r co =>
      match fl with
      | [] => (Active r co, [])
      | (r', co') :: fl' => (Active r' co', fl')
      end
  | Refined cs =>
      let '(cs', fl') :=
        (fix go (l : list Cell) (fl : list (bool * bool)) :=
           match l with
           | [] => ([], fl)
           | x :: l' =>
               let '(x', fl1) := set_flags_cell x fl in
               let '(l'', fl2) := go l' fl1 in
               (x' :: l'', fl2)
           end) cs fl in
      (Refined cs', fl')
  end.

Fixpoint set_flags_cells (l : list Cell) (fl : list (bool * bool))
  : list Cell * list (bool * bool) :=
  match l with
  | [] => ([], fl)
  | x :: l' =>
      let '(x', fl1) := set_flags_cell x fl in
      let '(l'', fl2) := set_flags_cells l' fl1 in
      (x' :: l'', fl2)
  end.

Definition set_flags (t : Triangulation) (fl : list (bool * bool))
  : Triangulation := fst (set_flags_cells t fl).

(** [Triangulation::execute_coarsening_and_refinement]: an active cell
    flagged for refinement is replaced by its [2^dim] children; the
    children of a cell are removed, and the cell becomes active again,
    only when all of them are active and flagged for coarsening; every
    flag is cleared. *)
Definition coarsenable (c : Cell) : bool :=
  match c with
  | Active false true => true
  | _ => false
  end.

Fixpoint execute_cell (n_children : nat) (c : Cell) : Cell :=
  match c with
  | Active true _ => Refined (repeat (Active false false) n_children)
  | Active false _ => Active false false
  | Refined cs =>
      if negb (Nat.eqb (length cs) 0) && forallb coarsenable cs
      then Active false false
      else Refined (map (execute_cell n_children) cs)
  end.

Definition max_children_per_cell (dim : nat) : nat := 2 ^ dim.

Definition execute_coarsening_and_refinement (dim : nat) (t : Triangulation)
  : Triangulation := map (execute_cell (max_children_per_cell dim)) t.

(** [Triangulation::refine_global(times)]: [times] rounds of flagging
    every active cell for refinement and executing. *)
Fixpoint set_refine_flag_all (c : Cell) : Cell :=
  match c with
  | Active _ _ => Active true false
  | Refined cs => Refined (map set_refine_flag_all cs)
  end.

Definition refine_global (dim times : nat) (t : Triangulation)
  : Triangulation :=
  Nat.iter times
    (fun t' => execute_coarsening_and_refinement dim
                 (map set_refine_flag_all t')) t.

(** The two loops of [refine_mesh] that keep the levels bounded.  The
    first runs only when a cell of level [max_grid_level] exists. *)
Definition clear_refine_flags (max_grid_level : nat) (t : Triangulation)
  : Triangulation :=
  if max_grid_level <? n_levels t
  then map (clear_refine_flag_from max_grid_level 0) t
  else t.

Definition clear_coarsen_flags (min_grid_level : nat) (t : Triangulation)
  : Triangulation :=
  map (clear_coarsen_flag_at min_grid_level 0) t.





(** ** Block vectors and block matrices

    Two blocks: velocity (0) and pressure (1). *)

Record BlockVector (V : Type) : Type := mkBlockVector {
  vblock0 : V;
  vblock1 : V
}.

Record BlockMatrix (X : Type) : Type := mkBlockMatrix {
  block00 : X;
  block01 : X;
  block10 : X;
  block11 : X
}.

(** ** Configuration and clock *)

(** [Parameters::AllParameters], the members the two solvers read.  An
    entry of [fluid_dirichlet_bcs] is (boundary id, (flag, values)); the
    list is in the order [std::map] iterates, by ascending id. *)
Record AllParameters : Type := mkAllParameters {
  viscosity : double;
  fluid_rho : double;
  grad_div : double;
  fluid_degree : nat;
  fluid_tolerance : double;
  fluid_max_iterations : nat;
  end_time : double;
  time_step : double;
  output_interval : double;
  refinement_interval : double;
  global_refinement : nat;
  fluid_dirichlet_bcs : list (nat * (nat * list double));
  use_hard_coded_values : nat;
  n_fluid_neumann_bcs : nat;
  fluid_neumann_bcs : list (nat * double)
}.

(** Modelled from the spec: the class [Utils::Time] is declared in a
    header that is not among the sources.  The spec's TimeState is
    {current time, step size, step index, end time, output interval,
    refinement interval}; [increment] advances the clock by one step.
    The two cadence predicates are collaborators (see [Collaborators]). *)
Record TimeState : Type := mkTimeState {
  timestep : nat;
  time_current : double;
  time_end : double;
  delta_t : double;
  time_output_interval : double;
  time_refinement_interval : double
}.

Definition time_init (p : AllParameters) : TimeState :=
  mkTimeState 0 d_zero (end_time p) (time_step p)
              (output_interval p) (refinement_interval p).

Definition time_increment (t : TimeState) : TimeState :=
  mkTimeState (S (timestep t)) (time_current t + delta_t t)%float
              (time_end t) (delta_t t)
              (time_output_interval t) (time_refinement_interval t).

(** [CellProperty]: one per quadrature point of a cell. *)
Record CellProperty : Type := mkCellProperty {
  indicator : Z;
  fsi_acceleration : list double;   (* Tensor<1, dim> *)
  fsi_stress : list double          (* Tensor<2, dim> *)
}.

(** The function handed to [VectorTools::interpolate_boundary_values]. *)
Inductive BoundaryFunction : Type :=
| BoundaryValues
| ConstantFunction (augmented_value : list double)
| ZeroFunction (n_components : nat).

(** ** Collaborators

    What the solvers call and do not define: deal.II's linear algebra,
    solvers, DoF handling, constraints, error estimation and solution
    transfer, the per-cell integrals of the finite-element
    discretisation, and the cadence predicates of the clock. *)

Class Collaborators : Type := {
  Vec : Type;              (* Vector<double>, PETScWrappers::MPI::Vector *)
  SparseMatrix : Type;
  SparsityPattern : Type;
  FullMatrix : Type;
  Preconditioner : Type;   (* an initialised SparseILU, BlockJacobi, Identity *)
  DoFHandler : Type;
  ConstraintLines : Type;  (* the lines of a ConstraintMatrix *)

  (* what the default constructors leave *)
  sp_empty : SparseMatrix;
  pattern_empty : SparsityPattern;
  dof_handler_empty : DoFHandler;

  (* vectors *)
  vec_reinit : nat -> Vec;                  (* v.reinit(n): n zeros *)
  vec_size : Vec -> nat;
  vec_fill : double -> Vec -> Vec;          (* v = s *)
  vec_scale : double -> Vec -> Vec;         (* v *= s *)
  vec_add : Vec -> Vec -> Vec;              (* v += w *)
  vec_l2_norm : Vec -> double;
  vec_norm_sqr : Vec -> double;

  (* sparse matrices *)
  sp_reinit : SparsityPattern -> SparseMatrix;   (* zero matrix on a pattern *)
  sp_m : SparseMatrix -> nat;                    (* number of rows *)
  sp_set_zero : SparseMatrix -> SparseMatrix;    (* A = 0, pattern kept *)
  sp_vmult : SparseMatrix -> Vec -> Vec;         (* A.vmult(dst, src) *)
  precondition_Jacobi : SparseMatrix -> Vec -> Vec;
      (* A.precondition_Jacobi(dst, src): dst_i = src_i / a_ii *)
  sp_mmult : SparseMatrix -> SparseMatrix -> SparseMatrix -> Vec -> bool
             -> SparseMatrix;
      (* A.mmult(C, B, V, rebuild_sparsity_pattern), arguments in this
         order: what C holds afterwards, which is A diag(V) B *)
  sp_mmult_petsc : SparseMatrix -> SparseMatrix -> SparseMatrix -> Vec
                   -> SparseMatrix;
      (* PETScWrappers: A.mmult(C, B, V), arguments in this order *)

  (* preconditioners and solvers *)
  ilu_initialize : SparseMatrix -> Exc + Preconditioner;
  block_jacobi_initialize : SparseMatrix -> Exc + Preconditioner;
  identity_initialize : SparseMatrix -> Preconditioner;
  solver_cg : SolverControl -> SparseMatrix -> Vec -> Vec -> Preconditioner
              -> SolveResult Vec;
      (* SolverCG(control).solve(A, x, b, P), x going in as the guess *)
  solver_mumps : SparseMatrix -> Vec -> Vec -> Exc + Vec;
      (* SparseDirectMUMPS::solve(A, x, b) *)
  solver_fgmres :
    SolverControl -> BlockMatrix SparseMatrix -> BlockVector Vec
    -> BlockVector Vec
    -> (BlockVector Vec -> BlockVector Vec -> Exc + BlockVector Vec)
    -> Exc + SolveResult (BlockVector Vec);
      (* SolverFGMRES(control).solve(A, x, b, P); P is given by its vmult,
         an exception of which passes through the solver *)

  (* degrees of freedom *)
  distribute_dofs : nat -> nat -> Triangulation -> DoFHandler;
      (* dim, degree: distribute_dofs(fe), Cuthill_McKee, component_wise *)
  count_dofs_per_block : DoFHandler -> nat * nat;
  get_dof_indices : DoFHandler -> nat -> list nat;

  (* constraints *)
  cl_clear : ConstraintLines;
  make_hanging_node_constraints :
    DoFHandler -> ConstraintLines -> ConstraintLines;
  interpolate_boundary_values :
    DoFHandler -> nat -> BoundaryFunction -> ConstraintLines -> list bool
    -> ConstraintLines;
  cl_close : ConstraintLines -> ConstraintLines;
  cl_distribute : ConstraintLines -> BlockVector Vec -> BlockVector Vec;
  distribute_local_to_global :
    ConstraintLines -> FullMatrix -> Vec -> list nat
    -> BlockMatrix SparseMatrix -> BlockVector Vec
    -> BlockMatrix SparseMatrix * BlockVector Vec;
  distribute_local_to_global_matrix :
    ConstraintLines -> FullMatrix -> list nat -> BlockMatrix SparseMatrix
    -> BlockMatrix SparseMatrix;
  distribute_local_to_global_rhs :
    ConstraintLines -> Vec -> list nat -> BlockVector Vec -> BlockVector Vec;

  (* sparsity patterns *)
  make_sparsity_pattern :
    DoFHandler -> nat * nat -> ConstraintLines -> BlockMatrix SparsityPattern;
  compute_mmult_pattern :
    SparsityPattern -> SparsityPattern -> SparsityPattern;

  (* the per-cell integrals; the matrix ones add to the matrix given *)
  fm_zero : DoFHandler -> FullMatrix;
  imex_cell_matrix :
    AllParameters -> double -> DoFHandler -> nat -> FullMatrix -> FullMatrix;
      (* parameters, delta_t, handler, cell, local_matrix so far *)
  newton_cell_matrix :
    AllParameters -> double -> DoFHandler -> nat -> BlockVector Vec
    -> FullMatrix -> FullMatrix;
      (* ..., cell, evaluation_point, local_matrix so far *)
  cell_mass_matrix : DoFHandler -> nat -> FullMatrix -> FullMatrix;
  imex_cell_rhs :
    AllParameters -> DoFHandler -> nat -> BlockVector Vec
    -> list CellProperty -> Vec;
      (* ..., cell, present_solution, the cell's properties: local_rhs,
         the Neumann boundary terms included *)
  newton_cell_rhs :
    AllParameters -> double -> DoFHandler -> nat -> BlockVector Vec
    -> BlockVector Vec -> list CellProperty -> Vec;
      (* ..., cell, evaluation_point, present_solution, properties *)

  (* adaptivity *)
  kelly_estimate : DoFHandler -> nat -> BlockVector Vec -> list double;
      (* face quadrature order, field: the error of each active cell *)
  refine_and_coarsen_fixed_fraction :
    Triangulation -> list double -> double -> double -> list (bool * bool);
      (* the flags it leaves on the active cells *)
  prepare_coarsening_and_refinement : Triangulation -> list (bool * bool);
      (* the flags after the library has smoothed them *)
  solution_transfer_interpolate :
    DoFHandler -> Triangulation -> DoFHandler -> BlockVector Vec
    -> BlockVector Vec -> BlockVector Vec;
      (* old handler, the flagged triangulation it was prepared on, new
         handler, the field stored, the vector to fill *)

  (* the clock's cadence predicates *)
  time_to_output : TimeState -> bool;
  time_to_refine : TimeState -> bool
}.

(** ** The members of a solver

    [InsIMEX<dim>] and [ParallelNavierStokes<dim>] declare the same
    members under the same names, but for the vector the linear solve
    fills ([solution_increment] in the first, [newton_update] in the
    second; here [increment]) and [evaluation_point], which only the
    Newton solver has.  The distributed solver's index sets say which
    process owns which entry; the model takes the global view, in which
    a ghosted and a non-ghosted vector hold the same values. *)

(** The preconditioner object copies four scalars and keeps pointers to
    the solver's [system_matrix], [mass_matrix] and [mass_schur]: it
    reads whatever those members hold when it is applied. *)
Record BlockSchurPreconditioner : Type := mkBlockSchurPreconditioner {
  p_gamma : double;
  p_viscosity : double;
  p_rho : double;
  p_dt : double
}.

(** What the run does, in order: the calls the claims speak of, each
    logged where the source makes it.  [EvAssemble] and [EvSolve] carry
    the time step and the outer iteration in which they are called. *)
Inductive Target : Type := OnIncrement | OnEvaluationPoint | OnPresentSolution.

Inductive Event : Type :=
| EvOutputResults (index : nat)
| EvAssemble (step outer_iteration : nat) (use_nonzero assemble_system : bool)
| EvSolve (step outer_iteration : nat) (use_nonzero assemble_system : bool)
| EvSchurBuild
| EvDistribute (use_nonzero : bool) (target : Target)
| EvResidual (outer_iteration : nat) (current relative : double)
| EvEstimate
| EvFlag (top_fraction bottom_fraction : double)
| EvSnapshot
| EvExecute
| EvSetupDofs
| EvMakeConstraints
| EvInitializeSystem
| EvInterpolate.

Section Members.
Context {C : Collaborators}.

(** A [ConstraintMatrix]: its lines, and whether [close()] has been
    called since the last [clear()]. *)
Record ConstraintMatrix : Type := mkConstraintMatrix {
  lines : ConstraintLines;
  closed : bool
}.

Record Solver : Type := mkSolver {
  parameters : AllParameters;
  triangulation : Triangulation;
  dof_handler : DoFHandler;
  dofs_per_block : nat * nat;
  nonzero_constraints : ConstraintMatrix;
  zero_constraints : ConstraintMatrix;
  sparsity_pattern : BlockMatrix SparsityPattern;
  system_matrix : BlockMatrix SparseMatrix;
  mass_matrix : BlockMatrix SparseMatrix;
  mass_schur : SparseMatrix;
  present_solution : BlockVector Vec;
  increment : BlockVector Vec;
  evaluation_point : BlockVector Vec;
  system_rhs : BlockVector Vec;
  preconditioner : option BlockSchurPreconditioner;
  cell_property : list (list CellProperty);
  time : TimeState;
  trace : list Event
}.

Definition set_triangulation (v : Triangulation) (s : Solver) : Solver :=
  mkSolver (parameters s) v (dof_handler s) (dofs_per_block s)
    (nonzero_constraints s) (zero_constraints s) (sparsity_pattern s)
    (system_matrix s) (mass_matrix s) (mass_schur s) (present_solution s)
    (increment s) (evaluation_point s) (system_rhs s) (preconditioner s)
    (cell_property s) (time s) (trace s).

Definition set_dof_handler (v : DoFHandler) (s : Solver) : Solver :=
  mkSolver (parameters s) (triangulation s) v (dofs_per_block s)
    (nonzero_constraints s) (zero_constraints s) (sparsity_pattern s)
    (system_matrix s) (mass_matrix s) (mass_schur s) (present_solution s)
    (increment s) (evaluation_point s) (system_rhs s) (preconditioner s)
    (cell_property s) (time s) (trace s).

Definition set_dofs_per_block (v : nat * nat) (s : Solver) : Solver :=
  mkSolver (parameters s) (triangulation s) (dof_handler s) v
    (nonzero_constraints s) (zero_constraints s) (sparsity_pattern s)
    (system_matrix s) (mass_matrix s) (mass_schur s) (present_solution s)
    (increment s) (evaluation_point s) (system_rhs s) (preconditioner s)
    (cell_property s) (time s) (trace s).

Definition set_nonzero_constraints (v : ConstraintMatrix) (s : Solver) : Solver :=
  mkSolver (parameters s) (triangulation s) (dof_handler s)
    (dofs_per_block s) v (zero_constraints s) (sparsity_pattern s)
    (system_matrix s) (mass_matrix s) (mass_schur s) (present_solution s)
    (increment s) (evaluation_point s) (system_rhs s) (preconditioner s)
    (cell_property s) (time s) (trace s).

Definition set_zero_constraints (v : ConstraintMatrix) (s : Solver) : Solver :=
  mkSolver (parameters s) (triangulation s) (dof_handler s)
    (dofs_per_block s) (nonzero_constraints s) v (sparsity_pattern s)
    (system_matrix s) (mass_matrix s) (mass_schur s) (present_solution s)
    (increment s) (evaluation_point s) (system_rhs s) (preconditioner s)
    (cell_property s) (time s) (trace s).

Definition set_sparsity_pattern (v : BlockMatrix SparsityPattern) (s : Solver) : Solver :=
  mkSolver (parameters s) (triangulation s) (dof_handler s)
    (dofs_per_block s) (nonzero_constraints s) (zero_constraints s) v
    (system_matrix s) (mass_matrix s) (mass_schur s) (present_solution s)
    (increment s) (evaluation_point s) (system_rhs s) (preconditioner s)
    (cell_property s) (time s) (trace s).

Definition set_system_matrix (v : BlockMatrix SparseMatrix) (s : Solver) : Solver :=
  mkSolver (parameters s) (triangulation s) (dof_handler s)
    (dofs_per_block s) (nonzero_constraints s) (zero_constraints s)
    (sparsity_pattern s) v (mass_matrix s) (mass_schur s)
    (present_solution s) (increment s) (evaluation_point s) (system_rhs s)
    (preconditioner s) (cell_property s) (time s) (trace s).

Definition set_mass_matrix (v : BlockMatrix SparseMatrix) (s : Solver) : Solver :=
  mkSolver (parameters s) (triangulation s) (dof_handler s)
    (dofs_per_block s) (nonzero_constraints s) (zero_constraints s)
    (sparsity_pattern s) (system_matrix s) v (mass_schur s)
    (present_solution s) (increment s) (evaluation_point s) (system_rhs s)
    (preconditioner s) (cell_property s) (time s) (trace s).

Definition set_mass_schur (v : SparseMatrix) (s : Solver) : Solver :=
  mkSolver (parameters s) (triangulation s) (dof_handler s)
    (dofs_per_block s) (nonzero_constraints s) (zero_constraints s)
    (sparsity_pattern s) (system_matrix s) (mass_matrix s) v
    (present_solution s) (increment s) (evaluation_point s) (system_rhs s)
    (preconditioner s) (cell_property s) (time s) (trace s).

Definition set_present_solution (v : BlockVector Vec) (s : Solver) : Solver :=
  mkSolver (parameters s) (triangulation s) (dof_handler s)
    (dofs_per_block s) (nonzero_constraints s) (zero_constraints s)
    (sparsity_pattern s) (system_matrix s) (mass_matrix s) (mass_schur s) v
    (increment s) (evaluation_point s) (system_rhs s) (preconditioner s)
    (cell_property s) (time s) (trace s).

Definition set_increment (v : BlockVector Vec) (s : Solver) : Solver :=
  mkSolver (parameters s) (triangulation s) (dof_handler s)
    (dofs_per_block s) (nonzero_constraints s) (zero_constraints s)
    (sparsity_pattern s) (system_matrix s) (mass_matrix s) (mass_schur s)
    (present_solution s) v (evaluation_point s) (system_rhs s)
    (preconditioner s) (cell_property s) (time s) (trace s).

Definition set_evaluation_point (v : BlockVector Vec) (s : Solver) : Solver :=
  mkSolver (parameters s) (triangulation s) (dof_handler s)
    (dofs_per_block s) (nonzero_constraints s) (zero_constraints s)
    (sparsity_pattern s) (system_matrix s) (mass_matrix s) (mass_schur s)
    (present_solution s) (increment s) v (system_rhs s) (preconditioner s)
    (cell_property s) (time s) (trace s).

Definition set_system_rhs (v : BlockVector Vec) (s : Solver) : Solver :=
  mkSolver (parameters s) (triangulation s) (dof_handler s)
    (dofs_per_block s) (nonzero_constraints s) (zero_constraints s)
    (sparsity_pattern s) (system_matrix s) (mass_matrix s) (mass_schur s)
    (present_solution s) (increment s) (evaluation_point s) v
    (preconditioner s) (cell_property s) (time s) (trace s).

Definition set_preconditioner (v : option BlockSchurPreconditioner) (s : Solver) : Solver :=
  mkSolver (parameters s) (triangulation s) (dof_handler s)
    (dofs_per_block s) (nonzero_constraints s) (zero_constraints s)
    (sparsity_pattern s) (system_matrix s) (mass_matrix s) (mass_schur s)
    (present_solution s) (increment s) (evaluation_point s) (system_rhs s) v
    (cell_property s) (time s) (trace s).

Definition set_cell_property (v : list (list CellProperty)) (s : Solver) : Solver :=
  mkSolver (parameters s) (triangulation s) (dof_handler s)
    (dofs_per_block s) (nonzero_constraints s) (zero_constraints s)
    (sparsity_pattern s) (system_matrix s) (mass_matrix s) (mass_schur s)
    (present_solution s) (increment s) (evaluation_point s) (system_rhs s)
    (preconditioner s) v (time s) (trace s).

Definition set_time (v : TimeState) (s : Solver) : Solver :=
  mkSolver (parameters s) (triangulation s) (dof_handler s)
    (dofs_per_block s) (nonzero_constraints s) (zero_constraints s)
    (sparsity_pattern s) (system_matrix s) (mass_matrix s) (mass_schur s)
    (present_solution s) (increment s) (evaluation_point s) (system_rhs s)
    (preconditioner s) (cell_property s) v (trace s).

Definition set_trace (v : list Event) (s : Solver) : Solver :=
  mkSolver (parameters s) (triangulation s) (dof_handler s)
    (dofs_per_block s) (nonzero_constraints s) (zero_constraints s)
    (sparsity_pattern s) (system_matrix s) (mass_matrix s) (mass_schur s)
    (present_solution s) (increment s) (evaluation_point s) (system_rhs s)
    (preconditioner s) (cell_property s) (time s) v.

End Members.

(** ** What both solvers share *)

(** The template parameter: both classes are instantiated for 2 and 3. *)
Inductive Dim : Type := dim2 | dim3.

Definition dim_nat (d : Dim) : nat :=
  match d with dim2 => 2 | dim3 => 3 end.

(** [v[k] = x] on a [std::vector]; nothing is written past the end. *)
Fixpoint list_set {A} (l : list A) (k : nat) (x : A) : list A :=
  match l, k with
  | [], _ => []
  | _ :: t, 0 => x :: t
  | h :: t, S k' => h :: list_set t k' x
  end.

(** [value[k]], unchecked in C++: undefined past the end. *)
Definition read_value (value : list double) (k : nat) : Exc + double :=
  match nth_error value k with
  | Some x => inr x
  | None => inl (ExcUndefined "value[k] past the end of the vector")
  end.

(** The [switch (flag)] of [make_constraints]: the component mask and
    the augmented value, both of size [dim + 1].
    1-x, 2-y, 3-xy, 4-z, 5-xz, 6-yz, 7-xyz. *)
Definition component_flag (dim : Dim) (flag : nat) (value : list double)
  : Exc + (list bool * list double) :=
  let mask := repeat false (dim_nat dim + 1) in
  let augmented_value := repeat d_zero (dim_nat dim + 1) in
  match flag with
  | 1 =>
      v0 <-! read_value value 0 ;;
      inr (list_set mask 0 true, list_set augmented_value 0 v0)
  | 2 =>
      v0 <-! read_value value 0 ;;
      inr (list_set mask 1 true, list_set augmented_value 1 v0)
  | 3 =>
      v0 <-! read_value value 0 ;;
      v1 <-! read_value value 1 ;;
      inr (list_set (list_set mask 0 true) 1 true,
           list_set (list_set augmented_value 0 v0) 1 v1)
  | 4 =>
      v0 <-! read_value value 0 ;;
      inr (list_set mask 2 true, list_set augmented_value 2 v0)
  | 5 =>
      v0 <-! read_value value 0 ;;
      v1 <-! read_value value 1 ;;
      inr (list_set (list_set mask 0 true) 2 true,
           list_set (list_set augmented_value 0 v0) 2 v1)
  | 6 =>
      v0 <-! read_value value 0 ;;
      v1 <-! read_value value 1 ;;
      inr (list_set (list_set mask 1 true) 2 true,
           list_set (list_set augmented_value 1 v0) 2 v1)
  | 7 =>
      v0 <-! read_value value 0 ;;
      v1 <-! read_value value 1 ;;
      v2 <-! read_value value 2 ;;
      inr (list_set (list_set (list_set mask 0 true) 1 true) 2 true,
           list_set (list_set (list_set augmented_value 0 v0) 1 v1) 2 v2)
  | _ => inl unrecognized_flag
  end.

(** How many values the flag's case reads. *)
Definition flag_arity (flag : nat) : nat :=
  match flag with
  | 1 | 2 | 4 => 1
  | 3 | 5 | 6 => 2
  | 7 => 3
  | _ => 0
  end.

Definition flag_recognized (flag : nat) : bool :=
  (1 <=? flag) && (flag <=? 7).

Fixpoint for_each {S A} (l : list A) (body : A -> M S unit) : M S unit :=
  match l with
  | [] => ret tt
  | x :: l' => body x ;; for_each l' body
  end.

Section Shared.
Context {C : Collaborators}.
Variable dim : Dim.

Definition log (e : Event) : M Solver unit :=
  modify (fun s => set_trace (trace s ++ [e]) s).

Definition on_lines (f : ConstraintLines -> ConstraintLines)
    (c : ConstraintMatrix) : ConstraintMatrix :=
  mkConstraintMatrix (f (lines c)) (closed c).

Definition cm_clear : ConstraintMatrix := mkConstraintMatrix cl_clear false.

Definition cm_close (c : ConstraintMatrix) : ConstraintMatrix :=
  mkConstraintMatrix (cl_close (lines c)) true.

(** [QGauss<dim>(degree + 2)] has [(degree + 2)^dim] points. *)
Definition n_q_points (p : AllParameters) : nat :=
  (fluid_degree p + 2) ^ dim_nat dim.

(** [setup_dofs()] *)
Definition setup_dofs : M Solver unit :=
  log EvSetupDofs ;;
  modify (fun s =>
            set_dof_handler
              (distribute_dofs (dim_nat dim) (fluid_degree (parameters s))
                               (triangulation s)) s) ;;
  modify (fun s =>
            set_dofs_per_block (count_dofs_per_block (dof_handler s)) s).

(** One turn of the loop over [parameters.fluid_dirichlet_bcs]. *)
Definition make_constraints_entry (entry : nat * (nat * list double))
  : M Solver unit :=
  let id := fst entry in
  let flag := fst (snd entry) in
  let value := snd (snd entry) in
  mv <- lift (component_flag dim flag value) ;;
  let mask := fst mv in
  let augmented_value := snd mv in
  modify (fun s =>
            let f := if use_hard_coded_values (parameters s) =? 1
                     then BoundaryValues
                     else ConstantFunction augmented_value in
            set_nonzero_constraints
              (on_lines (fun l => interpolate_boundary_values
                                    (dof_handler s) id f l mask)
                        (nonzero_constraints s)) s) ;;
  modify (fun s =>
            set_zero_constraints
              (on_lines (fun l => interpolate_boundary_values
                                    (dof_handler s) id
                                    (ZeroFunction (dim_nat dim + 1)) l mask)
                        (zero_constraints s)) s).

(** [make_constraints()] *)
Definition make_constraints : M Solver unit :=
  log EvMakeConstraints ;;
  modify (set_nonzero_constraints cm_clear) ;;
  modify (set_zero_constraints cm_clear) ;;
  modify (fun s =>
            set_nonzero_constraints
              (on_lines (make_hanging_node_constraints (dof_handler s))
                        (nonzero_constraints s)) s) ;;
  modify (fun s =>
            set_zero_constraints
              (on_lines (make_hanging_node_constraints (dof_handler s))
                        (zero_constraints s)) s) ;;
  bcs <- gets (fun s => fluid_dirichlet_bcs (parameters s)) ;;
  for_each bcs make_constraints_entry ;;
  modify (fun s => set_nonzero_constraints
                     (cm_close (nonzero_constraints s)) s) ;;
  modify (fun s => set_zero_constraints (cm_close (zero_constraints s)) s).

(** [setup_cell_property()]: every quadrature point of every active
    cell gets a zeroed property. *)
Definition zero_cell_property : CellProperty :=
  mkCellProperty 0%Z (repeat d_zero (dim_nat dim))
                 (repeat d_zero (dim_nat dim * dim_nat dim)).

Definition setup_cell_property : M Solver unit :=
  modify (fun s =>
            set_cell_property
              (repeat (repeat zero_cell_property (n_q_points (parameters s)))
                      (n_active_cells (triangulation s))) s).

Definition block_vec_reinit (dofs : nat * nat) : BlockVector Vec :=
  mkBlockVector (vec_reinit (fst dofs)) (vec_reinit (snd dofs)).

Definition block_matrix_reinit (sp : BlockMatrix SparsityPattern)
  : BlockMatrix SparseMatrix :=
  mkBlockMatrix (sp_reinit (block00 sp)) (sp_reinit (block01 sp))
                (sp_reinit (block10 sp)) (sp_reinit (block11 sp)).

(** [matrix = 0] on a block matrix. *)
Definition block_matrix_set_zero (a : BlockMatrix SparseMatrix)
  : BlockMatrix SparseMatrix :=
  mkBlockMatrix (sp_set_zero (block00 a)) (sp_set_zero (block01 a))
                (sp_set_zero (block10 a)) (sp_set_zero (block11 a)).

(** [BlockMatrixBase::m()]: the rows of all row blocks together. *)
Definition block_matrix_m (a : BlockMatrix SparseMatrix) : nat :=
  sp_m (block00 a) + sp_m (block10 a).

Definition block_vec_fill (x : double) (v : BlockVector Vec)
  : BlockVector Vec :=
  mkBlockVector (vec_fill x (vblock0 v)) (vec_fill x (vblock1 v)).

Definition block_vec_add (v w : BlockVector Vec) : BlockVector Vec :=
  mkBlockVector (vec_add (vblock0 v) (vblock0 w))
                (vec_add (vblock1 v) (vblock1 w)).

(** [BlockVectorBase::l2_norm()]: the root of the blocks' squared norms. *)
Definition block_l2_norm (v : BlockVector Vec) : double :=
  sqrt (vec_norm_sqr (vblock0 v) + vec_norm_sqr (vblock1 v))%float.

(** The constraint set a call site selects. *)
Definition constraints_used (use_nonzero_constraints : bool) (s : Solver)
  : ConstraintMatrix :=
  if use_nonzero_constraints then nonzero_constraints s
  else zero_constraints s.

End Shared.

(** ** InsIMEX: the single-process solver *)

Module InsIMEX.
Section WithCollaborators.
Context {C : Collaborators}.
Variable dim : Dim.

Definition solution_increment : Solver -> BlockVector Vec := increment.

(** The locals of [vmult]: the output argument and the two buffers. *)
Record VmultFrame : Type := mkVmultFrame {
  f_dst : BlockVector Vec;
  f_utmp : Vec;
  f_tmp : Vec
}.

Definition set_dst1 (v : Vec) (f : VmultFrame) : VmultFrame :=
  mkVmultFrame (mkBlockVector (vblock0 (f_dst f)) v) (f_utmp f) (f_tmp f).
Definition set_dst0 (v : Vec) (f : VmultFrame) : VmultFrame :=
  mkVmultFrame (mkBlockVector v (vblock1 (f_dst f))) (f_utmp f) (f_tmp f).
Definition set_utmp (v : Vec) (f : VmultFrame) : VmultFrame :=
  mkVmultFrame (f_dst f) v (f_tmp f).
Definition set_tmp (v : Vec) (f : VmultFrame) : VmultFrame :=
  mkVmultFrame (f_dst f) (f_utmp f) v.

(** [BlockSchurPreconditioner::BlockSchurPreconditioner]: the
    constructor fills the solver's [mass_schur]. *)
Definition BlockSchurPreconditioner_new (gamma viscosity rho dt : double)
  : M Solver BlockSchurPreconditioner :=
  s <- get ;;
  (* Vector<double> tmp1(mass_matrix->block(0, 0).m()), tmp2(tmp1); *)
  let tmp1 := vec_reinit (sp_m (block00 (mass_matrix s))) in
  let tmp2 := tmp1 in
  let tmp1 := vec_fill d_one tmp1 in
  let tmp2 := vec_fill d_zero tmp2 in
  let tmp2 := precondition_Jacobi (block00 (mass_matrix s)) tmp1 in
  log EvSchurBuild ;;
  modify (fun s =>
            set_mass_schur
              (sp_mmult (block10 (system_matrix s)) (mass_schur s)
                        (block01 (system_matrix s)) tmp2 false) s) ;;
  ret (mkBlockSchurPreconditioner gamma viscosity rho dt).

(** [BlockSchurPreconditioner::vmult(dst, src)], on the matrices the
    object points to. *)
Definition vmult_body (P : BlockSchurPreconditioner)
    (system mass : BlockMatrix SparseMatrix) (schur : SparseMatrix)
    (src : BlockVector Vec) : M VmultFrame unit :=
  (* CG for Mp *)
  let mp_control :=
    mkSolverControl (vec_size (vblock1 src))
                    (cg_relative_tolerance * vec_l2_norm (vblock1 src))%float
                    false in
  Mp_preconditioner <- lift (ilu_initialize (block11 mass)) ;;
  f <- get ;;
  x <- lift (converged_or_throw
               (solver_cg mp_control (block11 mass) (f_tmp f) (vblock1 src)
                          Mp_preconditioner)) ;;
  modify (set_tmp x) ;;
  modify (fun f =>
            set_tmp (vec_scale (- (p_viscosity P + p_gamma P * p_rho P))%float
                               (f_tmp f)) f) ;;
  (* CG for Sm *)
  let sm_control :=
    mkSolverControl (vec_size (vblock1 src))
                    (cg_relative_tolerance * vec_l2_norm (vblock1 src))%float
                    false in
  Sm_preconditioner <- lift (ilu_initialize schur) ;;
  f <- get ;;
  x <- lift (converged_or_throw
               (solver_cg sm_control schur (vblock1 (f_dst f)) (vblock1 src)
                          Sm_preconditioner)) ;;
  modify (set_dst1 x) ;;
  modify (fun f =>
            set_dst1 (vec_scale (- p_rho P / p_dt P)%float
                                (vblock1 (f_dst f))) f) ;;
  modify (fun f => set_dst1 (vec_add (vblock1 (f_dst f)) (f_tmp f)) f) ;;
  (* v0 - B^T u1 *)
  modify (fun f => set_utmp (sp_vmult (block01 system) (vblock1 (f_dst f))) f) ;;
  modify (fun f => set_utmp (vec_scale d_minus_one (f_utmp f)) f) ;;
  modify (fun f => set_utmp (vec_add (f_utmp f) (vblock0 src)) f) ;;
  (* CG for A *)
  let a_control :=
    mkSolverControl (vec_size (vblock0 src))
                    (cg_relative_tolerance * vec_l2_norm (vblock0 src))%float
                    false in
  let A_preconditioner := identity_initialize (block00 system) in
  f <- get ;;
  x <- lift (converged_or_throw
               (solver_cg a_control (block00 system) (vblock0 (f_dst f))
                          (f_utmp f) A_preconditioner)) ;;
  modify (set_dst0 x).

Definition vmult (P : BlockSchurPreconditioner)
    (system mass : BlockMatrix SparseMatrix) (schur : SparseMatrix)
    (dst src : BlockVector Vec) : Exc + BlockVector Vec :=
  (* Vector<double> utmp(src.block(0));
     Vector<double> tmp(src.block(1).size()); tmp = 0; *)
  let frame :=
    mkVmultFrame dst (vblock0 src)
                 (vec_fill d_zero (vec_reinit (vec_size (vblock1 src)))) in
  match vmult_body P system mass schur src frame with
  | (inr _, f) => inr (f_dst f)
  | (inl e, _) => inl e
  end.

(** [initialize_system()] *)
Definition initialize_system : M Solver unit :=
  log EvInitializeSystem ;;
  modify (set_preconditioner None) ;;
  modify (set_system_matrix
            (mkBlockMatrix sp_empty sp_empty sp_empty sp_empty)) ;;
  modify (set_mass_matrix
            (mkBlockMatrix sp_empty sp_empty sp_empty sp_empty)) ;;
  modify (set_mass_schur sp_empty) ;;
  modify (fun s =>
            set_sparsity_pattern
              (make_sparsity_pattern (dof_handler s) (dofs_per_block s)
                                     (lines (nonzero_constraints s))) s) ;;
  modify (fun s =>
            set_system_matrix (block_matrix_reinit (sparsity_pattern s)) s) ;;
  modify (fun s =>
            set_mass_matrix (block_matrix_reinit (sparsity_pattern s)) s) ;;
  modify (fun s =>
            set_present_solution (block_vec_reinit (dofs_per_block s)) s) ;;
  modify (fun s => set_increment (block_vec_reinit (dofs_per_block s)) s) ;;
  modify (fun s => set_system_rhs (block_vec_reinit (dofs_per_block s)) s) ;;
  modify (fun s =>
            set_mass_schur
              (sp_reinit (compute_mmult_pattern
                            (block10 (sparsity_pattern s))
                            (block01 (sparsity_pattern s)))) s) ;;
  setup_cell_property dim.

(** The loop of [assemble] over the active cells.  [local_matrix] and
    [local_mass_matrix] are declared before the loop and zeroed inside
    it only when [assemble_system] holds. *)
Fixpoint assemble_cells (use_nonzero_constraints assemble_system : bool)
    (cells : list nat) (local_matrix local_mass_matrix : FullMatrix)
  : M Solver unit :=
  match cells with
  | [] => ret tt
  | cell :: rest =>
      s <- get ;;
      let p := nth cell (cell_property s) [] in
      let local_matrix :=
        if assemble_system then fm_zero (dof_handler s) else local_matrix in
      let local_mass_matrix :=
        if assemble_system then fm_zero (dof_handler s)
        else local_mass_matrix in
      let local_matrix :=
        imex_cell_matrix (parameters s) (delta_t (time s)) (dof_handler s)
                         cell local_matrix in
      let local_mass_matrix :=
        cell_mass_matrix (dof_handler s) cell local_mass_matrix in
      let local_rhs :=
        imex_cell_rhs (parameters s) (dof_handler s) cell
                      (present_solution s) p in
      let local_dof_indices := get_dof_indices (dof_handler s) cell in
      let used := lines (constraints_used use_nonzero_constraints s) in
      (if assemble_system then
         modify (fun s =>
                   let r := distribute_local_to_global
                              used local_matrix local_rhs local_dof_indices
                              (system_matrix s) (system_rhs s) in
                   set_system_rhs (snd r) (set_system_matrix (fst r) s)) ;;
         modify (fun s =>
                   set_mass_matrix
                     (distribute_local_to_global_matrix
                        used local_mass_matrix local_dof_indices
                        (mass_matrix s)) s)
       else
         modify (fun s =>
                   set_system_rhs
                     (distribute_local_to_global_rhs
                        used local_rhs local_dof_indices (system_rhs s)) s)) ;;
      assemble_cells use_nonzero_constraints assemble_system rest
                     local_matrix local_mass_matrix
  end.

(** [assemble(use_nonzero_constraints, assemble_system)] *)
Definition assemble (use_nonzero_constraints assemble_system : bool)
  : M Solver unit :=
  (if assemble_system then
     modify (fun s =>
               set_system_matrix (block_matrix_set_zero (system_matrix s)) s) ;;
     modify (fun s =>
               set_mass_matrix (block_matrix_set_zero (mass_matrix s)) s)
   else ret tt) ;;
  modify (fun s => set_system_rhs (block_vec_fill d_zero (system_rhs s)) s) ;;
  s <- get ;;
  assemble_cells use_nonzero_constraints assemble_system
                 (seq 0 (n_active_cells (triangulation s)))
                 (fm_zero (dof_handler s)) (fm_zero (dof_handler s)).

(** The control of the outer Krylov solve. *)
Definition outer_solver_control (s : Solver) : SolverControl :=
  mkSolverControl (block_matrix_m (system_matrix s))
                  (gmres_relative_tolerance * block_l2_norm (system_rhs s))%float
                  true.

(** [*preconditioner]: undefined on an empty pointer. *)
Definition deref_preconditioner : M Solver BlockSchurPreconditioner :=
  s <- get ;;
  match preconditioner s with
  | Some P => ret P
  | None => throw (ExcUndefined "*preconditioner on an empty pointer")
  end.

(** [solve(use_nonzero_constraints, assemble_system)] *)
Definition solve (use_nonzero_constraints assemble_system : bool)
  : M Solver (nat * double) :=
  (if assemble_system then
     s <- get ;;
     P <- BlockSchurPreconditioner_new
            (grad_div (parameters s)) (viscosity (parameters s))
            (fluid_rho (parameters s)) (delta_t (time s)) ;;
     modify (set_preconditioner (Some P))
   else ret tt) ;;
  s <- get ;;
  let solver_control := outer_solver_control s in
  P <- deref_preconditioner ;;
  r <- lift (solver_fgmres solver_control (system_matrix s) (increment s)
                           (system_rhs s)
                           (vmult P (system_matrix s) (mass_matrix s)
                                  (mass_schur s))) ;;
  x <- lift (converged_or_throw r) ;;
  modify (set_increment x) ;;
  log (EvDistribute use_nonzero_constraints OnIncrement) ;;
  modify (fun s =>
            set_increment
              (cl_distribute (lines (constraints_used use_nonzero_constraints s))
                             (increment s)) s) ;;
  ret (last_step r, last_value r).

(** [refine_mesh(min_grid_level, max_grid_level)] *)
Definition refine_mesh (min_grid_level max_grid_level : nat)
  : M Solver unit :=
  log EvEstimate ;;
  s <- get ;;
  let estimated_error_per_cell :=
    kelly_estimate (dof_handler s) (fluid_degree (parameters s) + 1)
                   (present_solution s) in
  log (EvFlag refine_fraction coarsen_fraction) ;;
  modify (fun s =>
            set_triangulation
              (set_flags (triangulation s)
                 (refine_and_coarsen_fixed_fraction
                    (triangulation s) estimated_error_per_cell
                    refine_fraction coarsen_fraction)) s) ;;
  modify (fun s =>
            set_triangulation
              (clear_refine_flags max_grid_level (triangulation s)) s) ;;
  modify (fun s =>
            set_triangulation
              (clear_coarsen_flags min_grid_level (triangulation s)) s) ;;
  (* BlockVector<double> buffer(present_solution);
     SolutionTransfer<...> solution_transfer(dof_handler); *)
  buffer <- gets present_solution ;;
  old_dofs <- gets dof_handler ;;
  modify (fun s =>
            set_triangulation
              (set_flags (triangulation s)
                 (prepare_coarsening_and_refinement (triangulation s))) s) ;;
  log EvSnapshot ;;
  prepared <- gets triangulation ;;
  log EvExecute ;;
  modify (fun s =>
            set_triangulation
              (execute_coarsening_and_refinement (dim_nat dim)
                                                 (triangulation s)) s) ;;
  setup_dofs dim ;;
  make_constraints dim ;;
  initialize_system ;;
  log EvInterpolate ;;
  modify (fun s =>
            set_present_solution
              (solution_transfer_interpolate old_dofs prepared (dof_handler s)
                                             buffer (present_solution s)) s) ;;
  log (EvDistribute true OnPresentSolution) ;;
  modify (fun s =>
            set_present_solution
              (cl_distribute (lines (nonzero_constraints s))
                             (present_solution s)) s).

(** [output_results(output_index)] writes files; the run only records
    that it was called. *)
Definition output_results (output_index : nat) : M Solver unit :=
  log (EvOutputResults output_index).

(** [run_one_step()] *)
Definition run_one_step : M Solver unit :=
  s <- get ;;
  (if timestep (time s) =? 0 then output_results 0 else ret tt) ;;
  modify (fun s => set_time (time_increment (time s)) s) ;;
  (* Resetting *)
  modify (fun s => set_increment (block_vec_fill d_zero (increment s)) s) ;;
  s <- get ;;
  let apply_nonzero_constraints := timestep (time s) =? 1 in
  let assemble_system := timestep (time s) <? 3 in
  log (EvAssemble (timestep (time s)) 0
                  apply_nonzero_constraints assemble_system) ;;
  assemble apply_nonzero_constraints assemble_system ;;
  log (EvSolve (timestep (time s)) 0
               apply_nonzero_constraints assemble_system) ;;
  state <- solve apply_nonzero_constraints assemble_system ;;
  modify (fun s =>
            set_present_solution
              (block_vec_add (present_solution s) (increment s)) s) ;;
  s <- get ;;
  (if time_to_output (time s) then output_results (timestep (time s))
   else ret tt) ;;
  (if time_to_refine (time s) then refine_mesh 1 3 else ret tt).

(** [run()]: the time loop, cut after [fuel] turns; the result says
    whether the loop ended by its own condition. *)
Fixpoint time_loop (fuel : nat) : M Solver bool :=
  s <- get ;;
  if (run_time_epsilon <? time_end (time s) - time_current (time s))%float
  then match fuel with
       | 0 => ret false
       | S fuel' => run_one_step ;; time_loop fuel'
       end
  else ret true.

Definition run (fuel : nat) : M Solver bool :=
  modify (fun s =>
            set_triangulation
              (refine_global (dim_nat dim)
                             (global_refinement (parameters s))
                             (triangulation s)) s) ;;
  setup_dofs dim ;;
  make_constraints dim ;;
  initialize_system ;;
  time_loop fuel.

End WithCollaborators.
End InsIMEX.

(** ** ParallelNavierStokes: the distributed Newton solver *)

Module ParallelNavierStokes.
Section WithCollaborators.
Context {C : Collaborators}.
Variable dim : Dim.

Definition newton_update : Solver -> BlockVector Vec := increment.

(** The locals of [vmult]. *)
Record VmultFrame : Type := mkVmultFrame {
  f_dst : BlockVector Vec;
  f_utmp : Vec;
  f_tmp : Vec
}.

Definition set_dst1 (v : Vec) (f : VmultFrame) : VmultFrame :=
  mkVmultFrame (mkBlockVector (vblock0 (f_dst f)) v) (f_utmp f) (f_tmp f).
Definition set_dst0 (v : Vec) (f : VmultFrame) : VmultFrame :=
  mkVmultFrame (mkBlockVector v (vblock1 (f_dst f))) (f_utmp f) (f_tmp f).
Definition set_utmp (v : Vec) (f : VmultFrame) : VmultFrame :=
  mkVmultFrame (f_dst f) v (f_tmp f).
Definition set_tmp (v : Vec) (f : VmultFrame) : VmultFrame :=
  mkVmultFrame (f_dst f) (f_utmp f) v.

(** [BlockSchurPreconditioner::BlockSchurPreconditioner]; the vectors
    are sized by [owned_partitioning], block 0 holding the velocity
    degrees of freedom. *)
Definition BlockSchurPreconditioner_new (gamma viscosity rho dt : double)
  : M Solver BlockSchurPreconditioner :=
  s <- get ;;
  let tmp1 := block_vec_reinit (dofs_per_block s) in
  let tmp2 := block_vec_reinit (dofs_per_block s) in
  let tmp1 := block_vec_fill d_one tmp1 in
  let tmp2 := block_vec_fill d_zero tmp2 in
  (* PreconditionJacobi jacobi(mass_matrix->block(0, 0));
     jacobi.vmult(tmp2.block(0), tmp1.block(0)); *)
  let tmp2 :=
    mkBlockVector (precondition_Jacobi (block00 (mass_matrix s)) (vblock0 tmp1))
                  (vblock1 tmp2) in
  log EvSchurBuild ;;
  modify (fun s =>
            set_mass_schur
              (sp_mmult_petsc (block10 (system_matrix s)) (mass_schur s)
                              (block01 (system_matrix s)) (vblock0 tmp2)) s) ;;
  ret (mkBlockSchurPreconditioner gamma viscosity rho dt).

(** [BlockSchurPreconditioner::vmult(dst, src)]; [schur] is block (1, 1)
    of [mass_schur]. *)
Definition vmult_body (P : BlockSchurPreconditioner)
    (system mass : BlockMatrix SparseMatrix) (schur : SparseMatrix)
    (src : BlockVector Vec) : M VmultFrame unit :=
  (* CG for Mp *)
  let solver_control :=
    mkSolverControl (vec_size (vblock1 src))
                    (cg_relative_tolerance * vec_l2_norm (vblock1 src))%float
                    false in
  (* PETScWrappers::MPI::Vector tmp(src.block(1)); tmp = 0; *)
  modify (set_tmp (vblock1 src)) ;;
  modify (fun f => set_tmp (vec_fill d_zero (f_tmp f)) f) ;;
  Mp_preconditioner <- lift (block_jacobi_initialize (block11 mass)) ;;
  f <- get ;;
  x <- lift (converged_or_throw
               (solver_cg solver_control (block11 mass) (f_tmp f)
                          (vblock1 src) Mp_preconditioner)) ;;
  modify (set_tmp x) ;;
  modify (fun f =>
            set_tmp (vec_scale (- (p_viscosity P + p_gamma P * p_rho P))%float
                               (f_tmp f)) f) ;;
  (* CG for Sm *)
  Sm_preconditioner <- lift (block_jacobi_initialize schur) ;;
  f <- get ;;
  x <- lift (converged_or_throw
               (solver_cg solver_control schur (vblock1 (f_dst f))
                          (vblock1 src) Sm_preconditioner)) ;;
  modify (set_dst1 x) ;;
  modify (fun f =>
            set_dst1 (vec_scale (- p_rho P / p_dt P)%float
                                (vblock1 (f_dst f))) f) ;;
  modify (fun f => set_dst1 (vec_add (vblock1 (f_dst f)) (f_tmp f)) f) ;;
  (* v0 - B^T u1 *)
  modify (fun f => set_utmp (sp_vmult (block01 system) (vblock1 (f_dst f))) f) ;;
  modify (fun f => set_utmp (vec_scale d_minus_one (f_utmp f)) f) ;;
  modify (fun f => set_utmp (vec_add (f_utmp f) (vblock0 src)) f) ;;
  (* MUMPS for A_inv *)
  f <- get ;;
  x <- lift (solver_mumps (block00 system) (vblock0 (f_dst f)) (f_utmp f)) ;;
  modify (set_dst0 x).

Definition vmult (P : BlockSchurPreconditioner)
    (system mass : BlockMatrix SparseMatrix) (schur : SparseMatrix)
    (dst src : BlockVector Vec) : Exc + BlockVector Vec :=
  (* PETScWrappers::MPI::Vector utmp(src.block(0)); tmp is declared
     inside the first block, so the frame's tmp starts as anything. *)
  let frame := mkVmultFrame dst (vblock0 src) (vblock1 src) in
  match vmult_body P system mass schur src frame with
  | (inr _, f) => inr (f_dst f)
  | (inl e, _) => inl e
  end.

(** [initialize_system()] *)
Definition initialize_system : M Solver unit :=
  log EvInitializeSystem ;;
  modify (set_preconditioner None) ;;
  modify (set_system_matrix
            (mkBlockMatrix sp_empty sp_empty sp_empty sp_empty)) ;;
  modify (set_mass_matrix
            (mkBlockMatrix sp_empty sp_empty sp_empty sp_empty)) ;;
  modify (set_mass_schur sp_empty) ;;
  modify (fun s =>
            set_sparsity_pattern
              (make_sparsity_pattern (dof_handler s) (dofs_per_block s)
                                     (lines (nonzero_constraints s))) s) ;;
  modify (fun s =>
            set_system_matrix (block_matrix_reinit (sparsity_pattern s)) s) ;;
  modify (fun s =>
            set_mass_matrix (block_matrix_reinit (sparsity_pattern s)) s) ;;
  modify (fun s =>
            set_mass_schur
              (sp_reinit (compute_mmult_pattern
                            (block10 (sparsity_pattern s))
                            (block01 (sparsity_pattern s)))) s) ;;
  modify (fun s =>
            set_present_solution (block_vec_reinit (dofs_per_block s)) s) ;;
  modify (fun s => set_increment (block_vec_reinit (dofs_per_block s)) s) ;;
  modify (fun s =>
            set_evaluation_point (block_vec_reinit (dofs_per_block s)) s) ;;
  modify (fun s => set_system_rhs (block_vec_reinit (dofs_per_block s)) s) ;;
  setup_cell_property dim.

(** The loop of [assemble] over the (locally owned) active cells. *)
Fixpoint assemble_cells (use_nonzero_constraints : bool) (cells : list nat)
  : M Solver unit :=
  match cells with
  | [] => ret tt
  | cell :: rest =>
      s <- get ;;
      let p := nth cell (cell_property s) [] in
      let local_matrix :=
        newton_cell_matrix (parameters s) (delta_t (time s)) (dof_handler s)
                           cell (evaluation_point s)
                           (fm_zero (dof_handler s)) in
      let local_mass_matrix :=
        cell_mass_matrix (dof_handler s) cell (fm_zero (dof_handler s)) in
      let local_rhs :=
        newton_cell_rhs (parameters s) (delta_t (time s)) (dof_handler s)
                        cell (evaluation_point s) (present_solution s) p in
      let local_dof_indices := get_dof_indices (dof_handler s) cell in
      let used := lines (constraints_used use_nonzero_constraints s) in
      modify (fun s =>
                let r := distribute_local_to_global
                           used local_matrix local_rhs local_dof_indices
                           (system_matrix s) (system_rhs s) in
                set_system_rhs (snd r) (set_system_matrix (fst r) s)) ;;
      modify (fun s =>
                set_mass_matrix
                  (distribute_local_to_global_matrix
                     used local_mass_matrix local_dof_indices
                     (mass_matrix s)) s) ;;
      assemble_cells use_nonzero_constraints rest
  end.

(** [assemble(use_nonzero_constraints)] *)
Definition assemble (use_nonzero_constraints : bool) : M Solver unit :=
  modify (fun s =>
            set_system_matrix (block_matrix_set_zero (system_matrix s)) s) ;;
  modify (fun s =>
            set_mass_matrix (block_matrix_set_zero (mass_matrix s)) s) ;;
  modify (fun s => set_system_rhs (block_vec_fill d_zero (system_rhs s)) s) ;;
  s <- get ;;
  assemble_cells use_nonzero_constraints
                 (seq 0 (n_active_cells (triangulation s))).

(** The control of the outer Krylov solve. *)
Definition outer_solver_control (s : Solver) : SolverControl :=
  mkSolverControl (block_matrix_m (system_matrix s))
                  (gmres_relative_tolerance * block_l2_norm (system_rhs s))%float
                  true.

(** [solve(use_nonzero_constraints)] *)
Definition solve (use_nonzero_constraints : bool) : M Solver (nat * double) :=
  s <- get ;;
  P <- BlockSchurPreconditioner_new
         (grad_div (parameters s)) (viscosity (parameters s))
         (fluid_rho (parameters s)) (delta_t (time s)) ;;
  modify (set_preconditioner (Some P)) ;;
  s <- get ;;
  let solver_control := outer_solver_control s in
  r <- lift (solver_fgmres solver_control (system_matrix s) (increment s)
                           (system_rhs s)
                           (vmult P (system_matrix s) (mass_matrix s)
                                  (mass_schur s))) ;;
  x <- lift (converged_or_throw r) ;;
  modify (set_increment x) ;;
  log (EvDistribute use_nonzero_constraints OnIncrement) ;;
  modify (fun s =>
            set_increment
              (cl_distribute (lines (constraints_used use_nonzero_constraints s))
                             (increment s)) s) ;;
  ret (last_step r, last_value r).

(** [refine_mesh(min_grid_level, max_grid_level)] *)
Definition refine_mesh (min_grid_level max_grid_level : nat)
  : M Solver unit :=
  log EvEstimate ;;
  s <- get ;;
  let estimated_error_per_cell :=
    kelly_estimate (dof_handler s) (fluid_degree (parameters s) + 2)
                   (present_solution s) in
  log (EvFlag refine_fraction coarsen_fraction) ;;
  modify (fun s =>
            set_triangulation
              (set_flags (triangulation s)
                 (refine_and_coarsen_fixed_fraction
                    (triangulation s) estimated_error_per_cell
                    refine_fraction coarsen_fraction)) s) ;;
  modify (fun s =>
            set_triangulation
              (clear_refine_flags max_grid_level (triangulation s)) s) ;;
  modify (fun s =>
            set_triangulation
              (clear_coarsen_flags min_grid_level (triangulation s)) s) ;;
  (* parallel::distributed::SolutionTransfer<...> trans(dof_handler); *)
  old_dofs <- gets dof_handler ;;
  modify (fun s =>
            set_triangulation
              (set_flags (triangulation s)
                 (prepare_coarsening_and_refinement (triangulation s))) s) ;;
  (* trans.prepare_for_coarsening_and_refinement(present_solution); *)
  stored <- gets present_solution ;;
  log EvSnapshot ;;
  prepared <- gets triangulation ;;
  log EvExecute ;;
  modify (fun s =>
            set_triangulation
              (execute_coarsening_and_refinement (dim_nat dim)
                                                 (triangulation s)) s) ;;
  setup_dofs dim ;;
  make_constraints dim ;;
  initialize_system ;;
  (* PETScWrappers::MPI::BlockVector tmp(newton_update); tmp = 0; *)
  tmp <- gets (fun s => block_vec_fill d_zero (increment s)) ;;
  log EvInterpolate ;;
  tmp <- gets (fun s =>
                 solution_transfer_interpolate old_dofs prepared
                                               (dof_handler s) stored tmp) ;;
  log (EvDistribute true OnPresentSolution) ;;
  tmp <- gets (fun s => cl_distribute (lines (nonzero_constraints s)) tmp) ;;
  modify (set_present_solution tmp).

Definition output_results (output_index : nat) : M Solver unit :=
  log (EvOutputResults output_index).

(** The locals of [run_one_step] that the Newton loop carries. *)
Record NewtonLocals : Type := mkNewtonLocals {
  current_residual : double;
  initial_residual : double;
  relative_residual : double;
  outer_iteration : nat
}.

(** [relative_residual > tolerance && current_residual > 1e-14] *)
Definition newton_continue (tolerance : double) (l : NewtonLocals) : bool :=
  (tolerance <? relative_residual l)%float &&
  (newton_absolute_floor <? current_residual l)%float.

(** The body of the [while] loop. *)
Definition newton_iteration (apply_nonzero_constraints : bool)
    (l : NewtonLocals) : M Solver NewtonLocals :=
  s <- get ;;
  assert_throw (outer_iteration l <? fluid_max_iterations (parameters s))
               too_many_newton ;;
  modify (fun s => set_increment (block_vec_fill d_zero (increment s)) s) ;;
  let use_nonzero := apply_nonzero_constraints && (outer_iteration l =? 0) in
  log (EvAssemble (timestep (time s)) (outer_iteration l) use_nonzero true) ;;
  assemble use_nonzero ;;
  log (EvSolve (timestep (time s)) (outer_iteration l) use_nonzero true) ;;
  state <- solve use_nonzero ;;
  s <- get ;;
  let current := block_l2_norm (system_rhs s) in
  (* tmp = evaluation_point; tmp += newton_update;
     nonzero_constraints.distribute(tmp); evaluation_point = tmp; *)
  let tmp := evaluation_point s in
  let tmp := block_vec_add tmp (increment s) in
  log (EvDistribute true OnEvaluationPoint) ;;
  let tmp := cl_distribute (lines (nonzero_constraints s)) tmp in
  modify (set_evaluation_point tmp) ;;
  let initial :=
    if outer_iteration l =? 0 then current else initial_residual l in
  let relative := (current / initial)%float in
  log (EvResidual (outer_iteration l) current relative) ;;
  ret (mkNewtonLocals current initial relative (S (outer_iteration l))).

(** The [while] loop, cut after [fuel] turns; the result says whether it
    ended by its own condition. *)
Fixpoint newton_loop (fuel : nat) (apply_nonzero_constraints : bool)
    (l : NewtonLocals) : M Solver bool :=
  s <- get ;;
  if newton_continue (fluid_tolerance (parameters s)) l
  then match fuel with
       | 0 => ret false
       | S fuel' =>
           l' <- newton_iteration apply_nonzero_constraints l ;;
           newton_loop fuel' apply_nonzero_constraints l'
       end
  else ret true.

(** [run_one_step(apply_nonzero_constraints)].  The loop is given one
    turn more than [max_iteration]: the assertion at the head of the
    body fails before the turns run out. *)
Definition run_one_step (apply_nonzero_constraints : bool) : M Solver unit :=
  s <- get ;;
  (if timestep (time s) =? 0 then output_results 0 else ret tt) ;;
  modify (fun s => set_time (time_increment (time s)) s) ;;
  (* Resetting *)
  let l := mkNewtonLocals d_one d_one d_one 0 in
  modify (fun s => set_evaluation_point (present_solution s) s) ;;
  newton_loop (S (fluid_max_iterations (parameters s)))
              apply_nonzero_constraints l ;;
  modify (fun s => set_present_solution (evaluation_point s) s) ;;
  s <- get ;;
  (if time_to_output (time s) then output_results (timestep (time s))
   else ret tt) ;;
  (if time_to_refine (time s) then refine_mesh 1 3 else ret tt).

(** [run()]: the time loop, cut after [fuel] turns. *)
Fixpoint time_loop (fuel : nat) : M Solver bool :=
  s <- get ;;
  if (run_time_epsilon <? time_end (time s) - time_current (time s))%float
  then match fuel with
       | 0 => ret false
       | S fuel' => run_one_step false ;; time_loop fuel'
       end
  else ret true.

Definition run (fuel : nat) : M Solver bool :=
  modify (fun s =>
            set_triangulation
              (refine_global (dim_nat dim)
                             (global_refinement (parameters s))
                             (triangulation s)) s) ;;
  setup_dofs dim ;;
  make_constraints dim ;;
  initialize_system ;;
  run_one_step true ;;
  time_loop fuel.

End WithCollaborators.
End ParallelNavierStokes.

(** ** The constructors

    [InsIMEX(tria, parameters)] and
    [ParallelNavierStokes(tria, parameters)] take the triangulation and
    the parameters and leave every other member default-constructed;
    the clock starts at step 0. *)

Definition solver_new {C : Collaborators} (tria : Triangulation)
    (p : AllParameters) : Solver :=
  mkSolver p tria dof_handler_empty (0, 0) cm_clear cm_clear
           (mkBlockMatrix pattern_empty pattern_empty pattern_empty
                          pattern_empty)
           (mkBlockMatrix sp_empty sp_empty sp_empty sp_empty)
           (mkBlockMatrix sp_empty sp_empty sp_empty sp_empty)
           sp_empty
           (block_vec_reinit (0, 0)) (block_vec_reinit (0, 0))
           (block_vec_reinit (0, 0)) (block_vec_reinit (0, 0))
           None [] (time_init p) [].

(** ** An executable instance of the collaborators

    Dense matrices and vectors of doubles; a discontinuous element with
    two velocity unknowns and one pressure unknown per active cell, so
    that cell [k] of [n] owns the unknowns [2k], [2k+1] and [2n+k];
    stationary iterations driven by [SolverControl_check] in the place
    of the Krylov solvers; and a clock that is due for output, or for
    refinement, every so many steps.  It serves to run the solvers on
    concrete data. *)

Module Toy.

Definition fsum (l : list double) : double :=
  fold_left PrimFloat.add l d_zero.

Definition dot (a b : list double) : double :=
  fsum (map (fun p => (fst p * snd p)%float) (combine a b)).

Definition norm_sqr (v : list double) : double := dot v v.

Definition l2_norm (v : list double) : double := sqrt (norm_sqr v).

Definition vadd (a b : list double) : list double :=
  map (fun p => (fst p + snd p)%float) (combine a b).

Definition vsub (a b : list double) : list double :=
  map (fun p => (fst p - snd p)%float) (combine a b).

Definition Dense : Type := list (list double).

Definition entry (a : Dense) (i j : nat) : double :=
  nth j (nth i a []) d_zero.

Definition mat_vec (a : Dense) (v : list double) : list double :=
  map (fun row => dot row v) a.

Definition dense_zero (rows cols : nat) : Dense :=
  repeat (repeat d_zero cols) rows.

(** [dst_i = src_i / a_ii] *)
Definition jacobi_apply (a : Dense) (src : list double) : list double :=
  map (fun p => (snd p / entry a (fst p) (fst p))%float)
      (combine (seq 0 (length src)) src).

(** [C = A diag(V) B], on the shape [C] has. *)
Definition mmult (a c b : Dense) (v : list double) : Dense :=
  map (fun i =>
         map (fun j =>
                fsum (map (fun k => (entry a i k * nth k v d_zero
                                     * entry b k j)%float)
                          (seq 0 (length v))))
             (seq 0 (length (hd [] c))))
      (seq 0 (length c)).

Definition has_zero_diagonal (a : Dense) : bool :=
  existsb (fun i => (entry a i i =? 0)%float) (seq 0 (length a)).

Definition factorise (a : Dense) : Exc + unit :=
  if has_zero_diagonal a then inl (ExcLibrary "zero pivot") else inr tt.

(** Jacobi iteration under a solver control. *)
Fixpoint jacobi_iterate (fuel : nat) (c : SolverControl) (a : Dense)
    (b : list double) (step : nat) (x : list double)
  : SolveResult (list double) :=
  let r := vsub b (mat_vec a x) in
  let res := l2_norm r in
  match SolverControl_check c step res with
  | Some st => mkSolveResult x step res st
  | None =>
      match fuel with
      | 0 => mkSolveResult x step res failure
      | S fuel' =>
          jacobi_iterate fuel' c a b (S step) (vadd x (jacobi_apply a r))
      end
  end.

Definition diagonal_solve (a : Dense) (b : list double)
  : Exc + list double :=
  if has_zero_diagonal a then inl (ExcLibrary "zero pivot")
  else inr (jacobi_apply a b).

Definition BV : Type := BlockVector (list double).
Definition BM : Type := BlockMatrix Dense.

Definition bm_vec (a : BM) (x : BV) : BV :=
  mkBlockVector
    (vadd (mat_vec (block00 a) (vblock0 x)) (mat_vec (block01 a) (vblock1 x)))
    (vadd (mat_vec (block10 a) (vblock0 x)) (mat_vec (block11 a) (vblock1 x))).

Definition bv_sub (a b : BV) : BV :=
  mkBlockVector (vsub (vblock0 a) (vblock0 b)) (vsub (vblock1 a) (vblock1 b)).

Definition bv_add (a b : BV) : BV :=
  mkBlockVector (vadd (vblock0 a) (vblock0 b)) (vadd (vblock1 a) (vblock1 b)).

Definition bv_zero_like (a : BV) : BV :=
  mkBlockVector (map (fun _ => d_zero) (vblock0 a))
                (map (fun _ => d_zero) (vblock1 a)).

Definition bv_l2_norm (a : BV) : double :=
  sqrt (norm_sqr (vblock0 a) + norm_sqr (vblock1 a))%float.

(** Preconditioned Richardson iteration under a solver control. *)
Fixpoint richardson (fuel : nat) (c : SolverControl) (a : BM) (b : BV)
    (P : BV -> BV -> Exc + BV) (step : nat) (x : BV)
  : Exc + SolveResult BV :=
  let r := bv_sub b (bm_vec a x) in
  let res := bv_l2_norm r in
  match SolverControl_check c step res with
  | Some st => inr (mkSolveResult x step res st)
  | None =>
      match fuel with
      | 0 => inr (mkSolveResult x step res failure)
      | S fuel' =>
          match P (bv_zero_like r) r with
          | inl e => inl e
          | inr z => richardson fuel' c a b P (S step) (bv_add x z)
          end
      end
  end.

(** Global numbering: the velocity block, then the pressure block. *)
Definition global_get (v : BV) (i : nat) : double :=
  if i <? length (vblock0 v) then nth i (vblock0 v) d_zero
  else nth (i - length (vblock0 v)) (vblock1 v) d_zero.

Definition global_set (v : BV) (i : nat) (x : double) : BV :=
  if i <? length (vblock0 v)
  then mkBlockVector (list_set (vblock0 v) i x) (vblock1 v)
  else mkBlockVector (vblock0 v)
                     (list_set (vblock1 v) (i - length (vblock0 v)) x).

Definition dense_add_at (a : Dense) (i j : nat) (x : double) : Dense :=
  list_set a i (list_set (nth i a []) j (entry a i j + x)%float).

Definition bm_add_at (a : BM) (i j : nat) (x : double) : BM :=
  let nu := length (block00 a) in
  match i <? nu, j <? nu with
  | true, true =>
      mkBlockMatrix (dense_add_at (block00 a) i j x) (block01 a)
                    (block10 a) (block11 a)
  | true, false =>
      mkBlockMatrix (block00 a) (dense_add_at (block01 a) i (j - nu) x)
                    (block10 a) (block11 a)
  | false, true =>
      mkBlockMatrix (block00 a) (block01 a)
                    (dense_add_at (block10 a) (i - nu) j x) (block11 a)
  | false, false =>
      mkBlockMatrix (block00 a) (block01 a) (block10 a)
                    (dense_add_at (block11 a) (i - nu) (j - nu) x)
  end.

(** Adding a local matrix, or a local vector, at the cell's unknowns. *)
Definition add_local_matrix (lm : Dense) (idx : list nat) (a : BM) : BM :=
  fold_left
    (fun acc ij =>
       bm_add_at acc (nth (fst ij) idx 0) (nth (snd ij) idx 0)
                 (entry lm (fst ij) (snd ij)))
    (list_prod (seq 0 (length idx)) (seq 0 (length idx))) a.

Definition add_local_rhs (lr : list double) (idx : list nat) (b : BV) : BV :=
  fold_left
    (fun acc i =>
       let j := nth i idx 0 in
       global_set acc j (global_get acc j + nth i lr d_zero)%float)
    (seq 0 (length idx)) b.

Definition dense_add (a b : Dense) : Dense :=
  map (fun rows => vadd (fst rows) (snd rows)) (combine a b).

(** The cell matrix: [a] on the velocity diagonal, where [a] is
    viscosity + grad_div * rho + rho / delta_t, and a unit coupling of
    the first velocity unknown with the pressure. *)
Definition cell_matrix (p : AllParameters) (dt : double) : Dense :=
  let a := (viscosity p + grad_div p * fluid_rho p + fluid_rho p / dt)%float in
  [ [a; d_zero; d_one]; [d_zero; a; d_zero]; [d_one; d_zero; d_zero] ].

Definition identity3 : Dense :=
  [ [d_one; d_zero; d_zero]; [d_zero; d_one; d_zero];
    [d_zero; d_zero; d_one] ].

Definition local_values (idx : list nat) (v : BV) : list double :=
  map (global_get v) idx.

Definition cell_indices (n k : nat) : list nat := [2 * k; 2 * k + 1; 2 * n + k].

Definition is_coupled (props : list CellProperty) : bool :=
  existsb (fun q => Z.eqb (indicator q) 1) props.

(** The cell right-hand side: half the cell matrix applied to the
    distance of the field from the unit field, plus a unit body force on
    the first velocity unknown of a coupled cell. *)
Definition cell_rhs (p : AllParameters) (dt : double) (idx : list nat)
    (field : BV) (props : list CellProperty) : list double :=
  let d := map (fun x => ((d_one - x) / 2)%float) (local_values idx field) in
  let r := mat_vec (cell_matrix p dt) d in
  if is_coupled props then vadd r [d_one; d_zero; d_zero] else r.

Definition boundary_value (f : BoundaryFunction) (component : nat) : double :=
  match f with
  | BoundaryValues => if component =? 0 then 0.3%float else d_zero
  | ConstantFunction av => nth component av d_zero
  | ZeroFunction _ => d_zero
  end.

(** Boundary [id] is the cell [id]: its velocity unknowns are pinned in
    the components the mask selects. *)
Definition pin_boundary (n id : nat) (f : BoundaryFunction)
    (l : list (nat * double)) (mask : list bool) : list (nat * double) :=
  if id <? n then
    l ++ (if nth 0 mask false then [(2 * id, boundary_value f 0)] else [])
      ++ (if nth 1 mask false then [(2 * id + 1, boundary_value f 1)] else [])
  else l.

Definition pin_all (l : list (nat * double)) (v : BV) : BV :=
  fold_left (fun acc ix => global_set acc (fst ix) (snd ix)) l v.

Definition keep_flags (t : Triangulation) : list (bool * bool) :=
  map (fun a => (ac_refine a, ac_coarsen a)) (active_cells t).

(** Flag for refinement the cells whose error exceeds the top fraction
    of the largest, for coarsening those below the bottom fraction. *)
Definition fixed_fraction (t : Triangulation) (err : list double)
    (top bottom : double) : list (bool * bool) :=
  let biggest := fold_left (fun m e => if (m <? e)%float then e else m)
                           err d_zero in
  map (fun e => ((top * biggest <? e)%float,
                 (e <? bottom * biggest)%float)) err.

Definition resize (n : nat) (v : list double) : list double :=
  map (fun i => nth i v d_zero) (seq 0 n).

Definition due (every : nat) (t : TimeState) : bool :=
  negb (every =? 0) && (timestep t mod every =? 0).

Definition collaborators (output_every refine_every : nat) : Collaborators :=
  {| Vec := list double;
     SparseMatrix := Dense;
     SparsityPattern := nat * nat;
     FullMatrix := Dense;
     Preconditioner := unit;
     DoFHandler := nat;
     ConstraintLines := list (nat * double);
     sp_empty := [];
     pattern_empty := (0, 0);
     dof_handler_empty := 0;
     vec_reinit := fun n => repeat d_zero n;
     vec_size := fun v => length v;
     vec_fill := fun x v => map (fun _ => x) v;
     vec_scale := fun x v => map (fun y => (y * x)%float) v;
     vec_add := vadd;
     vec_l2_norm := l2_norm;
     vec_norm_sqr := norm_sqr;
     sp_reinit := fun p => dense_zero (fst p) (snd p);
     sp_m := fun a => length a;
     sp_set_zero := fun a => map (map (fun _ => d_zero)) a;
     sp_vmult := mat_vec;
     precondition_Jacobi := jacobi_apply;
     sp_mmult := fun a c b v _ => mmult a c b v;
     sp_mmult_petsc := mmult;
     ilu_initialize := factorise;
     block_jacobi_initialize := factorise;
     identity_initialize := fun _ => tt;
     solver_cg := fun c a x b _ => jacobi_iterate (max_steps c) c a b 0 x;
     solver_mumps := fun a _ b => diagonal_solve a b;
     solver_fgmres := fun c a x b P => richardson (max_steps c) c a b P 0 x;
     distribute_dofs := fun _ _ t => n_active_cells t;
     count_dofs_per_block := fun n => (2 * n, n);
     get_dof_indices := cell_indices;
     cl_clear := [];
     make_hanging_node_constraints := fun _ l => l;
     interpolate_boundary_values := pin_boundary;
     cl_close := fun l => l;
     cl_distribute := pin_all;
     distribute_local_to_global := fun _ lm lr idx a b =>
       (add_local_matrix lm idx a, add_local_rhs lr idx b);
     distribute_local_to_global_matrix := fun _ lm idx a =>
       add_local_matrix lm idx a;
     distribute_local_to_global_rhs := fun _ lr idx b =>
       add_local_rhs lr idx b;
     make_sparsity_pattern := fun _ dofs _ =>
       mkBlockMatrix (fst dofs, fst dofs) (fst dofs, snd dofs)
                     (snd dofs, fst dofs) (snd dofs, snd dofs);
     compute_mmult_pattern := fun a b => (fst a, snd b);
     fm_zero := fun _ => dense_zero 3 3;
     imex_cell_matrix := fun p dt _ _ lm => dense_add lm (cell_matrix p dt);
     newton_cell_matrix := fun p dt _ _ _ lm =>
       dense_add lm (cell_matrix p dt);
     cell_mass_matrix := fun _ _ lm => dense_add lm identity3;
     imex_cell_rhs := fun p n k field props =>
       cell_rhs p (time_step p) (cell_indices n k) field props;
     newton_cell_rhs := fun p dt n k ev _ props =>
       cell_rhs p dt (cell_indices n k) ev props;
     kelly_estimate := fun n _ field =>
       map (fun k => abs (global_get field (2 * k))) (seq 0 n);
     refine_and_coarsen_fixed_fraction := fixed_fraction;
     prepare_coarsening_and_refinement := keep_flags;
     solution_transfer_interpolate := fun _ _ _ stored out =>
       mkBlockVector (resize (length (vblock0 out)) (vblock0 stored))
                     (resize (length (vblock1 out)) (vblock1 stored));
     time_to_output := due output_every;
     time_to_refine := due refine_every |}.

End Toy.

(** * Properties

    From here on: how the embedded methods run, and what the
    specification says about them. *)

(** Running the monad: unfold its operations, then reduce the accesses
    to the members, which leaves every state as one [mkSolver]. *)
Section RunningTheMonad.
Context {S : Type}.

Lemma run_bind_ret {A B} (a : A) (k : A -> M S B) s :
  bind (ret a) k s = k a s.
Proof. reflexivity. Qed.

Lemma run_bind_modify {B} (f : S -> S) (k : unit -> M S B) s :
  bind (modify f) k s = k tt (f s).
Proof. reflexivity. Qed.

Lemma run_bind_get {B} (k : S -> M S B) s : bind get k s = k s s.
Proof. reflexivity. Qed.

Lemma run_bind_gets {A B} (f : S -> A) (k : A -> M S B) s :
  bind (gets f) k s = k (f s) s.
Proof. reflexivity. Qed.

Lemma run_bind_throw {A B} (e : Exc) (k : A -> M S B) s :
  bind (throw e) k s = (inl e, s).
Proof. reflexivity. Qed.

Lemma run_bind_lift_inr {A B} (a : A) (k : A -> M S B) s :
  bind (lift (inr a)) k s = k a s.
Proof. reflexivity. Qed.

Lemma run_bind_lift_inl {A B} (e : Exc) (k : A -> M S B) s :
  bind (lift (inl e)) k s = (inl e, s).
Proof. reflexivity. Qed.

Lemma run_bind_bind {A B D} (m : M S A) (k : A -> M S B) (k' : B -> M S D) s :
  bind (bind m k) k' s = bind m (fun a => bind (k a) k') s.
Proof.
  unfold bind. destruct (m s) as [[e|a] s1]; [reflexivity|].
  destruct (k a s1) as [[e|b] s2]; reflexivity.
Qed.

Lemma run_bind_is {A B} (m : M S A) (k : A -> M S B) s a s1 :
  m s = (inr a, s1) -> bind m k s = k a s1.
Proof. intros H. unfold bind. rewrite H. reflexivity. Qed.

Lemma run_bind_fails {A B} (m : M S A) (k : A -> M S B) s e s1 :
  m s = (inl e, s1) -> bind m k s = (inl e, s1).
Proof. intros H. unfold bind. rewrite H. reflexivity. Qed.

Lemma run_modify (f : S -> S) s : modify f s = (inr tt, f s).
Proof. reflexivity. Qed.

Lemma run_ret {A} (a : A) (s : S) : ret a s = (inr a, s).
Proof. reflexivity. Qed.

End RunningTheMonad.

Lemma run_bind_log {C : Collaborators} {B} (e : Event)
    (k : unit -> M Solver B) s :
  bind (log e) k s = k tt (set_trace (trace s ++ [e]) s).
Proof. reflexivity. Qed.

Lemma run_log {C : Collaborators} (e : Event) s :
  log e s = (inr tt, set_trace (trace s ++ [e]) s).
Proof. reflexivity. Qed.

(** Reducing the accesses to the members of a state. *)
Ltac members :=
  cbn [fst snd
       parameters triangulation dof_handler dofs_per_block
       nonzero_constraints zero_constraints sparsity_pattern system_matrix
       mass_matrix mass_schur present_solution increment evaluation_point
       system_rhs preconditioner cell_property time trace
       set_triangulation set_dof_handler set_dofs_per_block
       set_nonzero_constraints set_zero_constraints set_sparsity_pattern
       set_system_matrix set_mass_matrix set_mass_schur set_present_solution
       set_increment set_evaluation_point set_system_rhs set_preconditioner
       set_cell_property set_time set_trace constraints_used].

Ltac members_in H :=
  cbn [fst snd
       parameters triangulation dof_handler dofs_per_block
       nonzero_constraints zero_constraints sparsity_pattern system_matrix
       mass_matrix mass_schur present_solution increment evaluation_point
       system_rhs preconditioner cell_property time trace
       set_triangulation set_dof_handler set_dofs_per_block
       set_nonzero_constraints set_zero_constraints set_sparsity_pattern
       set_system_matrix set_mass_matrix set_mass_schur set_present_solution
       set_increment set_evaluation_point set_system_rhs set_preconditioner
       set_cell_property set_time set_trace constraints_used] in H.

(** One step of a run, then as many as there are. *)
Ltac mstep :=
  first [ rewrite run_bind_bind
        | rewrite run_bind_modify
        | rewrite run_bind_log
        | rewrite run_bind_get
        | rewrite run_bind_gets
        | rewrite run_bind_ret
        | rewrite run_bind_throw
        | rewrite run_bind_lift_inr
        | rewrite run_bind_lift_inl
        | rewrite run_modify
        | rewrite run_log
        | rewrite run_ret ];
  cbv beta; members.

Ltac mrun := repeat mstep.

Ltac msimpl :=
  cbn [bind ret modify get gets throw lift log assert_throw]; members.

Ltac msimpl_in H :=
  cbn [bind ret modify get gets throw lift log assert_throw] in H;
  members_in H.

(** ** The members of a state *)

Lemma solver_eta {C : Collaborators} (s : Solver) :
  s = mkSolver (parameters s) (triangulation s) (dof_handler s)
        (dofs_per_block s) (nonzero_constraints s) (zero_constraints s)
        (sparsity_pattern s) (system_matrix s) (mass_matrix s) (mass_schur s)
        (present_solution s) (increment s) (evaluation_point s)
        (system_rhs s) (preconditioner s) (cell_property s) (time s)
        (trace s).
Proof. destruct s; reflexivity. Qed.

(** ** Boundary-condition flags *)

Definition entry_flag (e : nat * (nat * list double)) : nat := fst (snd e).
Definition entry_value (e : nat * (nat * list double)) : list double :=
  snd (snd e).

(** The flag is one of 1..7. *)
Definition entry_recognized (e : nat * (nat * list double)) : bool :=
  flag_recognized (entry_flag e).

(** The value vector holds what the flag's case reads. *)
Definition entry_well_formed (e : nat * (nat * list double)) : bool :=
  flag_arity (entry_flag e) <=? length (entry_value e).

Definition all_recognized (p : AllParameters) : bool :=
  forallb entry_recognized (fluid_dirichlet_bcs p).

Definition all_well_formed (p : AllParameters) : bool :=
  forallb entry_well_formed (fluid_dirichlet_bcs p).

Lemma component_flag_unrecognized dim flag value :
  flag_recognized flag = false ->
  component_flag dim flag value = inl unrecognized_flag.
Proof.
  unfold flag_recognized.
  destruct flag as [|[|[|[|[|[|[|[|flag]]]]]]]]; cbn; intros H;
    try discriminate; reflexivity.
Qed.

Lemma component_flag_recognized dim flag value :
  flag_recognized flag = true ->
  flag_arity flag <= length value ->
  exists mv, component_flag dim flag value = inr mv.
Proof.
  unfold flag_recognized.
  destruct flag as [|[|[|[|[|[|[|[|flag]]]]]]]]; cbn; intros H Hlen;
    try discriminate;
    destruct value as [|v0 [|v1 [|v2 value]]]; cbn in *;
    try lia; eexists; reflexivity.
Qed.

Section MC.
Context {C : Collaborators}.
Variable dim : Dim.

(** What [make_constraints] may touch: the two constraint sets. *)
Definition constraints_replaced (s s' : Solver) : Prop :=
  exists nz z,
    s' = set_zero_constraints z (set_nonzero_constraints nz s) /\
    closed nz = closed (nonzero_constraints s) /\
    closed z = closed (zero_constraints s).

Lemma constraints_replaced_refl s : constraints_replaced s s.
Proof.
  exists (nonzero_constraints s), (zero_constraints s).
  repeat split. destruct s; reflexivity.
Qed.

Lemma constraints_replaced_trans s1 s2 s3 :
  constraints_replaced s1 s2 -> constraints_replaced s2 s3 ->
  constraints_replaced s1 s3.
Proof.
  intros (nz & z & -> & Hn & Hz) (nz' & z' & -> & Hn' & Hz').
  exists nz', z'. cbn in *. repeat split; congruence.
Qed.

Lemma make_constraints_entry_run e s :
  (exists mv, component_flag dim (entry_flag e) (entry_value e) = inr mv /\
              fst (make_constraints_entry dim e s) = inr tt) \/
  (exists err, component_flag dim (entry_flag e) (entry_value e) = inl err /\
               make_constraints_entry dim e s = (inl err, s)).
Proof.
  unfold make_constraints_entry, entry_flag, entry_value.
  destruct (component_flag dim (fst (snd e)) (snd (snd e))) as [err|mv] eqn:E.
  - right. exists err. split; [reflexivity|].
    unfold bind, lift. reflexivity.
  - left. exists mv. split; reflexivity.
Qed.

Lemma make_constraints_entry_frame e s :
  constraints_replaced s (snd (make_constraints_entry dim e s)).
Proof.
  unfold make_constraints_entry.
  destruct (component_flag dim (fst (snd e)) (snd (snd e))) as [err|mv] eqn:E;
    unfold bind, lift, modify; cbn.
  - apply constraints_replaced_refl.
  - eexists _, _. split; [reflexivity|]. cbn. split; reflexivity.
Qed.

Lemma for_each_entries_frame bcs : forall s,
  constraints_replaced s (snd (for_each bcs (make_constraints_entry dim) s)).
Proof.
  induction bcs as [|e bcs IH]; intros s; cbn [for_each].
  - apply constraints_replaced_refl.
  - unfold bind at 1.
    pose proof (make_constraints_entry_frame e s) as H.
    destruct (make_constraints_entry dim e s) as [[err|[]] s1];
      cbn [snd] in *.
    + exact H.
    + eapply constraints_replaced_trans; [exact H|apply IH].
Qed.

Lemma for_each_entries_result bcs : forall s,
  forallb entry_well_formed bcs = true ->
  fst (for_each bcs (make_constraints_entry dim) s) =
    if forallb entry_recognized bcs then inr tt else inl unrecognized_flag.
Proof.
  induction bcs as [|e bcs IH]; intros s Hwf; cbn [for_each forallb] in *.
  - reflexivity.
  - apply andb_prop in Hwf as [Hwf1 Hwf].
    unfold bind at 1.
    destruct (entry_recognized e) eqn:Hr; cbn [andb].
    + destruct (make_constraints_entry_run e s) as [(mv & _ & H)|(err & E & _)].
      * destruct (make_constraints_entry dim e s) as [[err|[]] s1];
          cbn [fst] in H; [discriminate|]. apply IH, Hwf.
      * destruct (component_flag_recognized dim (entry_flag e) (entry_value e))
          as [mv E']; [exact Hr|now apply Nat.leb_le|congruence].
    + destruct (make_constraints_entry_run e s) as [(mv & E & _)|(err & E & H)].
      * rewrite component_flag_unrecognized in E by exact Hr. discriminate.
      * rewrite component_flag_unrecognized in E by exact Hr.
        injection E as <-. rewrite H. reflexivity.
Qed.

Definition make_constraints_trace (s : Solver) : list Event :=
  trace s ++ [EvMakeConstraints].

(** [make_constraints] succeeds or fails by the flags alone; it writes
    the two constraint sets and nothing else, and leaves them closed
    exactly when it succeeds. *)
Lemma make_constraints_run s :
  all_well_formed (parameters s) = true ->
  exists nz z,
    make_constraints dim s =
      (if all_recognized (parameters s) then inr tt
       else inl unrecognized_flag,
       set_zero_constraints z
         (set_nonzero_constraints nz
            (set_trace (make_constraints_trace s) s))) /\
    closed nz = all_recognized (parameters s) /\
    closed z = all_recognized (parameters s).
Proof.
  intros Hwf. unfold make_constraints, make_constraints_trace.
  unfold bind at 1. cbn [log modify].
  unfold bind at 1. cbn [modify].
  unfold bind at 1. cbn [modify].
  unfold bind at 1. cbn [modify].
  unfold bind at 1. cbn [modify].
  unfold bind at 1. cbn [gets].
  set (s0 := set_zero_constraints _ _).
  assert (Hp : parameters s0 = parameters s) by reflexivity.
  cbn [parameters]. rewrite Hp. clear Hp.
  unfold bind at 1.
  pose proof (for_each_entries_frame (fluid_dirichlet_bcs (parameters s)) s0)
    as (nz & z & Hs & Hn & Hz).
  pose proof (for_each_entries_result (fluid_dirichlet_bcs (parameters s)) s0 Hwf)
    as Hr.
  destruct (for_each (fluid_dirichlet_bcs (parameters s))
                     (make_constraints_entry dim) s0) as [[err|[]] s1];
    cbn in Hs, Hr; subst s1; fold (all_recognized (parameters s)) in Hr.
  - destruct (all_recognized (parameters s)); [discriminate|].
    injection Hr as ->.
    exists nz, z. split; [reflexivity|]. cbn in Hn, Hz. split; assumption.
  - destruct (all_recognized (parameters s)); [|discriminate].
    exists (cm_close nz), (cm_close z). split; [reflexivity|].
    split; reflexivity.
Qed.

(** The loop over the Dirichlet entries, on the lines of the two sets:
    each entry in turn interpolates its boundary values under its mask,
    into the nonzero set the hard-coded or the configured values and
    into the zero set zeros; the loop stops at the first entry whose
    flag is not recognised, with the lines as they are then. *)
Fixpoint boundary_lines (dh : DoFHandler) (hard_coded : bool)
    (bcs : list (nat * (nat * list double))) (nz z : ConstraintLines)
  : (Exc + unit) * (ConstraintLines * ConstraintLines) :=
  match bcs with
  | [] => (inr tt, (nz, z))
  | entry :: bcs' =>
      match component_flag dim (fst (snd entry)) (snd (snd entry)) with
      | inl e => (inl e, (nz, z))
      | inr (mask, augmented_value) =>
          boundary_lines dh hard_coded bcs'
            (interpolate_boundary_values dh (fst entry)
               (if hard_coded then BoundaryValues
                else ConstantFunction augmented_value) nz mask)
            (interpolate_boundary_values dh (fst entry)
               (ZeroFunction (dim_nat dim + 1)) z mask)
      end
  end.

(** The two constraint sets [make_constraints] builds, by the DoF
    handler and the configuration alone: on cleared sets the
    hanging-node constraints, then the boundary values of the entries,
    and the sets closed when the loop has run to its end. *)
Definition constraints_of (dh : DoFHandler) (p : AllParameters)
  : (Exc + unit) * (ConstraintMatrix * ConstraintMatrix) :=
  let hanging := make_hanging_node_constraints dh cl_clear in
  match boundary_lines dh (use_hard_coded_values p =? 1)
                       (fluid_dirichlet_bcs p) hanging hanging with
  | (inr _, (nz, z)) =>
      (inr tt, (mkConstraintMatrix (cl_close nz) true,
                mkConstraintMatrix (cl_close z) true))
  | (inl e, (nz, z)) =>
      (inl e, (mkConstraintMatrix nz false, mkConstraintMatrix z false))
  end.

Lemma for_each_entries_built bcs : forall s,
  for_each bcs (make_constraints_entry dim) s =
    (let r := boundary_lines (dof_handler s)
                (use_hard_coded_values (parameters s) =? 1) bcs
                (lines (nonzero_constraints s)) (lines (zero_constraints s)) in
     (fst r,
      set_zero_constraints
        (mkConstraintMatrix (snd (snd r)) (closed (zero_constraints s)))
        (set_nonzero_constraints
           (mkConstraintMatrix (fst (snd r)) (closed (nonzero_constraints s)))
           s))).
Proof.
  induction bcs as [|e bcs IH]; intros s; cbn [for_each boundary_lines].
  - cbv zeta. cbn [fst snd].
    destruct s as [? ? ? ? [? ?] [? ?] ? ? ? ? ? ? ? ? ? ? ? ?].
    reflexivity.
  - unfold make_constraints_entry at 1.
    destruct (component_flag dim (fst (snd e)) (snd (snd e)))
      as [err|[mask augmented_value]].
    + mrun. cbv zeta. cbn [fst snd].
      destruct s as [? ? ? ? [? ?] [? ?] ? ? ? ? ? ? ? ? ? ? ? ?].
      reflexivity.
    + mrun. rewrite IH. cbv zeta. members. unfold on_lines.
      cbn [lines closed]. reflexivity.
Qed.

(** [make_constraints] in full: it logs itself and replaces the two
    constraint sets by those of the DoF handler and the configuration,
    whatever they held; its result is that of the loop over the
    entries. *)
Lemma make_constraints_built s :
  make_constraints dim s =
    (let r := constraints_of (dof_handler s) (parameters s) in
     (fst r,
      set_zero_constraints (snd (snd r))
        (set_nonzero_constraints (fst (snd r))
           (set_trace (trace s ++ [EvMakeConstraints]) s)))).
Proof.
  unfold make_constraints. mrun.
  match goal with
  | |- context [bind (for_each ?l ?f) ?k ?st] =>
      pose proof (for_each_entries_built l st) as H
  end.
  cbv zeta in H. members_in H. unfold on_lines, cm_clear in H.
  cbn [lines closed] in H. unfold constraints_of. cbv zeta.
  destruct (boundary_lines _ _ _ _ _) as [[e|[]] [nz z]]; cbn [fst snd] in *.
  - rewrite (run_bind_fails _ _ _ H). reflexivity.
  - rewrite (run_bind_is _ _ _ H). mrun. unfold cm_close. reflexivity.
Qed.

Lemma boundary_lines_result dh hard_coded bcs : forall nz z,
  forallb entry_well_formed bcs = true ->
  fst (boundary_lines dh hard_coded bcs nz z) =
    if forallb entry_recognized bcs then inr tt else inl unrecognized_flag.
Proof.
  induction bcs as [|e bcs IH]; intros nz z Hwf;
    cbn [boundary_lines forallb] in *.
  - reflexivity.
  - apply andb_prop in Hwf as [Hwf1 Hwf].
    destruct (entry_recognized e) eqn:Hr; cbn [andb].
    + destruct (component_flag_recognized dim (entry_flag e) (entry_value e))
        as [[mask augmented_value] E];
        [exact Hr|now apply Nat.leb_le|].
      unfold entry_flag, entry_value in E. rewrite E. apply IH, Hwf.
    + pose proof (component_flag_unrecognized dim (entry_flag e)
                    (entry_value e) Hr) as E.
      unfold entry_flag, entry_value in E. rewrite E. reflexivity.
Qed.

Lemma constraints_of_recognized dh p :
  all_well_formed p = true ->
  all_recognized p = true ->
  fst (constraints_of dh p) = inr tt /\
  closed (fst (snd (constraints_of dh p))) = true /\
  closed (snd (snd (constraints_of dh p))) = true.
Proof.
  intros Hwf Hrec. unfold constraints_of. cbv zeta.
  pose proof (boundary_lines_result dh (use_hard_coded_values p =? 1)
                (fluid_dirichlet_bcs p)
                (make_hanging_node_constraints dh cl_clear)
                (make_hanging_node_constraints dh cl_clear) Hwf) as H.
  fold (all_recognized p) in H. rewrite Hrec in H.
  destruct (boundary_lines _ _ _ _ _) as [[e|[]] [nz z]]; cbn [fst] in H;
    [discriminate|].
  repeat split.
Qed.

End MC.

(** ** Assembly of the single-process solver *)

Module IMEXFacts.
Section S.
Context {C : Collaborators}.
Variable dim : Dim.

(** The right-hand side one cell adds when only the right-hand side is
    assembled. *)
Definition rhs_only_step (use_nonzero_constraints : bool) (s : Solver)
    (b : BlockVector Vec) (cell : nat) : BlockVector Vec :=
  distribute_local_to_global_rhs
    (lines (constraints_used use_nonzero_constraints s))
    (imex_cell_rhs (parameters s) (dof_handler s) cell (present_solution s)
                   (nth cell (cell_property s) []))
    (get_dof_indices (dof_handler s) cell) b.

(** What one cell adds to the system matrix, the right-hand side and the
    mass matrix when the matrices are assembled too. *)
Definition full_step (use_nonzero_constraints : bool) (s : Solver)
    (acc : BlockMatrix SparseMatrix * BlockVector Vec * BlockMatrix SparseMatrix)
    (cell : nat)
  : BlockMatrix SparseMatrix * BlockVector Vec * BlockMatrix SparseMatrix :=
  let used := lines (constraints_used use_nonzero_constraints s) in
  let idx := get_dof_indices (dof_handler s) cell in
  let r := distribute_local_to_global used
             (imex_cell_matrix (parameters s) (delta_t (time s))
                               (dof_handler s) cell (fm_zero (dof_handler s)))
             (imex_cell_rhs (parameters s) (dof_handler s) cell
                            (present_solution s)
                            (nth cell (cell_property s) []))
             idx (fst (fst acc)) (snd (fst acc)) in
  (fst r, snd r,
   distribute_local_to_global_matrix used
     (cell_mass_matrix (dof_handler s) cell (fm_zero (dof_handler s)))
     idx (snd acc)).

Lemma assemble_cells_rhs_only nz cells : forall s b lm lmm,
  InsIMEX.assemble_cells nz false cells lm lmm (set_system_rhs b s) =
  (inr tt, set_system_rhs (fold_left (rhs_only_step nz s) cells b) s).
Proof.
  induction cells as [|cell rest IH]; intros s b lm lmm.
  - reflexivity.
  - cbn [InsIMEX.assemble_cells fold_left]. msimpl.
    exact (IH s _ _ _).
Qed.

Lemma imex_assemble_cells_full nz cells : forall s a b m lm lmm,
  InsIMEX.assemble_cells nz true cells lm lmm
    (set_mass_matrix m (set_system_rhs b (set_system_matrix a s))) =
  (inr tt,
   let r := fold_left (full_step nz s) cells (a, b, m) in
   set_mass_matrix (snd r)
     (set_system_rhs (snd (fst r)) (set_system_matrix (fst (fst r)) s))).
Proof.
  induction cells as [|cell rest IH]; intros s a b m lm lmm.
  - reflexivity.
  - cbn [InsIMEX.assemble_cells fold_left]. msimpl. msimpl_in IH.
    rewrite IH. reflexivity.
Qed.

Definition all_cells (s : Solver) : list nat :=
  seq 0 (n_active_cells (triangulation s)).

(** [assemble] with the rebuild suppressed writes [system_rhs] and
    nothing else. *)
Lemma assemble_rhs_only nz s :
  InsIMEX.assemble nz false s =
  (inr tt,
   set_system_rhs
     (fold_left (rhs_only_step nz s) (all_cells s)
                (block_vec_fill d_zero (system_rhs s))) s).
Proof.
  unfold InsIMEX.assemble, all_cells. msimpl.
  pose proof (assemble_cells_rhs_only nz
                (seq 0 (n_active_cells (triangulation s))) s
                (block_vec_fill d_zero (system_rhs s))) as H.
  msimpl_in H. rewrite H. reflexivity.
Qed.

Lemma assemble_full nz s :
  InsIMEX.assemble nz true s =
  (inr tt,
   let r := fold_left (full_step nz s) (all_cells s)
              (block_matrix_set_zero (system_matrix s),
               block_vec_fill d_zero (system_rhs s),
               block_matrix_set_zero (mass_matrix s)) in
   set_mass_matrix (snd r)
     (set_system_rhs (snd (fst r)) (set_system_matrix (fst (fst r)) s))).
Proof.
  unfold InsIMEX.assemble, all_cells. msimpl.
  pose proof (imex_assemble_cells_full nz
                (seq 0 (n_active_cells (triangulation s))) s
                (block_matrix_set_zero (system_matrix s))
                (block_vec_fill d_zero (system_rhs s))
                (block_matrix_set_zero (mass_matrix s))) as H.
  msimpl_in H. rewrite H. reflexivity.
Qed.

(** The Schur surrogate the constructor computes. *)
Definition schur_surrogate (s : Solver) : SparseMatrix :=
  sp_mmult (block10 (system_matrix s)) (mass_schur s)
           (block01 (system_matrix s))
           (precondition_Jacobi
              (block00 (mass_matrix s))
              (vec_fill d_one (vec_reinit (sp_m (block00 (mass_matrix s))))))
           false.

Definition preconditioner_of (s : Solver) : BlockSchurPreconditioner :=
  mkBlockSchurPreconditioner (grad_div (parameters s)) (viscosity (parameters s))
                             (fluid_rho (parameters s)) (delta_t (time s)).

Lemma imex_constructor_run g v r d s :
  InsIMEX.BlockSchurPreconditioner_new g v r d s =
  (inr (mkBlockSchurPreconditioner g v r d),
   set_mass_schur (schur_surrogate s)
                  (set_trace (trace s ++ [EvSchurBuild]) s)).
Proof. reflexivity. Qed.

(** The solver's state once [solve] has the preconditioner it will
    use: rebuilt when [assemble_system] holds, else the one at hand. *)
Definition ready (assemble_system : bool) (s : Solver) : Solver :=
  if assemble_system
  then set_preconditioner (Some (preconditioner_of s))
         (set_mass_schur (schur_surrogate s)
                         (set_trace (trace s ++ [EvSchurBuild]) s))
  else s.

(** The outer Krylov solve [solve] performs on a ready state. *)
Definition krylov (P : BlockSchurPreconditioner) (s : Solver)
  : Exc + SolveResult (BlockVector Vec) :=
  solver_fgmres (InsIMEX.outer_solver_control s) (system_matrix s)
                (increment s) (system_rhs s)
                (InsIMEX.vmult P (system_matrix s) (mass_matrix s)
                               (mass_schur s)).

Definition solved (nz : bool) (x : BlockVector Vec) (s : Solver) : Solver :=
  set_increment (cl_distribute (lines (constraints_used nz s)) x)
    (set_trace (trace s ++ [EvDistribute nz OnIncrement]) s).

Lemma imex_solve_run nz asm s :
  InsIMEX.solve nz asm s =
  let s1 := ready asm s in
  match preconditioner s1 with
  | None =>
      (inl (ExcUndefined "*preconditioner on an empty pointer"), s1)
  | Some P =>
      match krylov P s1 with
      | inl e => (inl e, s1)
      | inr r =>
          match final_state r with
          | failure =>
              (inl (NoConvergence (last_step r) (last_value r)), s1)
          | success =>
              (inr (last_step r, last_value r), solved nz (solution r) s1)
          end
      end
  end.
Proof.
  unfold InsIMEX.solve, InsIMEX.deref_preconditioner, krylov, solved, ready,
    InsIMEX.BlockSchurPreconditioner_new, schur_surrogate, preconditioner_of,
    InsIMEX.outer_solver_control.
  destruct asm; mrun.
  - unfold converged_or_throw.
    destruct (solver_fgmres _ _ _ _ _) as [e|r]; mrun; [reflexivity|].
    destruct (final_state r); mrun; reflexivity.
  - destruct (preconditioner s) as [P|] eqn:HP; mrun; [|reflexivity].
    unfold converged_or_throw.
    destruct (solver_fgmres _ _ _ _ _) as [e|r]; mrun; [reflexivity|].
    destruct (final_state r); mrun; reflexivity.
Qed.

End S.
End IMEXFacts.

(** ** Assembly and solve of the distributed solver *)

Module NewtonFacts.
Section S.
Context {C : Collaborators}.
Variable dim : Dim.

Definition all_cells (s : Solver) : list nat :=
  seq 0 (n_active_cells (triangulation s)).

(** What one cell adds to the system matrix, the right-hand side and the
    mass matrix. *)
Definition full_step (use_nonzero_constraints : bool) (s : Solver)
    (acc : BlockMatrix SparseMatrix * BlockVector Vec * BlockMatrix SparseMatrix)
    (cell : nat)
  : BlockMatrix SparseMatrix * BlockVector Vec * BlockMatrix SparseMatrix :=
  let used := lines (constraints_used use_nonzero_constraints s) in
  let idx := get_dof_indices (dof_handler s) cell in
  let r := distribute_local_to_global used
             (newton_cell_matrix (parameters s) (delta_t (time s))
                                 (dof_handler s) cell (evaluation_point s)
                                 (fm_zero (dof_handler s)))
             (newton_cell_rhs (parameters s) (delta_t (time s))
                              (dof_handler s) cell (evaluation_point s)
                              (present_solution s)
                              (nth cell (cell_property s) []))
             idx (fst (fst acc)) (snd (fst acc)) in
  (fst r, snd r,
   distribute_local_to_global_matrix used
     (cell_mass_matrix (dof_handler s) cell (fm_zero (dof_handler s)))
     idx (snd acc)).

Lemma newton_assemble_cells_full nz cells : forall s,
  ParallelNavierStokes.assemble_cells nz cells s =
  (inr tt,
   let r := fold_left (full_step nz s) cells
              (system_matrix s, system_rhs s, mass_matrix s) in
   set_mass_matrix (snd r)
     (set_system_rhs (snd (fst r)) (set_system_matrix (fst (fst r)) s))).
Proof.
  induction cells as [|cell rest IH]; intros s.
  - cbn [ParallelNavierStokes.assemble_cells fold_left]. mrun.
    destruct s; reflexivity.
  - cbn [ParallelNavierStokes.assemble_cells fold_left]. mrun.
    rewrite IH. reflexivity.
Qed.

(** The three members [assemble] leaves. *)
Definition assembled_parts (nz : bool) (s : Solver)
  : BlockMatrix SparseMatrix * BlockVector Vec * BlockMatrix SparseMatrix :=
  fold_left (full_step nz s) (all_cells s)
            (block_matrix_set_zero (system_matrix s),
             block_vec_fill d_zero (system_rhs s),
             block_matrix_set_zero (mass_matrix s)).

Definition assembled (nz : bool) (s : Solver) : Solver :=
  let r := assembled_parts nz s in
  set_mass_matrix (snd r)
    (set_system_rhs (snd (fst r)) (set_system_matrix (fst (fst r)) s)).

Lemma assemble_run nz s :
  ParallelNavierStokes.assemble nz s = (inr tt, assembled nz s).
Proof.
  unfold ParallelNavierStokes.assemble, assembled, assembled_parts, all_cells.
  mrun. rewrite newton_assemble_cells_full. reflexivity.
Qed.

(** The Schur surrogate the constructor computes. *)
Definition schur_surrogate (s : Solver) : SparseMatrix :=
  sp_mmult_petsc (block10 (system_matrix s)) (mass_schur s)
                 (block01 (system_matrix s))
                 (precondition_Jacobi
                    (block00 (mass_matrix s))
                    (vec_fill d_one (vec_reinit (fst (dofs_per_block s))))).

Definition preconditioner_of (s : Solver) : BlockSchurPreconditioner :=
  mkBlockSchurPreconditioner (grad_div (parameters s)) (viscosity (parameters s))
                             (fluid_rho (parameters s)) (delta_t (time s)).

Lemma newton_constructor_run g v r d s :
  ParallelNavierStokes.BlockSchurPreconditioner_new g v r d s =
  (inr (mkBlockSchurPreconditioner g v r d),
   set_mass_schur (schur_surrogate s)
                  (set_trace (trace s ++ [EvSchurBuild]) s)).
Proof. reflexivity. Qed.

(** The solver's state once [solve] has built its preconditioner. *)
Definition ready (s : Solver) : Solver :=
  set_preconditioner (Some (preconditioner_of s))
    (set_mass_schur (schur_surrogate s)
                    (set_trace (trace s ++ [EvSchurBuild]) s)).

Definition krylov (s : Solver) : Exc + SolveResult (BlockVector Vec) :=
  solver_fgmres (ParallelNavierStokes.outer_solver_control s)
                (system_matrix s) (increment s) (system_rhs s)
                (ParallelNavierStokes.vmult
                   (preconditioner_of s) (system_matrix s) (mass_matrix s)
                   (schur_surrogate s)).

Definition solved (nz : bool) (x : BlockVector Vec) (s : Solver) : Solver :=
  set_increment (cl_distribute (lines (constraints_used nz s)) x)
    (set_trace (trace s ++ [EvSchurBuild; EvDistribute nz OnIncrement])
               (ready s)).

Lemma newton_solve_run nz s :
  ParallelNavierStokes.solve nz s =
  match krylov s with
  | inl e => (inl e, ready s)
  | inr r =>
      match final_state r with
      | failure => (inl (NoConvergence (last_step r) (last_value r)), ready s)
      | success => (inr (last_step r, last_value r), solved nz (solution r) s)
      end
  end.
Proof.
  unfold ParallelNavierStokes.solve, krylov, solved, ready,
    ParallelNavierStokes.BlockSchurPreconditioner_new, schur_surrogate,
    preconditioner_of, ParallelNavierStokes.outer_solver_control.
  mrun. unfold converged_or_throw.
  destruct (solver_fgmres _ _ _ _ _) as [e|r]; mrun; [reflexivity|].
  destruct (final_state r); mrun; [|reflexivity].
  rewrite <- app_assoc. reflexivity.
Qed.

End S.
End NewtonFacts.

(** ** One application of the block preconditioner *)

Section Vmult.
Context {C : Collaborators}.

(** The five steps of one application, as the specification lists
    them.  The two variants differ in the incomplete factorisation
    [factorise] that preconditions the pressure solves, in the zero
    vector [guess] the first solve starts from, and in the velocity
    solve [solve_A], which is given the matrix, the velocity block of
    [dst] as the guess, [v0] and the right-hand side. *)
Definition vmult_steps
    (factorise : SparseMatrix -> Exc + Preconditioner)
    (guess : Vec -> Vec)
    (solve_A : SparseMatrix -> Vec -> Vec -> Vec -> Exc + Vec)
    (P : BlockSchurPreconditioner)
    (system mass : BlockMatrix SparseMatrix) (schur : SparseMatrix)
    (dst v : BlockVector Vec) : Exc + BlockVector Vec :=
  let v0 := vblock0 v in
  let v1 := vblock1 v in
  let control :=
    mkSolverControl (vec_size v1)
                    (cg_relative_tolerance * vec_l2_norm v1)%float false in
  (* 1: M_p against v1, scaled by -(viscosity + gamma rho) *)
  ilu_Mp <-! factorise (block11 mass) ;;
  x1 <-! converged_or_throw
           (solver_cg control (block11 mass) (guess v1) v1 ilu_Mp) ;;
  let u1' := vec_scale (- (p_viscosity P + p_gamma P * p_rho P))%float x1 in
  (* 2: S_m against v1, scaled by -rho / dt *)
  ilu_Sm <-! factorise schur ;;
  x2 <-! converged_or_throw
           (solver_cg control schur (vblock1 dst) v1 ilu_Sm) ;;
  let u1'' := vec_scale (- p_rho P / p_dt P)%float x2 in
  (* 3: the sum of the two pressure contributions *)
  let u1 := vec_add u1'' u1' in
  (* 4: utmp = v0 - B^T u1 *)
  let utmp :=
    vec_add (vec_scale d_minus_one (sp_vmult (block01 system) u1)) v0 in
  (* 5: A against utmp *)
  u0 <-! solve_A (block00 system) (vblock0 dst) v0 utmp ;;
  inr (mkBlockVector u0 u1).

(** The velocity solve of the single-process variant: conjugate
    gradients under the identity preconditioner. *)
Definition velocity_cg (A : SparseMatrix) (guess v0 utmp : Vec)
  : Exc + Vec :=
  converged_or_throw
    (solver_cg (mkSolverControl (vec_size v0)
                  (cg_relative_tolerance * vec_l2_norm v0)%float false)
               A guess utmp (identity_initialize A)).

(** The velocity solve of the distributed variant: the sparse direct
    solver. *)
Definition velocity_direct (A : SparseMatrix) (guess v0 utmp : Vec)
  : Exc + Vec :=
  solver_mumps A guess utmp.

Lemma imex_vmult_steps P system mass schur dst src :
  InsIMEX.vmult P system mass schur dst src =
  vmult_steps ilu_initialize
    (fun v1 => vec_fill d_zero (vec_reinit (vec_size v1)))
    velocity_cg P system mass schur dst src.
Proof.
  unfold InsIMEX.vmult, InsIMEX.vmult_body, vmult_steps, velocity_cg, ebind.
  destruct (ilu_initialize (block11 mass)) as [e|pc1]; [reflexivity|]. mrun.
  destruct (converged_or_throw (solver_cg _ (block11 mass) _ _ pc1))
    as [e|x1]; [reflexivity|]. mrun.
  destruct (ilu_initialize schur) as [e|pc2]; [reflexivity|]. mrun.
  cbn [InsIMEX.f_dst InsIMEX.set_tmp vblock1].
  destruct (converged_or_throw (solver_cg _ schur _ _ pc2))
    as [e|x2]; [reflexivity|]. mrun.
  cbn [InsIMEX.f_dst InsIMEX.f_tmp InsIMEX.f_utmp InsIMEX.set_tmp
       InsIMEX.set_dst1 InsIMEX.set_utmp vblock0 vblock1].
  destruct (converged_or_throw (solver_cg _ (block00 system) _ _ _))
    as [e|x0]; [reflexivity|]. mrun.
  reflexivity.
Qed.

Lemma newton_vmult_steps P system mass schur dst src :
  ParallelNavierStokes.vmult P system mass schur dst src =
  vmult_steps block_jacobi_initialize (vec_fill d_zero)
    velocity_direct P system mass schur dst src.
Proof.
  unfold ParallelNavierStokes.vmult, ParallelNavierStokes.vmult_body,
    vmult_steps, velocity_direct, ebind. mrun.
  destruct (block_jacobi_initialize (block11 mass)) as [e|pc1];
    [reflexivity|]. mrun.
  cbn [ParallelNavierStokes.f_tmp ParallelNavierStokes.set_tmp].
  destruct (converged_or_throw (solver_cg _ (block11 mass) _ _ pc1))
    as [e|x1]; [reflexivity|]. mrun.
  destruct (block_jacobi_initialize schur) as [e|pc2]; [reflexivity|]. mrun.
  cbn [ParallelNavierStokes.f_dst ParallelNavierStokes.set_tmp vblock1].
  destruct (converged_or_throw (solver_cg _ schur _ _ pc2))
    as [e|x2]; [reflexivity|]. mrun.
  cbn [ParallelNavierStokes.f_dst ParallelNavierStokes.f_tmp
       ParallelNavierStokes.f_utmp ParallelNavierStokes.set_tmp
       ParallelNavierStokes.set_dst1 ParallelNavierStokes.set_utmp
       vblock0 vblock1].
  destruct (solver_mumps _ _ _) as [e|x0]; [reflexivity|]. mrun.
  reflexivity.
Qed.

End Vmult.

(** ** The triangulation under flagging and execution *)











(** Every active cell lies below the number of levels. *)
Lemma active_below_n_levels c : forall level,
  Forall (fun a => ac_level a < n_levels_from level c)
         (active_cells_from level c).
Proof.
  induction c as [r co|cs IH] using Cell_nested_ind; intros level.
  - cbn. constructor; [cbn; lia|constructor].
  - cbn [active_cells_from n_levels_from].
    induction IH as [|c cs Hc _ IHcs]; [constructor|].
    cbn [flat_map fold_right]. apply Forall_app. split.
    + eapply Forall_impl; [|apply Hc]. cbn. intros a Ha. lia.
    + eapply Forall_impl; [|apply IHcs]. cbn. intros a Ha. lia.
Qed.

Lemma active_below_n_levels_all t :
  Forall (fun a => ac_level a < n_levels t) (active_cells t).
Proof.
  unfold active_cells, n_levels.
  induction t as [|c t IH]; [constructor|].
  cbn [flat_map fold_right]. apply Forall_app. split.
  - eapply Forall_impl; [|apply active_below_n_levels]. cbn. intros a Ha. lia.
  - eapply Forall_impl; [|apply IH]. cbn. intros a Ha. lia.
Qed.












(** ** Refinement *)

Section Refinement.
Context {C : Collaborators}.
Variable dim : Dim.

Lemma make_constraints_frame s :
  exists r nz z,
    make_constraints dim s =
      (r, set_zero_constraints z
            (set_nonzero_constraints nz
               (set_trace (make_constraints_trace s) s))).
Proof.
  unfold make_constraints, make_constraints_trace. mrun.
  match goal with
  | |- context [bind (for_each ?l ?f) ?k ?st] =>
      pose proof (for_each_entries_frame dim l st) as (nz & z & Hs & _ & _);
      destruct (for_each l f st) as [[e|[]] s1] eqn:E
  end; cbn [snd] in Hs; subst s1.
  - rewrite (run_bind_fails _ _ _ E). exists (inl e), nz, z. reflexivity.
  - rewrite (run_bind_is _ _ _ E). mrun.
    exists (inr tt), (cm_close nz), (cm_close z). reflexivity.
Qed.

(** The triangulation [refine_mesh] hands to the library, by the order
    [q] of the face quadrature of the error estimator: flagged by the
    fixed-fraction rule, the two level loops applied, and the flags as
    the library has smoothed them. *)
Definition flagged (q lo hi : nat) (s : Solver) : Triangulation :=
  clear_coarsen_flags lo
    (clear_refine_flags hi
       (set_flags (triangulation s)
          (refine_and_coarsen_fixed_fraction
             (triangulation s)
             (kelly_estimate (dof_handler s) q (present_solution s))
             refine_fraction coarsen_fraction))).

Definition prepared (q lo hi : nat) (s : Solver) : Triangulation :=
  set_flags (flagged q lo hi s)
            (prepare_coarsening_and_refinement (flagged q lo hi s)).

Definition refined (q lo hi : nat) (s : Solver) : Triangulation :=
  execute_coarsening_and_refinement (dim_nat dim) (prepared q lo hi s).

(** The events of one [refine_mesh]. *)
Definition refinement_events : list Event :=
  [EvEstimate; EvFlag refine_fraction coarsen_fraction; EvSnapshot; EvExecute;
   EvSetupDofs; EvMakeConstraints; EvInitializeSystem; EvInterpolate;
   EvDistribute true OnPresentSolution].

Definition is_refinement_event (e : Event) : bool :=
  match e with
  | EvEstimate | EvFlag _ _ | EvSnapshot | EvExecute | EvSetupDofs
  | EvMakeConstraints | EvInitializeSystem | EvInterpolate
  | EvDistribute true OnPresentSolution => true
  | _ => false
  end.

Lemma imex_refine_mesh_frame lo hi s :
  let r := InsIMEX.refine_mesh dim lo hi s in
  triangulation (snd r) =
    refined (fluid_degree (parameters s) + 1) lo hi s /\
  time (snd r) = time s /\
  parameters (snd r) = parameters s /\
  exists evs, trace (snd r) = trace s ++ evs /\
              forallb is_refinement_event evs = true.
Proof.
  unfold InsIMEX.refine_mesh, setup_dofs, InsIMEX.initialize_system,
    setup_cell_property. mrun.
  match goal with
  | |- context [bind (make_constraints dim) ?k ?st] =>
      destruct (make_constraints_frame st) as (r & nz & z & H)
  end.
  unfold make_constraints_trace in H. members_in H.
  destruct r as [e|[]].
  - rewrite (run_bind_fails _ _ _ H). members.
    repeat split. rewrite <- !app_assoc. eexists. split; reflexivity.
  - rewrite (run_bind_is _ _ _ H). mrun.
    repeat split. rewrite <- !app_assoc. eexists. split; reflexivity.
Qed.

Lemma newton_refine_mesh_frame lo hi s :
  let r := ParallelNavierStokes.refine_mesh dim lo hi s in
  triangulation (snd r) =
    refined (fluid_degree (parameters s) + 2) lo hi s /\
  time (snd r) = time s /\
  parameters (snd r) = parameters s /\
  exists evs, trace (snd r) = trace s ++ evs /\
              forallb is_refinement_event evs = true.
Proof.
  unfold ParallelNavierStokes.refine_mesh, setup_dofs,
    ParallelNavierStokes.initialize_system, setup_cell_property. mrun.
  match goal with
  | |- context [bind (make_constraints dim) ?k ?st] =>
      destruct (make_constraints_frame st) as (r & nz & z & H)
  end.
  unfold make_constraints_trace in H. members_in H.
  destruct r as [e|[]].
  - rewrite (run_bind_fails _ _ _ H). members.
    repeat split. rewrite <- !app_assoc. eexists. split; reflexivity.
  - rewrite (run_bind_is _ _ _ H). mrun.
    repeat split. rewrite <- !app_assoc. eexists. split; reflexivity.
Qed.


(** What [setup_dofs], [make_constraints] and [initialize_system] leave
    when they have run in this order on a triangulation: every member
    the discretisation determines is built afresh from it.  The two
    constraint sets are those [make_constraints] builds from cleared
    sets on the new DoF handler, and nothing of what they held. *)
Definition rebuilt (s : Solver) : Prop :=
  dof_handler s =
    distribute_dofs (dim_nat dim) (fluid_degree (parameters s))
                    (triangulation s) /\
  dofs_per_block s = count_dofs_per_block (dof_handler s) /\
  closed (nonzero_constraints s) = true /\
  closed (zero_constraints s) = true /\
  sparsity_pattern s =
    make_sparsity_pattern (dof_handler s) (dofs_per_block s)
                          (lines (nonzero_constraints s)) /\
  system_matrix s = block_matrix_reinit (sparsity_pattern s) /\
  mass_matrix s = block_matrix_reinit (sparsity_pattern s) /\
  mass_schur s =
    sp_reinit (compute_mmult_pattern (block10 (sparsity_pattern s))
                                     (block01 (sparsity_pattern s))) /\
  increment s = block_vec_reinit (dofs_per_block s) /\
  system_rhs s = block_vec_reinit (dofs_per_block s) /\
  preconditioner s = None /\
  cell_property s =
    repeat (repeat (zero_cell_property dim) (n_q_points dim (parameters s)))
           (n_active_cells (triangulation s)) /\
  nonzero_constraints s =
    fst (snd (constraints_of dim (dof_handler s) (parameters s))) /\
  zero_constraints s =
    snd (snd (constraints_of dim (dof_handler s) (parameters s))).

Lemma imex_refine_mesh_run lo hi s :
  all_well_formed (parameters s) = true ->
  all_recognized (parameters s) = true ->
  let r := InsIMEX.refine_mesh dim lo hi s in
  let q := fluid_degree (parameters s) + 1 in
  fst r = inr tt /\
  trace (snd r) = trace s ++ refinement_events /\
  triangulation (snd r) = refined q lo hi s /\
  rebuilt (snd r) /\
  present_solution (snd r) =
    cl_distribute
      (lines (nonzero_constraints (snd r)))
      (solution_transfer_interpolate
         (dof_handler s) (prepared q lo hi s) (dof_handler (snd r))
         (present_solution s) (block_vec_reinit (dofs_per_block (snd r)))).
Proof.
  intros Hwf Hrec.
  unfold InsIMEX.refine_mesh, setup_dofs, InsIMEX.initialize_system,
    setup_cell_property. mrun.
  match goal with
  | |- context [bind (make_constraints dim) ?k ?st] =>
      pose proof (make_constraints_built dim st) as H;
      destruct (@constraints_of_recognized _ dim (dof_handler st)
                  (parameters st) Hwf Hrec)
        as (Hok & Hnz & Hz)
  end.
  cbv zeta in H. members_in H. members_in Hok. members_in Hnz. members_in Hz.
  rewrite Hok in H.
  rewrite (run_bind_is _ _ _ H). mrun.
  split; [reflexivity|]. split; [rewrite <- !app_assoc; reflexivity|].
  split; [reflexivity|]. split; [|reflexivity].
  unfold rebuilt. members. repeat split; assumption.
Qed.

Lemma newton_refine_mesh_run lo hi s :
  all_well_formed (parameters s) = true ->
  all_recognized (parameters s) = true ->
  let r := ParallelNavierStokes.refine_mesh dim lo hi s in
  let q := fluid_degree (parameters s) + 2 in
  fst r = inr tt /\
  trace (snd r) = trace s ++ refinement_events /\
  triangulation (snd r) = refined q lo hi s /\
  rebuilt (snd r) /\
  evaluation_point (snd r) = block_vec_reinit (dofs_per_block (snd r)) /\
  present_solution (snd r) =
    cl_distribute
      (lines (nonzero_constraints (snd r)))
      (solution_transfer_interpolate
         (dof_handler s) (prepared q lo hi s) (dof_handler (snd r))
         (present_solution s)
         (block_vec_fill d_zero (block_vec_reinit (dofs_per_block (snd r))))).
Proof.
  intros Hwf Hrec.
  unfold ParallelNavierStokes.refine_mesh, setup_dofs,
    ParallelNavierStokes.initialize_system, setup_cell_property. mrun.
  match goal with
  | |- context [bind (make_constraints dim) ?k ?st] =>
      pose proof (make_constraints_built dim st) as H;
      destruct (@constraints_of_recognized _ dim (dof_handler st)
                  (parameters st) Hwf Hrec)
        as (Hok & Hnz & Hz)
  end.
  cbv zeta in H. members_in H. members_in Hok. members_in Hnz. members_in Hz.
  rewrite Hok in H.
  rewrite (run_bind_is _ _ _ H). mrun.
  split; [reflexivity|]. split; [rewrite <- !app_assoc; reflexivity|].
  split; [reflexivity|]. split; [|split; reflexivity].
  unfold rebuilt. members. repeat split; assumption.
Qed.

End Refinement.

(** ** The Newton loop *)

(** The residual lines of a trace: iteration, absolute and relative
    residual. *)
Definition residuals (evs : list Event) : list (nat * double * double) :=
  flat_map (fun e => match e with
                     | EvResidual k c r => [(k, c, r)]
                     | _ => []
                     end) evs.

Lemma residuals_app a b : residuals (a ++ b) = residuals a ++ residuals b.
Proof. unfold residuals. apply flat_map_app. Qed.

Section Newton.
Import NewtonFacts.
Import ParallelNavierStokes.
Context {C : Collaborators}.
Variable dim : Dim.

(** The events of the outer iteration [k] of time step [n], when
    [run_one_step] was called with [apply]: assembly and solve carry
    the step, the iteration and the constraint choice
    [apply && (k == 0)], and the residual line carries [k]. *)
Definition iteration_event_ok (n : nat) (apply : bool) (k : nat) (e : Event)
  : bool :=
  match e with
  | EvAssemble n' k' nz asm | EvSolve n' k' nz asm =>
      (n' =? n) && (k' =? k) && Bool.eqb nz (apply && (k =? 0)) && asm
  | EvResidual k' _ _ => k' =? k
  | EvSchurBuild => true
  | EvDistribute _ OnIncrement => true
  | EvDistribute true OnEvaluationPoint => true
  | _ => false
  end.

Lemma newton_iteration_run apply l s :
  let r := newton_iteration apply l s in
  let k := outer_iteration l in
  time (snd r) = time s /\
  parameters (snd r) = parameters s /\
  nonzero_constraints (snd r) = nonzero_constraints s /\
  triangulation (snd r) = triangulation s /\
  exists evs,
    trace (snd r) = trace s ++ evs /\
    forallb (iteration_event_ok (timestep (time s)) apply k) evs = true /\
    match fst r with
    | inr l' =>
        k < fluid_max_iterations (parameters s) /\
        outer_iteration l' = S k /\
        current_residual l' = block_l2_norm (system_rhs (snd r)) /\
        initial_residual l' =
          (if k =? 0 then current_residual l' else initial_residual l) /\
        relative_residual l' =
          (current_residual l' / initial_residual l')%float /\
        residuals evs = [(k, current_residual l', relative_residual l')] /\
        evaluation_point (snd r) =
          cl_distribute (lines (nonzero_constraints s))
                        (block_vec_add (evaluation_point s)
                                       (increment (snd r)))
    | inl e => residuals evs = []
    end.
Proof.
  unfold newton_iteration. mrun. unfold assert_throw.
  destruct (outer_iteration l <? fluid_max_iterations (parameters s)) eqn:Hk.
  2:{ mrun. repeat split. exists []. rewrite app_nil_r.
      repeat split. }
  apply Nat.ltb_lt in Hk. mrun.
  match goal with
  | |- context [bind (assemble ?nz) ?k ?st] =>
      rewrite (run_bind_is _ _ _ (assemble_run nz st))
  end.
  unfold assembled. mrun.
  match goal with
  | |- context [bind (solve ?nz) ?k ?st] =>
      pose proof (newton_solve_run nz st) as Hs
  end.
  destruct (krylov _) as [e|res] eqn:Ek.
  - rewrite (run_bind_fails _ _ _ Hs). unfold ready. members.
    repeat split. rewrite <- !app_assoc. eexists. split; [reflexivity|].
    split; [|reflexivity].
    cbn. rewrite !Nat.eqb_refl, eqb_reflx. reflexivity.
  - destruct (final_state res).
    + rewrite (run_bind_is _ _ _ Hs). unfold solved, ready. mrun.
      repeat split. rewrite <- !app_assoc. eexists. split; [reflexivity|].
      split; [cbn; rewrite !Nat.eqb_refl, eqb_reflx;
             destruct (apply && (outer_iteration l =? 0)); reflexivity|].
      repeat split. exact Hk.
    + rewrite (run_bind_fails _ _ _ Hs). unfold ready. members.
      repeat split. rewrite <- !app_assoc. eexists. split; [reflexivity|].
      split; [|reflexivity].
      cbn. rewrite !Nat.eqb_refl, eqb_reflx. reflexivity.
Qed.

(** [relative_residual > tolerance && current_residual > 1e-14] on the
    two residuals. *)
Definition continue_test (tol cur rel : double) : bool :=
  (tol <? rel)%float && (newton_absolute_floor <? cur)%float.

(** The residual lines [rs] of a loop that starts iteration [k] with
    the residuals [cur] and [rel]: the loop goes on exactly as long as
    the test holds at the residuals it has, each turn numbered in
    sequence and below [max_it], and stops at the first residuals at
    which the test fails. *)
Fixpoint stops_exactly (tol : double) (max_it k : nat) (cur rel : double)
    (rs : list (nat * double * double)) : bool :=
  match rs with
  | [] => negb (continue_test tol cur rel)
  | (k', c', r') :: rs' =>
      continue_test tol cur rel && (k' =? k) && (k <? max_it) &&
      stops_exactly tol max_it (S k) c' r' rs'
  end.

(** The events of time step [n] under [apply]. *)
Definition step_event_ok (n : nat) (apply : bool) (e : Event) : bool :=
  match e with
  | EvAssemble n' k nz asm | EvSolve n' k nz asm =>
      (n' =? n) && Bool.eqb nz (apply && (k =? 0)) && asm
  | _ => true
  end.

Lemma iteration_event_step n apply k e :
  iteration_event_ok n apply k e = true -> step_event_ok n apply e = true.
Proof.
  destruct e; cbn; intros H; try reflexivity;
    apply andb_prop in H as [H1 Ha]; apply andb_prop in H1 as [H2 Hz];
    apply andb_prop in H2 as [Hn Hk]; apply Nat.eqb_eq in Hk; subst;
    rewrite Hn, Hz; reflexivity.
Qed.

Lemma forallb_impl {A} (f g : A -> bool) l :
  (forall x, f x = true -> g x = true) ->
  forallb f l = true -> forallb g l = true.
Proof.
  intros H. rewrite !forallb_forall. intros Hf x Hx. apply H, Hf, Hx.
Qed.

Lemma newton_loop_run fuel : forall apply l s,
  let r := newton_loop fuel apply l s in
  let k := outer_iteration l in
  let max_it := fluid_max_iterations (parameters s) in
  time (snd r) = time s /\
  parameters (snd r) = parameters s /\
  triangulation (snd r) = triangulation s /\
  exists evs,
    trace (snd r) = trace s ++ evs /\
    forallb (step_event_ok (timestep (time s)) apply) evs = true /\
    match fst r with
    | inr true =>
        stops_exactly (fluid_tolerance (parameters s)) max_it k
                      (current_residual l) (relative_residual l)
                      (residuals evs) = true
    | inr false => ~ (k <= max_it /\ max_it < fuel + k)
    | inl _ => True
    end.
Proof.
  induction fuel as [|fuel IH]; intros apply l s; cbn [newton_loop]; mrun;
    change (newton_continue (fluid_tolerance (parameters s)) l)
      with (continue_test (fluid_tolerance (parameters s))
                          (current_residual l) (relative_residual l));
    destruct (continue_test _ _ _) eqn:Hc; mrun.
  - repeat split. exists []. rewrite app_nil_r. repeat split.
    cbn. lia.
  - repeat split. exists []. rewrite app_nil_r. repeat split.
    cbn. rewrite Hc. reflexivity.
  - pose proof (newton_iteration_run apply l s)
      as (Ht & Hp & _ & Htr & evs1 & He1 & Hok1 & Hres).
    cbv zeta in Ht, Hp, Htr, He1, Hres.
    destruct (newton_iteration apply l s) as [[e|l'] s1] eqn:Hit;
      cbn [fst snd] in *.
    + rewrite (run_bind_fails _ _ _ Hit). cbn [fst snd].
      repeat split; try assumption.
      exists evs1. repeat split; try assumption.
      eapply forallb_impl; [|exact Hok1]. apply iteration_event_step.
    + rewrite (run_bind_is _ _ _ Hit).
      destruct Hres as (Hk & Hk' & _ & _ & _ & Hr1 & _).
      pose proof (IH apply l' s1)
        as (Ht2 & Hp2 & Htr2 & evs2 & He2 & Hok2 & Hres2).
      cbv zeta in Ht2, Hp2, Htr2, He2, Hres2.
      rewrite Ht, Hp in *.
      repeat split; try congruence.
      exists (evs1 ++ evs2). split; [rewrite He2, He1, app_assoc; reflexivity|].
      split.
      { rewrite forallb_app. apply andb_true_intro. split; [|exact Hok2].
        eapply forallb_impl; [|exact Hok1]. apply iteration_event_step. }
      destruct (fst (newton_loop fuel apply l' s1)) as [e|[|]]; [exact I| |].
      * rewrite residuals_app, Hr1. cbn [app stops_exactly].
        rewrite Hc, Nat.eqb_refl, Hk' in *. cbn [andb].
        apply Nat.ltb_lt in Hk. rewrite Hk. exact Hres2.
      * rewrite Hk' in Hres2. lia.
  - repeat split. exists []. rewrite app_nil_r. repeat split.
    cbn. rewrite Hc. reflexivity.
Qed.

Lemma refinement_events_no_residual evs :
  forallb is_refinement_event evs = true -> residuals evs = [].
Proof.
  induction evs as [|e evs IH]; [reflexivity|].
  cbn [forallb]. intros H. apply andb_prop in H as [He H'].
  unfold residuals in *. cbn [flat_map]. rewrite (IH H').
  destruct e; try discriminate; reflexivity.
Qed.

Lemma refinement_events_step n apply evs :
  forallb is_refinement_event evs = true ->
  forallb (step_event_ok n apply) evs = true.
Proof.
  apply forallb_impl. intros e. destruct e; try discriminate; reflexivity.
Qed.

(** One time step of the Newton solver. *)
Lemma newton_run_one_step_run apply s :
  let r := run_one_step dim apply s in
  time (snd r) = time_increment (time s) /\
  parameters (snd r) = parameters s /\
  exists evs,
    trace (snd r) = trace s ++ evs /\
    forallb (step_event_ok (S (timestep (time s))) apply) evs = true /\
    match fst r with
    | inr _ =>
        stops_exactly (fluid_tolerance (parameters s))
                      (fluid_max_iterations (parameters s)) 0 d_one d_one
                      (residuals evs) = true
    | inl _ => True
    end.
Proof.
  unfold run_one_step, output_results.
  assert (Hout : forall (b : bool) (k : unit -> M Solver unit) (st : Solver),
             bind (if b then log (EvOutputResults 0) else ret tt) k st =
             k tt (if b then set_trace (trace st ++ [EvOutputResults 0]) st
                   else st)).
  { intros [|] k st; reflexivity. }
  mrun. rewrite Hout. mrun.
  set (s0 := if timestep (time s) =? 0 then _ else s).
  assert (Hs0 : time s0 = time s /\ parameters s0 = parameters s /\
                exists ev0, trace s0 = trace s ++ ev0 /\
                            residuals ev0 = [] /\
                            forall n a, forallb (step_event_ok n a) ev0 = true).
  { subst s0. destruct (timestep (time s) =? 0); members.
    - repeat split. eexists. split; [reflexivity|]. split; [reflexivity|].
      reflexivity.
    - repeat split. exists []. rewrite app_nil_r. repeat split. }
  destruct Hs0 as (Ht0 & Hp0 & ev0 & He0 & Hr0 & Hok0).
  members.
  match goal with
  | |- context [bind (newton_loop ?f ?a ?l) ?k ?st] =>
      pose proof (newton_loop_run f a l st)
        as (Ht1 & Hp1 & _ & evs1 & He1 & Hok1 & Hres1);
      destruct (newton_loop f a l st) as [[e|fin] s1] eqn:Hloop
  end; cbv zeta in *; members_in Ht1; members_in Hp1; members_in He1;
    members_in Hok1; members_in Hres1; cbn [fst snd] in *.
  - rewrite (run_bind_fails _ _ _ Hloop). cbn [fst snd].
    clearbody s0.
    split; [congruence|]. split; [congruence|].
    exists (ev0 ++ evs1). rewrite He1, He0, app_assoc.
    split; [reflexivity|]. split; [|exact I].
    rewrite forallb_app, Hok0. rewrite Ht0 in Hok1. exact Hok1.
  - rewrite (run_bind_is _ _ _ Hloop). mrun. clearbody s0.
    assert (Hfin : stops_exactly (fluid_tolerance (parameters s))
                     (fluid_max_iterations (parameters s)) 0 d_one d_one
                     (residuals evs1) = true).
    { rewrite Hp0 in Hres1. destruct fin; [exact Hres1|].
      exfalso. apply Hres1. cbn. lia. }
    assert (Hout2 : forall (b : bool) n (k : unit -> M Solver unit) (st : Solver),
               bind (if b then log (EvOutputResults n) else ret tt) k st =
               k tt (if b then set_trace (trace st ++ [EvOutputResults n]) st
                     else st)).
    { intros [|] n k st; reflexivity. }
    rewrite Hout2.
    set (s2 := if time_to_output (time s1) then _ else _).
    assert (Hs2 : time s2 = time s1 /\ parameters s2 = parameters s1 /\
                  exists ev2, trace s2 = trace s1 ++ ev2 /\
                              residuals ev2 = [] /\
                              forall n a,
                                forallb (step_event_ok n a) ev2 = true).
    { subst s2. destruct (time_to_output (time s1)); members.
      - repeat split. eexists. split; [reflexivity|]. split; reflexivity.
      - repeat split. exists []. rewrite app_nil_r. repeat split. }
    destruct Hs2 as (Ht2 & Hp2 & ev2 & He2 & Hr2 & Hok2).
    assert (Hsame : time s2 = time_increment (time s)).
    { rewrite Ht2, Ht1, Ht0. reflexivity. }
    destruct (time_to_refine (time s1)).
    + pose proof (newton_refine_mesh_frame dim 1 3 s2)
        as (Htri3 & Ht3 & Hp3 & ev3 & He3 & Hok3).
      cbv zeta in *. clearbody s2.
      split; [congruence|]. split; [congruence|].
      exists (ev0 ++ evs1 ++ ev2 ++ ev3).
      rewrite He3, He2, He1, He0, <- !app_assoc.
      split; [reflexivity|]. split.
      * rewrite !forallb_app, Hok0, Hok2. rewrite Ht0 in Hok1.
        cbn [timestep time_increment] in Hok1. rewrite Hok1.
        rewrite (refinement_events_step _ _ _ Hok3). reflexivity.
      * destruct (fst (refine_mesh dim 1 3 s2)); [exact I|].
        rewrite !residuals_app, Hr0, Hr2,
          (refinement_events_no_residual _ Hok3), !app_nil_r. exact Hfin.
    + cbn [ret fst snd]. clearbody s2.
      split; [congruence|]. split; [congruence|].
      exists (ev0 ++ evs1 ++ ev2).
      rewrite He2, He1, He0, <- !app_assoc.
      split; [reflexivity|]. split.
      * rewrite !forallb_app, Hok0, Hok2. rewrite Ht0 in Hok1.
        cbn [timestep time_increment] in Hok1. rewrite Hok1. reflexivity.
      * rewrite !residuals_app, Hr0, Hr2, !app_nil_r. exact Hfin.
Qed.





End Newton.

(** ** The time step of the single-process solver *)

(** How many times a trace builds the Schur surrogate. *)
Definition schur_builds (evs : list Event) : nat :=
  length (filter (fun e => match e with EvSchurBuild => true | _ => false end)
                 evs).

Lemma schur_builds_app a b :
  schur_builds (a ++ b) = schur_builds a + schur_builds b.
Proof. unfold schur_builds. rewrite filter_app, length_app. reflexivity. Qed.

Lemma refinement_events_no_build evs :
  forallb is_refinement_event evs = true -> schur_builds evs = 0.
Proof.
  induction evs as [|e evs IH]; [reflexivity|].
  cbn [forallb]. intros H. apply andb_prop in H as [He H'].
  unfold schur_builds in *. cbn [filter]. specialize (IH H').
  destruct e; try discriminate; exact IH.
Qed.

Section IMEX.
Import IMEXFacts.
Import InsIMEX.
Context {C : Collaborators}.
Variable dim : Dim.

(** [run_one_step] up to the call of [solve]: the clock, the reset of
    the increment, the two flags, and the assembly.  It returns the
    flags. *)
Definition step_until_solve : M Solver (bool * bool) :=
  s <- get ;;
  (if timestep (time s) =? 0 then output_results 0 else ret tt) ;;
  modify (fun s => set_time (time_increment (time s)) s) ;;
  modify (fun s => set_increment (block_vec_fill d_zero (increment s)) s) ;;
  s <- get ;;
  let apply_nonzero_constraints := timestep (time s) =? 1 in
  let assemble_system := timestep (time s) <? 3 in
  log (EvAssemble (timestep (time s)) 0
                  apply_nonzero_constraints assemble_system) ;;
  assemble apply_nonzero_constraints assemble_system ;;
  log (EvSolve (timestep (time s)) 0
               apply_nonzero_constraints assemble_system) ;;
  ret (apply_nonzero_constraints, assemble_system).

(** [run_one_step] from the call of [solve] on. *)
Definition step_from_solve (flags : bool * bool) : M Solver unit :=
  state <- solve (fst flags) (snd flags) ;;
  modify (fun s =>
            set_present_solution
              (block_vec_add (present_solution s) (increment s)) s) ;;
  s <- get ;;
  (if time_to_output (time s) then output_results (timestep (time s))
   else ret tt) ;;
  (if time_to_refine (time s) then refine_mesh dim 1 3 else ret tt).

Lemma bind_cong {S A B} (m : M S A) (k k' : A -> M S B) s :
  (forall a s', k a s' = k' a s') -> bind m k s = bind m k' s.
Proof.
  intros H. unfold bind. destruct (m s) as [[e|a] s']; [reflexivity|apply H].
Qed.

Lemma run_one_step_split s :
  run_one_step dim s = bind step_until_solve step_from_solve s.
Proof.
  unfold run_one_step, step_until_solve, step_from_solve. cbv zeta.
  repeat (rewrite run_bind_bind; apply bind_cong; intros ? ?; cbv beta).
  rewrite run_bind_ret. reflexivity.
Qed.

(** The events of time step [n]: assembly and solve carry the step,
    the nonzero constraint set on step 1 only, and the rebuild on steps
    1 and 2 only. *)
Definition imex_event_ok (n : nat) (e : Event) : bool :=
  match e with
  | EvAssemble n' k nz asm | EvSolve n' k nz asm =>
      (n' =? n) && (k =? 0) && Bool.eqb nz (n =? 1) && Bool.eqb asm (n <? 3)
  | _ => true
  end.

Lemma step_until_solve_run s :
  let r := step_until_solve s in
  let n := S (timestep (time s)) in
  fst r = inr (n =? 1, n <? 3) /\
  time (snd r) = time_increment (time s) /\
  parameters (snd r) = parameters s /\
  triangulation (snd r) = triangulation s /\
  preconditioner (snd r) = preconditioner s /\
  mass_schur (snd r) = mass_schur s /\
  (3 <= n -> system_matrix (snd r) = system_matrix s /\
             mass_matrix (snd r) = mass_matrix s) /\
  exists evs,
    trace (snd r) = trace s ++ evs /\
    forallb (imex_event_ok n) evs = true /\
    schur_builds evs = 0.
Proof.
  unfold step_until_solve, output_results.
  assert (Hout : forall (b : bool) B (k : unit -> M Solver B) (st : Solver),
             bind (if b then log (EvOutputResults 0) else ret tt) k st =
             k tt (if b then set_trace (trace st ++ [EvOutputResults 0]) st
                   else st)).
  { intros [|] B k st; reflexivity. }
  mrun. rewrite Hout. mrun.
  set (s0 := if timestep (time s) =? 0 then _ else s).
  assert (Hs0 : time s0 = time s /\ parameters s0 = parameters s /\
                triangulation s0 = triangulation s /\
                preconditioner s0 = preconditioner s /\
                mass_schur s0 = mass_schur s /\
                system_matrix s0 = system_matrix s /\
                mass_matrix s0 = mass_matrix s /\
                exists ev0, trace s0 = trace s ++ ev0 /\
                            schur_builds ev0 = 0 /\
                            forall n, forallb (imex_event_ok n) ev0 = true).
  { subst s0. destruct (timestep (time s) =? 0); members.
    - repeat split. eexists. split; [reflexivity|]. split; reflexivity.
    - repeat split. exists []. rewrite app_nil_r. repeat split. }
  destruct Hs0 as (Ht0 & Hp0 & Htr0 & Hpc0 & Hsc0 & Hsm0 & Hmm0 & ev0 & He0
                   & Hb0 & Hok0).
  clearbody s0. members. rewrite Ht0. cbn [timestep time_increment].
  destruct (S (timestep (time s)) <? 3) eqn:Hasm.
  - rewrite (run_bind_is _ _ _ (assemble_full _ _)). mrun.
    split; [reflexivity|]. split; [reflexivity|].
    do 4 (split; [assumption|]).
    split; [intros Hn; apply Nat.ltb_lt in Hasm; lia|].
    exists (ev0 ++ [EvAssemble (S (timestep (time s))) 0
                      (S (timestep (time s)) =? 1) true;
                    EvSolve (S (timestep (time s))) 0
                      (S (timestep (time s)) =? 1) true]).
    rewrite He0, <- !app_assoc. split; [reflexivity|].
    rewrite forallb_app, schur_builds_app, Hok0, Hb0.
    cbn [forallb imex_event_ok]. rewrite !Nat.eqb_refl, !eqb_reflx, Hasm.
    split; reflexivity.
  - rewrite (run_bind_is _ _ _ (assemble_rhs_only _ _)). mrun.
    split; [reflexivity|]. split; [reflexivity|].
    do 4 (split; [assumption|]).
    split; [intros _; split; assumption|].
    exists (ev0 ++ [EvAssemble (S (timestep (time s))) 0
                      (S (timestep (time s)) =? 1) false;
                    EvSolve (S (timestep (time s))) 0
                      (S (timestep (time s)) =? 1) false]).
    rewrite He0, <- !app_assoc. split; [reflexivity|].
    rewrite forallb_app, schur_builds_app, Hok0, Hb0.
    cbn [forallb imex_event_ok]. rewrite !Nat.eqb_refl, !eqb_reflx, Hasm.
    split; reflexivity.
Qed.

(** Events other than the calls of [assemble] and [solve]. *)
Definition is_quiet (e : Event) : bool :=
  match e with
  | EvAssemble _ _ _ _ | EvSolve _ _ _ _ => false
  | _ => true
  end.

Lemma quiet_imex_event n evs :
  forallb is_quiet evs = true -> forallb (imex_event_ok n) evs = true.
Proof.
  apply forallb_impl. intros e. destruct e; try discriminate; reflexivity.
Qed.

Lemma refinement_events_quiet evs :
  forallb is_refinement_event evs = true -> forallb is_quiet evs = true.
Proof.
  apply forallb_impl. intros e. destruct e; try discriminate; reflexivity.
Qed.

(** [solve] builds the Schur surrogate once when it constructs the
    preconditioner and not at all when it keeps the one at hand; it
    leaves the system and mass matrices alone, and without a rebuild the
    surrogate and the preconditioner too. *)
Lemma imex_solve_frame nz asm s :
  let r := solve nz asm s in
  time (snd r) = time s /\
  parameters (snd r) = parameters s /\
  triangulation (snd r) = triangulation s /\
  system_matrix (snd r) = system_matrix s /\
  mass_matrix (snd r) = mass_matrix s /\
  (asm = false -> mass_schur (snd r) = mass_schur s /\
                  preconditioner (snd r) = preconditioner s) /\
  exists evs,
    trace (snd r) = trace s ++ evs /\
    forallb is_quiet evs = true /\
    schur_builds evs = (if asm then 1 else 0).
Proof.
  cbv zeta. rewrite imex_solve_run. cbv zeta.
  assert (Hnil : forall l : list Event, exists evs,
             l = l ++ evs /\ forallb is_quiet evs = true /\
             schur_builds evs = 0).
  { intros l. exists []. rewrite app_nil_r. repeat split. }
  destruct asm; unfold ready.
  - members.
    destruct (krylov _ _) as [e|res]; [|destruct (final_state res)];
      unfold solved; members; repeat split; try discriminate;
      rewrite <- ?app_assoc; eexists; (split; [reflexivity|]);
      split; reflexivity.
  - destruct (preconditioner s) as [P|] eqn:HP.
    + destruct (krylov _ _) as [e|res]; [|destruct (final_state res)];
        unfold solved; members; repeat split; try assumption;
        first [ apply Hnil
              | eexists; (split; [reflexivity|]); split; reflexivity ].
    + members. repeat split; try assumption. apply Hnil.
Qed.

Lemma step_from_solve_run nz asm s :
  let r := step_from_solve (nz, asm) s in
  time (snd r) = time s /\
  parameters (snd r) = parameters s /\
  (asm = false -> time_to_refine (time s) = false ->
   system_matrix (snd r) = system_matrix s /\
   mass_matrix (snd r) = mass_matrix s /\
   mass_schur (snd r) = mass_schur s /\
   preconditioner (snd r) = preconditioner s /\
   triangulation (snd r) = triangulation s) /\
  exists evs,
    trace (snd r) = trace s ++ evs /\
    forallb is_quiet evs = true /\
    schur_builds evs = (if asm then 1 else 0).
Proof.
  unfold step_from_solve, output_results. cbn [fst snd].
  pose proof (imex_solve_frame nz asm s)
    as (Ht1 & Hp1 & Htr1 & Hsm1 & Hmm1 & Hkeep1 & evs1 & He1 & Hq1 & Hb1).
  cbv zeta in *.
  destruct (solve nz asm s) as [[e|st] s1] eqn:Hsolve; cbn [fst snd] in *.
  { rewrite (run_bind_fails _ _ _ Hsolve). cbn [fst snd].
    repeat split; try assumption; try (apply Hkeep1; assumption).
    exists evs1. repeat split; assumption. }
  rewrite (run_bind_is _ _ _ Hsolve). mrun.
  assert (Hout : forall (b : bool) n (k : unit -> M Solver unit) (st : Solver),
             bind (if b then log (EvOutputResults n) else ret tt) k st =
             k tt (if b then set_trace (trace st ++ [EvOutputResults n]) st
                   else st)).
  { intros [|] n k st0; reflexivity. }
  rewrite Hout.
  set (s2 := if time_to_output (time s1) then _ else _).
  assert (Hs2 : time s2 = time s1 /\ parameters s2 = parameters s1 /\
                system_matrix s2 = system_matrix s1 /\
                mass_matrix s2 = mass_matrix s1 /\
                mass_schur s2 = mass_schur s1 /\
                preconditioner s2 = preconditioner s1 /\
                triangulation s2 = triangulation s1 /\
                exists ev2, trace s2 = trace s1 ++ ev2 /\
                            forallb is_quiet ev2 = true /\
                            schur_builds ev2 = 0).
  { subst s2. destruct (time_to_output (time s1)); members.
    - repeat split. eexists. split; [reflexivity|]. split; reflexivity.
    - repeat split. exists []. rewrite app_nil_r. repeat split. }
  destruct Hs2 as (Ht2 & Hp2 & Hsm2 & Hmm2 & Hsc2 & Hpc2 & Htr2 & ev2 & He2
                   & Hq2 & Hb2).
  clearbody s2.
  destruct (time_to_refine (time s1)) eqn:Href.
  - pose proof (imex_refine_mesh_frame dim 1 3 s2)
      as (Htri3 & Ht3 & Hp3 & ev3 & He3 & Hok3).
    cbv zeta in *.
    split; [congruence|]. split; [congruence|].
    split; [intros _ Hno; rewrite <- Ht1, Href in Hno; discriminate|].
    exists (evs1 ++ ev2 ++ ev3).
    rewrite He3, He2, He1, <- !app_assoc. split; [reflexivity|].
    rewrite !forallb_app, !schur_builds_app, Hq1, Hq2, Hb1, Hb2,
      (refinement_events_quiet _ Hok3), (refinement_events_no_build _ Hok3).
    split; [reflexivity|lia].
  - cbn [ret fst snd].
    split; [congruence|]. split; [congruence|].
    split.
    { intros Hasm _. destruct (Hkeep1 Hasm) as [Hk1 Hk2].
      repeat split; congruence. }
    exists (evs1 ++ ev2).
    rewrite He2, He1, <- !app_assoc. split; [reflexivity|].
    rewrite !forallb_app, !schur_builds_app, Hq1, Hq2, Hb1, Hb2.
    split; [reflexivity|lia].
Qed.

(** One time step of the single-process solver. *)
Lemma imex_run_one_step_run s :
  let r := run_one_step dim s in
  let n := S (timestep (time s)) in
  time (snd r) = time_increment (time s) /\
  parameters (snd r) = parameters s /\
  (3 <= n -> time_to_refine (time_increment (time s)) = false ->
   system_matrix (snd r) = system_matrix s /\
   mass_matrix (snd r) = mass_matrix s /\
   mass_schur (snd r) = mass_schur s /\
   preconditioner (snd r) = preconditioner s) /\
  exists evs,
    trace (snd r) = trace s ++ evs /\
    forallb (imex_event_ok n) evs = true /\
    schur_builds evs <= 1 /\
    (3 <= n -> schur_builds evs = 0).
Proof.
  cbv zeta. rewrite run_one_step_split.
  pose proof (step_until_solve_run s)
    as (Hr & Ht1 & Hp1 & Htr1 & Hpc1 & Hsc1 & Hkeep1 & evs1 & He1 & Hok1 & Hb1).
  cbv zeta in *.
  destruct (step_until_solve s) as [[e|flags] s1] eqn:Hpre;
    cbn [fst snd] in *; [discriminate|].
  injection Hr as ->.
  rewrite (run_bind_is _ _ _ Hpre).
  pose proof (step_from_solve_run (S (timestep (time s)) =? 1)
                                  (S (timestep (time s)) <? 3) s1)
    as (Ht2 & Hp2 & Hkeep2 & evs2 & He2 & Hq2 & Hb2).
  cbv zeta in *.
  change (S (timestep (time s)) =? 1) with (timestep (time s) =? 0) in *.
  split; [congruence|]. split; [congruence|]. split.
  - intros Hn Href.
    assert (Hasm : (S (timestep (time s)) <? 3) = false)
      by (apply Nat.ltb_ge; lia).
    rewrite <- Ht1 in Href.
    destruct (Hkeep2 Hasm Href) as (K1 & K2 & K3 & K4 & _).
    destruct (Hkeep1 Hn) as (K5 & K6).
    repeat split; congruence.
  - exists (evs1 ++ evs2). rewrite He2, He1, <- app_assoc.
    split; [reflexivity|].
    rewrite forallb_app, schur_builds_app, Hok1, Hb1, Hb2,
      (quiet_imex_event _ _ Hq2).
    split; [reflexivity|]. split.
    + destruct (S (timestep (time s)) <? 3); lia.
    + intros Hn.
      assert (Hasm : (S (timestep (time s)) <? 3) = false)
        by (apply Nat.ltb_ge; lia).
      rewrite Hasm. reflexivity.
Qed.

(** [k] time steps in a row. *)
Fixpoint steps (k : nat) : M Solver unit :=
  match k with
  | 0 => ret tt
  | S k' => run_one_step dim ;; steps k'
  end.

Lemma steps_keep_operator k : forall s,
  2 <= timestep (time s) ->
  (forall j, j < k ->
             time_to_refine (Nat.iter (S j) time_increment (time s)) = false) ->
  system_matrix (snd (steps k s)) = system_matrix s /\
  mass_matrix (snd (steps k s)) = mass_matrix s /\
  mass_schur (snd (steps k s)) = mass_schur s /\
  preconditioner (snd (steps k s)) = preconditioner s.
Proof.
  induction k as [|k IH]; intros s Hts Href; cbn [steps].
  - repeat split.
  - pose proof (imex_run_one_step_run s) as (Ht & _ & Hkeep & _).
    cbv zeta in *.
    assert (H0 : time_to_refine (time_increment (time s)) = false)
      by (apply (Href 0); lia).
    destruct (Hkeep ltac:(lia) H0) as (K1 & K2 & K3 & K4).
    destruct (run_one_step dim s) as [[e|[]] s1] eqn:Hstep;
      cbn [fst snd] in *.
    + rewrite (run_bind_fails _ _ _ Hstep). cbn [snd].
      repeat split; assumption.
    + rewrite (run_bind_is _ _ _ Hstep).
      destruct (IH s1) as (J1 & J2 & J3 & J4).
      * rewrite Ht. cbn. lia.
      * intros j Hj. rewrite Ht, <- Nat.iter_succ_r. apply Href. lia.
      * repeat split; congruence.
Qed.

End IMEX.

(** [solve] of the distributed solver constructs the preconditioner,
    and so builds the Schur surrogate, on every call. *)
Lemma newton_solve_builds {C : Collaborators} nz s :
  exists evs,
    trace (snd (ParallelNavierStokes.solve nz s)) = trace s ++ evs /\
    schur_builds evs = 1.
Proof.
  rewrite NewtonFacts.newton_solve_run.
  destruct (NewtonFacts.krylov s) as [e|res]; [|destruct (final_state res)];
    unfold NewtonFacts.solved, NewtonFacts.ready; members;
    eexists; split; reflexivity.
Qed.

(** ** How often a time step builds the Schur surrogate *)

Lemma refinement_events_count evs :
  forallb is_refinement_event evs = true ->
  schur_builds evs = 0 /\ length (residuals evs) = 0.
Proof.
  intros H. rewrite (refinement_events_no_build _ H),
    (refinement_events_no_residual _ H). split; reflexivity.
Qed.

Section NewtonBuilds.
Import NewtonFacts.
Import ParallelNavierStokes.
Context {C : Collaborators}.
Variable dim : Dim.

(** One turn of the Newton loop that gets past the assertion at its
    head builds the surrogate once, in its [solve], whether or not the
    solve then succeeds; it writes its residual line when it completes. *)
Lemma newton_iteration_builds apply l s :
  let r := newton_iteration apply l s in
  exists evs,
    trace (snd r) = trace s ++ evs /\
    schur_builds evs =
      (if outer_iteration l <? fluid_max_iterations (parameters s)
       then 1 else 0) /\
    length (residuals evs) =
      match fst r with inr _ => 1 | inl _ => 0 end.
Proof.
  unfold newton_iteration. mrun. unfold assert_throw.
  destruct (outer_iteration l <? fluid_max_iterations (parameters s)) eqn:Hk.
  2:{ mrun. exists []. rewrite app_nil_r. repeat split. }
  mrun.
  match goal with
  | |- context [bind (assemble ?nz) ?k ?st] =>
      rewrite (run_bind_is _ _ _ (assemble_run nz st))
  end.
  unfold assembled. mrun.
  match goal with
  | |- context [bind (solve ?nz) ?k ?st] =>
      pose proof (newton_solve_run nz st) as Hs
  end.
  destruct (krylov _) as [e|res] eqn:Ek.
  - rewrite (run_bind_fails _ _ _ Hs). unfold ready. members.
    rewrite <- !app_assoc. eexists. split; [reflexivity|].
    split; reflexivity.
  - destruct (final_state res).
    + rewrite (run_bind_is _ _ _ Hs). unfold solved, ready. mrun.
      rewrite <- !app_assoc. eexists. split; [reflexivity|].
      split; reflexivity.
    + rewrite (run_bind_fails _ _ _ Hs). unfold ready. members.
      rewrite <- !app_assoc. eexists. split; [reflexivity|].
      split; reflexivity.
Qed.

Lemma newton_loop_builds fuel : forall apply l s,
  let r := newton_loop fuel apply l s in
  exists evs,
    trace (snd r) = trace s ++ evs /\
    length (residuals evs) <= schur_builds evs /\
    schur_builds evs <= S (length (residuals evs)) /\
    (forall fin, fst r = inr fin ->
                 schur_builds evs = length (residuals evs)).
Proof.
  induction fuel as [|fuel IH]; intros apply l s; cbn [newton_loop]; mrun;
    destruct (newton_continue _ _) eqn:Hc; mrun.
  - exists []. rewrite app_nil_r. cbn. repeat split; lia.
  - exists []. rewrite app_nil_r. cbn. repeat split; lia.
  - pose proof (newton_iteration_builds apply l s) as (evs1 & He1 & Hb1 & Hr1).
    pose proof (newton_iteration_run apply l s) as Hrun.
    cbv zeta in He1, Hr1, Hrun.
    destruct Hrun as (_ & Hp & _ & _ & evs1' & He1' & _ & Hres).
    rewrite He1 in He1'. apply app_inv_head in He1'. subst evs1'.
    destruct (newton_iteration apply l s) as [[e|l'] s1] eqn:Hit;
      cbn [fst snd] in *.
    + rewrite (run_bind_fails _ _ _ Hit). cbn [fst snd].
      exists evs1. split; [exact He1|]. rewrite Hb1, Hr1.
      destruct (_ <? _); repeat split; try lia; intros; discriminate.
    + rewrite (run_bind_is _ _ _ Hit).
      destruct Hres as (Hk & _).
      apply Nat.ltb_lt in Hk. rewrite Hk in Hb1.
      pose proof (IH apply l' s1) as (evs2 & He2 & Hlo & Hhi & Heq).
      cbv zeta in He2, Heq.
      exists (evs1 ++ evs2). split; [rewrite He2, He1, app_assoc; reflexivity|].
      rewrite residuals_app, length_app, schur_builds_app, Hb1, Hr1.
      split; [lia|]. split; [lia|].
      intros fin Hfin. rewrite (Heq fin Hfin). reflexivity.
  - exists []. rewrite app_nil_r. cbn. repeat split; lia.
Qed.

Lemma newton_step_builds apply s :
  let r := run_one_step dim apply s in
  exists evs,
    trace (snd r) = trace s ++ evs /\
    length (residuals evs) <= schur_builds evs /\
    schur_builds evs <= S (length (residuals evs)) /\
    (fst r = inr tt -> schur_builds evs = length (residuals evs)).
Proof.
  unfold run_one_step, output_results.
  assert (Hout : forall (b : bool) n (k : unit -> M Solver unit) (st : Solver),
             bind (if b then log (EvOutputResults n) else ret tt) k st =
             k tt (if b then set_trace (trace st ++ [EvOutputResults n]) st
                   else st)).
  { intros [|] n k st; reflexivity. }
  mrun. rewrite Hout. mrun.
  set (s0 := if timestep (time s) =? 0 then _ else s).
  assert (Hs0 : exists ev0, trace s0 = trace s ++ ev0 /\
                            schur_builds ev0 = 0 /\
                            length (residuals ev0) = 0).
  { subst s0. destruct (timestep (time s) =? 0); members.
    - eexists. split; [reflexivity|]. split; reflexivity.
    - exists []. rewrite app_nil_r. repeat split. }
  destruct Hs0 as (ev0 & He0 & Hb0 & Hr0).
  members.
  match goal with
  | |- context [bind (newton_loop ?f ?a ?l) ?k ?st] =>
      pose proof (newton_loop_builds f a l st)
        as (evs1 & He1 & Hlo & Hhi & Heq);
      destruct (newton_loop f a l st) as [[e|fin] s1] eqn:Hloop
  end; cbv zeta in *; members_in He1; cbn [fst snd] in *.
  - rewrite (run_bind_fails _ _ _ Hloop). cbn [fst snd].
    clearbody s0.
    exists (ev0 ++ evs1). rewrite He1, He0, app_assoc.
    split; [reflexivity|].
    rewrite residuals_app, length_app, schur_builds_app, Hb0, Hr0.
    split; [lia|]. split; [lia|]. intros; discriminate.
  - rewrite (run_bind_is _ _ _ Hloop). mrun. clearbody s0.
    specialize (Heq fin eq_refl).
    rewrite Hout.
    set (s2 := if time_to_output (time s1) then _ else _).
    assert (Hs2 : exists ev2, trace s2 = trace s1 ++ ev2 /\
                              schur_builds ev2 = 0 /\
                              length (residuals ev2) = 0).
    { subst s2. destruct (time_to_output (time s1)); members.
      - eexists. split; [reflexivity|]. split; reflexivity.
      - exists []. rewrite app_nil_r. repeat split. }
    destruct Hs2 as (ev2 & He2 & Hb2 & Hr2).
    destruct (time_to_refine (time s1)).
    + pose proof (newton_refine_mesh_frame dim 1 3 s2)
        as (_ & _ & _ & ev3 & He3 & Hok3).
      cbv zeta in *. clearbody s2.
      destruct (refinement_events_count _ Hok3) as (Hb3 & Hr3).
      exists (ev0 ++ evs1 ++ ev2 ++ ev3).
      rewrite He3, He2, He1, He0, <- !app_assoc.
      split; [reflexivity|].
      rewrite !residuals_app, !length_app, !schur_builds_app,
        Hb0, Hr0, Hb2, Hr2, Hb3, Hr3.
      repeat split; lia.
    + cbn [ret fst snd]. clearbody s2.
      exists (ev0 ++ evs1 ++ ev2).
      rewrite He2, He1, He0, <- !app_assoc.
      split; [reflexivity|].
      rewrite !residuals_app, !length_app, !schur_builds_app,
        Hb0, Hr0, Hb2, Hr2.
      repeat split; lia.
Qed.

End NewtonBuilds.

Section IMEXBuilds.
Import IMEXFacts.
Import InsIMEX.
Context {C : Collaborators}.
Variable dim : Dim.

(** A time step of the single-process solver builds the surrogate once
    when it is the first or the second, whatever becomes of its solve,
    and not at all from the third on. *)
Lemma imex_step_builds s :
  exists evs,
    trace (snd (run_one_step dim s)) = trace s ++ evs /\
    schur_builds evs = (if S (timestep (time s)) <? 3 then 1 else 0).
Proof.
  rewrite run_one_step_split.
  pose proof (step_until_solve_run s)
    as (Hr & _ & _ & _ & _ & _ & _ & evs1 & He1 & _ & Hb1).
  cbv zeta in *.
  destruct (step_until_solve s) as [[e|flags] s1] eqn:Hpre;
    cbn [fst snd] in *; [discriminate|].
  injection Hr as ->.
  rewrite (run_bind_is _ _ _ Hpre).
  pose proof (step_from_solve_run dim (S (timestep (time s)) =? 1)
                                  (S (timestep (time s)) <? 3) s1)
    as (_ & _ & _ & evs2 & He2 & _ & Hb2).
  cbv zeta in *.
  change (S (timestep (time s)) =? 1) with (timestep (time s) =? 0) in *.
  exists (evs1 ++ evs2). rewrite He2, He1, <- app_assoc.
  split; [reflexivity|].
  rewrite schur_builds_app, Hb1, Hb2. reflexivity.
Qed.

End IMEXBuilds.

(** ** A rejected flag ends the run before the first step *)

Section Rejection.
Context {C : Collaborators}.
Variable dim : Dim.

(** What [run] leaves when [make_constraints] has thrown: the clock at
    step 0, the two events of the set-up so far, and both constraint
    sets open. *)
Definition rejected (r : (Exc + bool) * Solver) : Prop :=
  fst r = inl unrecognized_flag /\
  timestep (time (snd r)) = 0 /\
  trace (snd r) = [EvSetupDofs; EvMakeConstraints] /\
  closed (nonzero_constraints (snd r)) = false /\
  closed (zero_constraints (snd r)) = false.

Lemma imex_run_rejects fuel tria p :
  all_well_formed p = true ->
  all_recognized p = false ->
  rejected (InsIMEX.run dim fuel (solver_new tria p)).
Proof.
  intros Hwf Hrec. unfold InsIMEX.run, setup_dofs. mrun.
  match goal with
  | |- context [bind (make_constraints dim) ?k ?st] =>
      destruct (make_constraints_run dim st Hwf) as (nz & z & H & Hnz & Hz);
      change (all_recognized (parameters st)) with (all_recognized p)
        in H, Hnz, Hz
  end.
  rewrite Hrec in H, Hnz, Hz.
  rewrite (run_bind_fails _ _ _ H).
  unfold rejected, make_constraints_trace. members.
  repeat split; assumption.
Qed.

Lemma newton_run_rejects fuel tria p :
  all_well_formed p = true ->
  all_recognized p = false ->
  rejected (ParallelNavierStokes.run dim fuel (solver_new tria p)).
Proof.
  intros Hwf Hrec. unfold ParallelNavierStokes.run, setup_dofs. mrun.
  match goal with
  | |- context [bind (make_constraints dim) ?k ?st] =>
      destruct (make_constraints_run dim st Hwf) as (nz & z & H & Hnz & Hz);
      change (all_recognized (parameters st)) with (all_recognized p)
        in H, Hnz, Hz
  end.
  rewrite Hrec in H, Hnz, Hz.
  rewrite (run_bind_fails _ _ _ H).
  unfold rejected, make_constraints_trace. members.
  repeat split; assumption.
Qed.

Lemma all_recognized_flags p :
  all_recognized p = true <->
  forall e, In e (fluid_dirichlet_bcs p) ->
            In (entry_flag e) [1; 2; 3; 4; 5; 6; 7].
Proof.
  unfold all_recognized. rewrite forallb_forall.
  split; intros H e He; specialize (H e He); revert H;
    unfold entry_recognized, flag_recognized;
    destruct (entry_flag e) as [|[|[|[|[|[|[|[|f]]]]]]]]; cbn;
    intuition (try discriminate; try lia).
Qed.

End Rejection.

(** ** The level bounds through one refinement *)

Section LevelBounds.
Context {C : Collaborators}.
Variable dim : Dim.






End LevelBounds.

(** ** A refinement between the steps of the single-process solver *)

Section IMEXRefinement.
Import IMEXFacts.
Import InsIMEX.
Context {C : Collaborators}.
Variable dim : Dim.

Lemma step_from_solve_refines nz asm s :
  time_to_refine (time s) = true ->
  fst (step_from_solve dim (nz, asm) s) = inr tt ->
  exists s2,
    parameters s2 = parameters s /\
    step_from_solve dim (nz, asm) s = refine_mesh dim 1 3 s2.
Proof.
  intros Href. unfold step_from_solve, output_results. cbn [fst snd].
  pose proof (imex_solve_frame nz asm s)
    as (Ht1 & Hp1 & _).
  cbv zeta in *.
  destruct (solve nz asm s) as [[e|st] s1] eqn:Hsolve; cbn [fst snd] in *.
  { rewrite (run_bind_fails _ _ _ Hsolve). cbn [fst]. discriminate. }
  rewrite (run_bind_is _ _ _ Hsolve). mrun.
  assert (Hout : forall (b : bool) n (k : unit -> M Solver unit) (st : Solver),
             bind (if b then log (EvOutputResults n) else ret tt) k st =
             k tt (if b then set_trace (trace st ++ [EvOutputResults n]) st
                   else st)).
  { intros [|] n k st0; reflexivity. }
  rewrite Hout, Ht1, Href. intros _.
  eexists. split; [|reflexivity].
  destruct (time_to_output (time s)); members; exact Hp1.
Qed.

(** A step that ends with a refinement leaves the matrices
    re-initialised on the new pattern and no preconditioner. *)
Lemma imex_step_refined s :
  all_well_formed (parameters s) = true ->
  all_recognized (parameters s) = true ->
  time_to_refine (time_increment (time s)) = true ->
  fst (run_one_step dim s) = inr tt ->
  rebuilt dim (snd (run_one_step dim s)) /\
  time (snd (run_one_step dim s)) = time_increment (time s) /\
  parameters (snd (run_one_step dim s)) = parameters s.
Proof.
  intros Hwf Hrec Href.
  pose proof (imex_run_one_step_run dim s) as (Ht & Hp & _).
  cbv zeta in *. intros Hok. split; [|split; assumption].
  revert Hok. clear Ht Hp. rewrite run_one_step_split.
  pose proof (step_until_solve_run s) as (Hr & Ht1 & Hp1 & _).
  cbv zeta in *.
  destruct (step_until_solve s) as [[e|flags] s1] eqn:Hpre;
    cbn [fst snd] in *; [discriminate|].
  injection Hr as ->.
  rewrite (run_bind_is _ _ _ Hpre). intros Hok.
  rewrite <- Ht1 in Href.
  destruct (step_from_solve_refines _ _ s1 Href Hok) as (s2 & Hp2 & E).
  rewrite E.
  assert (Hwf2 : all_well_formed (parameters s2) = true) by congruence.
  assert (Hrec2 : all_recognized (parameters s2) = true) by congruence.
  pose proof (imex_refine_mesh_run dim 1 3 s2 Hwf2 Hrec2)
    as (_ & _ & _ & Hreb & _).
  exact Hreb.
Qed.

(** A step from 3 on that finds no preconditioner stops at the
    dereference in [solve], the matrices as it found them. *)
Lemma imex_step_without_preconditioner s :
  3 <= S (timestep (time s)) ->
  preconditioner s = None ->
  fst (run_one_step dim s) =
    inl (ExcUndefined "*preconditioner on an empty pointer") /\
  system_matrix (snd (run_one_step dim s)) = system_matrix s /\
  mass_matrix (snd (run_one_step dim s)) = mass_matrix s.
Proof.
  intros Hn Hnone. rewrite run_one_step_split.
  pose proof (step_until_solve_run s)
    as (Hr & _ & _ & _ & Hpc & _ & Hkeep & _).
  cbv zeta in *. destruct (Hkeep Hn) as (K1 & K2).
  assert (Hasm : (S (timestep (time s)) <? 3) = false)
    by (apply Nat.ltb_ge; lia).
  assert (Hone : (S (timestep (time s)) =? 1) = false)
    by (apply Nat.eqb_neq; lia).
  rewrite Hasm, Hone in Hr.
  destruct (step_until_solve s) as [[e|flags] s1] eqn:Hpre;
    cbn [fst snd] in *; [discriminate|].
  injection Hr as ->.
  rewrite (run_bind_is _ _ _ Hpre).
  unfold step_from_solve. cbn [fst snd].
  assert (Hs : solve false false s1 =
               (inl (ExcUndefined "*preconditioner on an empty pointer"), s1)).
  { rewrite imex_solve_run. cbv zeta. unfold ready.
    rewrite Hpc, Hnone. reflexivity. }
  rewrite (run_bind_fails _ _ _ Hs). cbn [fst snd].
  repeat split; assumption.
Qed.

End IMEXRefinement.
Section IMEXAssembly.
Import IMEXFacts.
Import InsIMEX.
Context {C : Collaborators}.

Lemma step_until_solve_assembles s :
  let n := S (timestep (time s)) in
  exists s0 : Solver,
    time s0 = time_increment (time s) /\
    parameters s0 = parameters s /\
    triangulation s0 = triangulation s /\
    dof_handler s0 = dof_handler s /\
    nonzero_constraints s0 = nonzero_constraints s /\
    zero_constraints s0 = zero_constraints s /\
    present_solution s0 = present_solution s /\
    cell_property s0 = cell_property s /\
    system_matrix s0 = system_matrix s /\
    mass_matrix s0 = mass_matrix s /\
    system_rhs s0 = system_rhs s /\
    exists ev0,
      trace s0 = trace s ++ ev0 ++ [EvAssemble n 0 (n =? 1) (n <? 3)] /\
      forallb is_quiet ev0 = true /\
      snd (step_until_solve s) =
        (let s1 := snd (assemble (n =? 1) (n <? 3) s0) in
         set_trace (trace s1 ++ [EvSolve n 0 (n =? 1) (n <? 3)]) s1).
Proof.
  unfold step_until_solve, output_results.
  assert (Hout : forall (b : bool) B (k : unit -> M Solver B) (st : Solver),
             bind (if b then log (EvOutputResults 0) else ret tt) k st =
             k tt (if b then set_trace (trace st ++ [EvOutputResults 0]) st
                   else st)).
  { intros [|] B k st; reflexivity. }
  mrun. rewrite Hout. mrun.
  set (s0 := if timestep (time s) =? 0 then _ else s).
  assert (Hs0 : time s0 = time s /\ parameters s0 = parameters s /\
                triangulation s0 = triangulation s /\
                dof_handler s0 = dof_handler s /\
                nonzero_constraints s0 = nonzero_constraints s /\
                zero_constraints s0 = zero_constraints s /\
                present_solution s0 = present_solution s /\
                cell_property s0 = cell_property s /\
                system_matrix s0 = system_matrix s /\
                mass_matrix s0 = mass_matrix s /\
                system_rhs s0 = system_rhs s /\
                exists ev0, trace s0 = trace s ++ ev0 /\
                            forallb is_quiet ev0 = true).
  { subst s0. destruct (timestep (time s) =? 0); members.
    - repeat split. eexists. split; reflexivity.
    - repeat split. exists []. rewrite app_nil_r. repeat split. }
  destruct Hs0 as (Ht0 & Hp0 & Htr0 & Hdh0 & Hnz0 & Hz0 & Hps0 & Hcp0 & Hsm0
                   & Hmm0 & Hrhs0 & ev0 & He0 & Hq0).
  clearbody s0. members. rewrite Ht0. cbn [timestep time_increment].
  exists (set_trace
            (trace s0 ++
             [EvAssemble (S (timestep (time s))) 0
                (S (timestep (time s)) =? 1) (S (timestep (time s)) <? 3)])
            (set_increment (block_vec_fill d_zero (increment s0))
               (set_time (time_increment (time s)) s0))).
  members.
  do 11 (split; [first [reflexivity | assumption]|]).
  exists ev0. rewrite He0, <- app_assoc.
  split; [reflexivity|]. split; [exact Hq0|].
  destruct (S (timestep (time s)) <? 3).
  - rewrite !assemble_full. rewrite (run_bind_is _ _ _ (assemble_full _ _)).
    mrun. reflexivity.
  - rewrite !assemble_rhs_only.
    rewrite (run_bind_is _ _ _ (assemble_rhs_only _ _)).
    mrun. reflexivity.
Qed.
End IMEXAssembly.

(** ** The level bounds through a run *)

Section RunLevels.
Context {C : Collaborators}.
Variable dim : Dim.










End RunLevels.

(** * Runs on concrete data

    Two cells, the executable collaborators, unit viscosity, density
    and time step. *)

Module Example.

Definition two_cells : Triangulation :=
  [Active false false; Active false false].

Definition parameters_of (tol : double) (max_it : nat) (t_end : double)
    (refinements : nat) (bcs : list (nat * (nat * list double)))
  : AllParameters :=
  mkAllParameters 1%float 1%float 0%float 1 tol max_it t_end 1%float
                  0%float 0%float refinements bcs 0 0 [].

(** The collaborators that never write output and never refine, and
    those that refine after every second step. *)
Definition plain : Collaborators := Toy.collaborators 0 0.
Definition refining : Collaborators := Toy.collaborators 0 2.

(** One step of at most ten Newton iterations to the tolerance 0.3. *)
Definition newton_run : (Exc + bool) * Solver :=
  ParallelNavierStokes.run (C := plain) dim2 5
    (solver_new (C := plain) two_cells (parameters_of 0.3%float 10 1%float 0 [])).

(** Three steps of the single-process solver. *)
Definition imex_run : (Exc + bool) * Solver :=
  InsIMEX.run (C := plain) dim2 5
    (solver_new (C := plain) two_cells (parameters_of 0.3%float 10 3%float 0 [])).

(** The single-process solver after its first step, a refinement due at
    the end of the second. *)
Definition imex_after_step_1 : Solver :=
  snd (InsIMEX.run (C := refining) dim2 1
         (solver_new (C := refining) two_cells (parameters_of 0.3%float 10 3%float 0 []))).

(** Either solver set up on the once-refined mesh, before the first
    step. *)
Definition imex_set_up : Solver :=
  snd (InsIMEX.run (C := plain) dim2 0
         (solver_new (C := plain) two_cells
                     (parameters_of 0.3%float 10 3%float 1 [(0, (3, [1%float; 2%float]))]))).


(** A configuration with the flag 8. *)
Definition bad_flag : AllParameters :=
  parameters_of 0.3%float 10 3%float 0
    [(0, (1, [1%float])); (1, (8, [1%float; 2%float]))].

Definition bad_set_up : Solver :=
  solver_new (C := plain) two_cells bad_flag.


End Example.

(** * The claims *)

Section Claims.
Context {C : Collaborators}.
Variable dim : Dim.

(** C1: one application of the block preconditioner to [v = (v0, v1)]
    performs the five steps in their order: the pressure mass block
    solved against [v1] by preconditioned CG to [1e-6 * |v1|] and scaled
    by [-(viscosity + gamma * rho)]; the Schur surrogate solved against
    [v1] in the same way and scaled by [-rho / dt]; [u1] the sum of the
    two; [utmp = v0 - B^T u1]; and [u0] the solution of the velocity
    block against [utmp], by CG in the single-process variant and by the
    sparse direct solver in the distributed one. *)
Theorem vmult_performs_five_steps P system mass schur dst v :
  InsIMEX.vmult P system mass schur dst v =
    vmult_steps ilu_initialize
      (fun v1 => vec_fill d_zero (vec_reinit (vec_size v1)))
      velocity_cg P system mass schur dst v /\
  ParallelNavierStokes.vmult P system mass schur dst v =
    vmult_steps block_jacobi_initialize (vec_fill d_zero)
      velocity_direct P system mass schur dst v.
Proof.
  split.
  - apply imex_vmult_steps.
  - apply newton_vmult_steps.
Qed.

(** The stop test as the specification words it: relative residual at
    most the tolerance and absolute residual below the floor. *)
Definition stop_test_as_specified (tol cur rel : double) : bool :=
  (rel <=? tol)%float && (cur <? newton_absolute_floor)%float.

(** C2, as amended: the Newton loop of one time step goes on while the
    relative residual exceeds the tolerance and the absolute residual
    exceeds [1e-14], and stops at the first residuals at which one of
    the two comparisons fails; every turn it takes is below
    [max_iteration], and a turn at [max_iteration] or beyond throws. *)
Theorem newton_loop_stops_at_either_bound apply s :
  let r := ParallelNavierStokes.run_one_step dim apply s in
  (forall tol cur rel,
      continue_test tol cur rel = false <->
      (tol <? rel)%float = false \/
      (newton_absolute_floor <? cur)%float = false) /\
  (forall l st,
      fluid_max_iterations (parameters st) <=
        ParallelNavierStokes.outer_iteration l ->
      fst (ParallelNavierStokes.newton_iteration apply l st) =
        inl too_many_newton) /\
  exists evs,
    trace (snd r) = trace s ++ evs /\
    match fst r with
    | inr _ =>
        stops_exactly (fluid_tolerance (parameters s))
                      (fluid_max_iterations (parameters s)) 0 d_one d_one
                      (residuals evs) = true
    | inl _ => True
    end.
Proof.
  cbv zeta. split; [|split].
  - intros tol cur rel. unfold continue_test.
    destruct (tol <? rel)%float, (newton_absolute_floor <? cur)%float; cbn;
      intuition discriminate.
  - intros l st Hmax. unfold ParallelNavierStokes.newton_iteration.
    mrun. unfold assert_throw.
    assert (E : (ParallelNavierStokes.outer_iteration l <?
                 fluid_max_iterations (parameters st)) = false)
      by (apply Nat.ltb_ge; exact Hmax).
    rewrite E. reflexivity.
  - pose proof (newton_run_one_step_run dim apply s) as H.
    cbv zeta in H. destruct H as (_ & _ & evs & He & _ & Hstop).
    exists evs. split; [exact He|exact Hstop].
Qed.

(** C3, as amended: the outer solve of either solver is given the
    tolerance [1e-8 * |rhs|] and as many steps as the whole block
    matrix has rows, velocity and pressure together; when the Krylov
    solver reports failure [solve] throws, and when it reports success
    [solve] returns the last step and the last residual value. *)
Theorem outer_solve_control_and_result nz asm s :
  InsIMEX.outer_solver_control s =
    mkSolverControl
      (sp_m (block00 (system_matrix s)) + sp_m (block10 (system_matrix s)))
      (gmres_relative_tolerance * block_l2_norm (system_rhs s))%float true /\
  ParallelNavierStokes.outer_solver_control s =
    mkSolverControl
      (sp_m (block00 (system_matrix s)) + sp_m (block10 (system_matrix s)))
      (gmres_relative_tolerance * block_l2_norm (system_rhs s))%float true /\
  InsIMEX.solve nz asm s =
    (let s1 := IMEXFacts.ready asm s in
     match preconditioner s1 with
     | None =>
         (inl (ExcUndefined "*preconditioner on an empty pointer"), s1)
     | Some P =>
         match solver_fgmres (InsIMEX.outer_solver_control s1)
                 (system_matrix s1) (increment s1) (system_rhs s1)
                 (InsIMEX.vmult P (system_matrix s1) (mass_matrix s1)
                                (mass_schur s1)) with
         | inl e => (inl e, s1)
         | inr r =>
             match final_state r with
             | failure =>
                 (inl (NoConvergence (last_step r) (last_value r)), s1)
             | success =>
                 (inr (last_step r, last_value r),
                  IMEXFacts.solved nz (solution r) s1)
             end
         end
     end) /\
  ParallelNavierStokes.solve nz s =
    match solver_fgmres (ParallelNavierStokes.outer_solver_control s)
            (system_matrix s) (increment s) (system_rhs s)
            (ParallelNavierStokes.vmult
               (NewtonFacts.preconditioner_of s) (system_matrix s)
               (mass_matrix s) (NewtonFacts.schur_surrogate s)) with
    | inl e => (inl e, NewtonFacts.ready s)
    | inr r =>
        match final_state r with
        | failure =>
            (inl (NoConvergence (last_step r) (last_value r)),
             NewtonFacts.ready s)
        | success =>
            (inr (last_step r, last_value r),
             NewtonFacts.solved nz (solution r) s)
        end
    end.
Proof.
  split; [reflexivity|]. split; [reflexivity|]. split.
  - rewrite IMEXFacts.imex_solve_run. reflexivity.
  - rewrite NewtonFacts.newton_solve_run. reflexivity.
Qed.

(** C4, as amended: the Schur surrogate is built once in each
    construction of the preconditioner, as [B diag(M_u)^-1 B^T] with
    the reciprocal diagonal got by applying the Jacobi preconditioner of
    the velocity mass block to the all-ones vector, and written into
    the matrix initialised on the precomputed pattern, which the
    single-process product is told not to rebuild.  The distributed
    solver constructs the preconditioner in every [solve]: a turn of
    the Newton loop that gets past the check of the iteration count
    builds the surrogate exactly once, so a time step that returns has
    built it as many times as it has completed iterations, and one that
    throws at most once more.  The single-process solver constructs it
    only in a [solve] that follows an assembly of the matrices: a time
    step builds the surrogate exactly once when it is the first or the
    second, and not at all from the third on. *)
Theorem schur_surrogate_built_per_construction g v r d nz asm apply l s :
  InsIMEX.BlockSchurPreconditioner_new g v r d s =
    (inr (mkBlockSchurPreconditioner g v r d),
     set_mass_schur
       (sp_mmult (block10 (system_matrix s)) (mass_schur s)
                 (block01 (system_matrix s))
                 (precondition_Jacobi
                    (block00 (mass_matrix s))
                    (vec_fill d_one
                       (vec_reinit (sp_m (block00 (mass_matrix s))))))
                 false)
       (set_trace (trace s ++ [EvSchurBuild]) s)) /\
  ParallelNavierStokes.BlockSchurPreconditioner_new g v r d s =
    (inr (mkBlockSchurPreconditioner g v r d),
     set_mass_schur
       (sp_mmult_petsc (block10 (system_matrix s)) (mass_schur s)
                       (block01 (system_matrix s))
                       (precondition_Jacobi
                          (block00 (mass_matrix s))
                          (vec_fill d_one
                             (vec_reinit (fst (dofs_per_block s))))))
       (set_trace (trace s ++ [EvSchurBuild]) s)) /\
  (exists evs,
      trace (snd (InsIMEX.solve nz asm s)) = trace s ++ evs /\
      schur_builds evs = (if asm then 1 else 0)) /\
  (exists evs,
      trace (snd (ParallelNavierStokes.solve nz s)) = trace s ++ evs /\
      schur_builds evs = 1) /\
  (exists evs,
      trace (snd (InsIMEX.run_one_step dim s)) = trace s ++ evs /\
      schur_builds evs = (if S (timestep (time s)) <? 3 then 1 else 0)) /\
  (let it := ParallelNavierStokes.newton_iteration apply l s in
   exists evs,
     trace (snd it) = trace s ++ evs /\
     schur_builds evs =
       (if ParallelNavierStokes.outer_iteration l <?
           fluid_max_iterations (parameters s)
        then 1 else 0) /\
     length (residuals evs) =
       match fst it with inr _ => 1 | inl _ => 0 end) /\
  (let step := ParallelNavierStokes.run_one_step dim apply s in
   exists evs,
     trace (snd step) = trace s ++ evs /\
     length (residuals evs) <= schur_builds evs /\
     schur_builds evs <= S (length (residuals evs)) /\
     (fst step = inr tt -> schur_builds evs = length (residuals evs))).
Proof.
  split; [apply IMEXFacts.imex_constructor_run|].
  split; [apply NewtonFacts.newton_constructor_run|].
  split; [|split; [|split; [|split]]].
  - destruct (imex_solve_frame nz asm s)
      as (_ & _ & _ & _ & _ & _ & evs & He & _ & Hb).
    exists evs. split; assumption.
  - apply newton_solve_builds.
  - apply imex_step_builds.
  - apply newton_iteration_builds.
  - apply newton_step_builds.
Qed.

(** C5: a refinement at the end of a step from the second on
    re-initialises the system and mass matrices and drops the
    preconditioner, and the next step, which assembles the right-hand
    side only, leaves them so: the operator its solve is given is not
    the one built at step 2, and the solve stops at the empty
    preconditioner. *)
Theorem imex_refinement_discards_operator s :
  all_well_formed (parameters s) = true ->
  all_recognized (parameters s) = true ->
  2 <= S (timestep (time s)) ->
  time_to_refine (time_increment (time s)) = true ->
  fst (InsIMEX.run_one_step dim s) = inr tt ->
  let s1 := snd (InsIMEX.run_one_step dim s) in
  let r2 := InsIMEX.run_one_step dim s1 in
  system_matrix s1 = block_matrix_reinit (sparsity_pattern s1) /\
  mass_matrix s1 = block_matrix_reinit (sparsity_pattern s1) /\
  preconditioner s1 = None /\
  fst r2 = inl (ExcUndefined "*preconditioner on an empty pointer") /\
  system_matrix (snd r2) = system_matrix s1 /\
  mass_matrix (snd r2) = mass_matrix s1.
Proof.
  intros Hwf Hrec Hn Href Hok. cbv zeta.
  destruct (imex_step_refined dim s Hwf Hrec Href Hok) as (Hreb & Ht & _).
  destruct Hreb as (_ & _ & _ & _ & _ & Hsm & Hmm & _ & _ & _ & Hpc & _).
  split; [exact Hsm|]. split; [exact Hmm|]. split; [exact Hpc|].
  apply imex_step_without_preconditioner; [|exact Hpc].
  rewrite Ht. cbn [timestep time_increment]. lia.
Qed.


(** C7: with every flag of the configuration recognised, one call of
    [refine_mesh] in either solver logs, in this order, the estimate,
    the flagging, the snapshot of the solution, the execution of the
    coarsening and refinement, [setup_dofs], [make_constraints],
    [initialize_system], the interpolation and the distribution of the
    nonzero constraints on the present solution; it returns with the
    triangulation refined and every member of the discretisation
    rebuilt from it: the DoF handler distributed on the new
    triangulation, both constraint sets built from cleared sets on the
    new handler and closed, the sparsity pattern, the matrices and the
    work vectors initialised afresh, the preconditioner dropped; and
    the present solution is the interpolant of the snapshot under the
    new nonzero constraints. *)
Theorem refine_mesh_sequence lo hi s :
  all_well_formed (parameters s) = true ->
  all_recognized (parameters s) = true ->
  (let r := InsIMEX.refine_mesh dim lo hi s in
   let q := fluid_degree (parameters s) + 1 in
   fst r = inr tt /\
   trace (snd r) =
     trace s ++
     [EvEstimate; EvFlag refine_fraction coarsen_fraction; EvSnapshot;
      EvExecute; EvSetupDofs; EvMakeConstraints; EvInitializeSystem;
      EvInterpolate; EvDistribute true OnPresentSolution] /\
   triangulation (snd r) = refined dim q lo hi s /\
   rebuilt dim (snd r) /\
   present_solution (snd r) =
     cl_distribute
       (lines (nonzero_constraints (snd r)))
       (solution_transfer_interpolate
          (dof_handler s) (prepared q lo hi s) (dof_handler (snd r))
          (present_solution s)
          (block_vec_reinit (dofs_per_block (snd r))))) /\
  (let r := ParallelNavierStokes.refine_mesh dim lo hi s in
   let q := fluid_degree (parameters s) + 2 in
   fst r = inr tt /\
   trace (snd r) =
     trace s ++
     [EvEstimate; EvFlag refine_fraction coarsen_fraction; EvSnapshot;
      EvExecute; EvSetupDofs; EvMakeConstraints; EvInitializeSystem;
      EvInterpolate; EvDistribute true OnPresentSolution] /\
   triangulation (snd r) = refined dim q lo hi s /\
   rebuilt dim (snd r) /\
   evaluation_point (snd r) = block_vec_reinit (dofs_per_block (snd r)) /\
   present_solution (snd r) =
     cl_distribute
       (lines (nonzero_constraints (snd r)))
       (solution_transfer_interpolate
          (dof_handler s) (prepared q lo hi s) (dof_handler (snd r))
          (present_solution s)
          (block_vec_fill d_zero
             (block_vec_reinit (dofs_per_block (snd r)))))).
Proof.
  intros Hwf Hrec. split.
  - exact (imex_refine_mesh_run dim lo hi s Hwf Hrec).
  - exact (newton_refine_mesh_run dim lo hi s Hwf Hrec).
Qed.


(** C9: with every value vector as long as its flag reads,
    [make_constraints] succeeds exactly when every flag of the
    configuration is one of 1 to 7; it then leaves both constraint sets
    closed; otherwise it throws the unrecognised-flag error and leaves
    both sets open, and a run of either solver ends there, at time
    step 0 and with nothing but the set-up logged. *)
Theorem make_constraints_flag_check s :
  all_well_formed (parameters s) = true ->
  let r := make_constraints dim s in
  (fst r = inr tt <->
   forall e, In e (fluid_dirichlet_bcs (parameters s)) ->
             In (entry_flag e) [1; 2; 3; 4; 5; 6; 7]) /\
  (fst r = inr tt \/ fst r = inl unrecognized_flag) /\
  closed (nonzero_constraints (snd r)) =
    match fst r with inr _ => true | inl _ => false end /\
  closed (zero_constraints (snd r)) =
    match fst r with inr _ => true | inl _ => false end /\
  (forall fuel tria,
      all_recognized (parameters s) = false ->
      rejected (InsIMEX.run dim fuel (solver_new tria (parameters s))) /\
      rejected (ParallelNavierStokes.run dim fuel
                  (solver_new tria (parameters s)))).
Proof.
  intros Hwf. cbv zeta.
  destruct (make_constraints_run dim s Hwf) as (nz & z & H & Hnz & Hz).
  rewrite H. cbn [fst snd]. members.
  rewrite <- all_recognized_flags.
  destruct (all_recognized (parameters s)) eqn:Hrec.
  - split; [split; reflexivity|]. split; [left; reflexivity|].
    split; [exact Hnz|]. split; [exact Hz|]. intros ? ? Hf. discriminate.
  - split; [split; intros Hx; discriminate|].
    split; [right; reflexivity|].
    split; [exact Hnz|]. split; [exact Hz|]. intros fuel tria _.
    split; [apply imex_run_rejects|apply newton_run_rejects]; assumption.
Qed.

(** C10: [assemble] of the single-process solver starts the right-hand
    side from zero and adds what every cell contributes from the
    present solution, whether or not the matrices are assembled too;
    with the rebuild suppressed it distributes the cell right-hand
    sides alone and writes no other member, so the system and mass
    matrices stay as they are; and every time step calls it once,
    suppressing the rebuild from the third step on. *)
Theorem imex_rhs_reassembled_every_step nz s :
  InsIMEX.assemble nz false s =
    (inr tt,
     set_system_rhs
       (fold_left (IMEXFacts.rhs_only_step nz s) (IMEXFacts.all_cells s)
                  (block_vec_fill d_zero (system_rhs s))) s) /\
  system_matrix (snd (InsIMEX.assemble nz false s)) = system_matrix s /\
  mass_matrix (snd (InsIMEX.assemble nz false s)) = mass_matrix s /\
  system_rhs (snd (InsIMEX.assemble nz true s)) =
    snd (fst (fold_left (IMEXFacts.full_step nz s) (IMEXFacts.all_cells s)
                (block_matrix_set_zero (system_matrix s),
                 block_vec_fill d_zero (system_rhs s),
                 block_matrix_set_zero (mass_matrix s)))) /\
  InsIMEX.run_one_step dim s =
    bind step_until_solve (step_from_solve dim) s /\
  (let n := S (timestep (time s)) in
   exists s0 ev0,
     present_solution s0 = present_solution s /\
     system_rhs s0 = system_rhs s /\
     trace s0 = trace s ++ ev0 ++ [EvAssemble n 0 (n =? 1) (n <? 3)] /\
     forallb is_quiet ev0 = true /\
     snd (step_until_solve s) =
       (let s1 := snd (InsIMEX.assemble (n =? 1) (n <? 3) s0) in
        set_trace (trace s1 ++ [EvSolve n 0 (n =? 1) (n <? 3)]) s1)).
Proof.
  rewrite IMEXFacts.assemble_rhs_only, IMEXFacts.assemble_full.
  cbn [snd]. members.
  do 4 (split; [reflexivity|]).
  split; [apply run_one_step_split|].
  destruct (step_until_solve_assembles s)
    as (s0 & _ & _ & _ & _ & _ & _ & Hps & _ & _ & _ & Hrhs & ev0 & He & Hq
        & Hs).
  exists s0, ev0. repeat split; assumption.
Qed.

End Claims.

(** ** The claims on the concrete runs *)

Lemma imex_refinement_discards_operator_on_example :
  let s1 := snd (InsIMEX.run_one_step (C := Example.refining) dim2
                   Example.imex_after_step_1) in
  let r2 := InsIMEX.run_one_step (C := Example.refining) dim2 s1 in
  system_matrix s1 = block_matrix_reinit (sparsity_pattern s1) /\
  mass_matrix s1 = block_matrix_reinit (sparsity_pattern s1) /\
  preconditioner s1 = None /\
  fst r2 = inl (ExcUndefined "*preconditioner on an empty pointer") /\
  system_matrix (snd r2) = system_matrix s1 /\
  mass_matrix (snd r2) = mass_matrix s1.
Proof.
  apply (@imex_refinement_discards_operator Example.refining dim2
           Example.imex_after_step_1).
  - vm_compute. reflexivity.
  - vm_compute. reflexivity.
  - vm_compute. lia.
  - vm_compute. reflexivity.
  - vm_compute. reflexivity.
Defined.

Lemma refine_mesh_sequence_on_example :
  all_recognized (parameters Example.imex_set_up) = true /\
  lines (nonzero_constraints Example.imex_set_up) =
    [(0, 1%float); (1, 2%float)] /\
  fst (InsIMEX.refine_mesh (C := Example.plain) dim2 1 3 Example.imex_set_up)
    = inr tt /\
  lines (nonzero_constraints
           (snd (InsIMEX.refine_mesh (C := Example.plain) dim2 1 3
                   Example.imex_set_up))) =
    [(0, 1%float); (1, 2%float)] /\
  fst (ParallelNavierStokes.refine_mesh (C := Example.plain) dim2 1 3
         Example.imex_set_up) = inr tt.
Proof.
  split; [vm_compute; reflexivity|]. split; [vm_compute; reflexivity|].
  pose proof (@refine_mesh_sequence Example.plain dim2 1 3
                Example.imex_set_up) as H.
  cbv zeta in H.
  destruct H as ((H1 & _ & _ & Hreb & _) & (H2 & _)).
  - vm_compute. reflexivity.
  - vm_compute. reflexivity.
  - split; [exact H1|]. split; [|exact H2].
    destruct Hreb as (_ & _ & _ & _ & _ & _ & _ & _ & _ & _ & _ & _ & Hnz & _).
    rewrite Hnz. vm_compute. reflexivity.
Defined.


Lemma make_constraints_flag_check_on_example :
  all_well_formed (parameters Example.bad_set_up) = true /\
  fst (make_constraints (C := Example.plain) dim2 Example.bad_set_up)
    = inl unrecognized_flag /\
  rejected (InsIMEX.run (C := Example.plain) dim2 3
              (solver_new (C := Example.plain) Example.two_cells
                          (parameters Example.bad_set_up))).
Proof.
  split; [vm_compute; reflexivity|].
  pose proof (@make_constraints_flag_check Example.plain dim2 Example.bad_set_up) as H.
  cbv zeta in H.
  destruct H as (_ & [H1|H1] & _ & _ & H2).
  - vm_compute. reflexivity.
  - vm_compute in H1. discriminate H1.
  - split; [exact H1|].
    destruct (H2 3 Example.two_cells) as [Ha _].
    + vm_compute. reflexivity.
    + exact Ha.
Defined.

(** The Newton loop of the example stops after the iteration 2, at
    residuals that fail the stop test as the specification words it. *)
Lemma newton_loop_stops_counterexample :
  fst Example.newton_run = inr true /\
  match last (residuals (trace (snd Example.newton_run)))
             (0, d_zero, d_zero) with
  | (k, cur, rel) =>
      let tol := fluid_tolerance (parameters (snd Example.newton_run)) in
      (k =? 2) && negb (continue_test tol cur rel) &&
      negb (stop_test_as_specified tol cur rel)
  end = true.
Proof. split; vm_compute; reflexivity. Qed.

(** Four velocity and two pressure unknowns: the outer solve is given
    six steps, not four. *)
Lemma outer_solve_budget_counterexample :
  dofs_per_block (snd Example.imex_run) = (4, 2) /\
  max_steps (InsIMEX.outer_solver_control (C := Example.plain)
               (snd Example.imex_run)) = 6 /\
  dofs_per_block (snd Example.newton_run) = (4, 2) /\
  max_steps (ParallelNavierStokes.outer_solver_control (C := Example.plain)
               (snd Example.newton_run)) = 6.
Proof. repeat split; vm_compute; reflexivity. Qed.

(** The third step of the single-process solver solves without a build
    of the surrogate, and the one time step of the Newton solver builds
    it three times. *)
Lemma schur_surrogate_builds_counterexample :
  trace (snd Example.imex_run) =
    [EvSetupDofs; EvMakeConstraints; EvInitializeSystem; EvOutputResults 0;
     EvAssemble 1 0 true true; EvSolve 1 0 true true; EvSchurBuild;
     EvDistribute true OnIncrement;
     EvAssemble 2 0 false true; EvSolve 2 0 false true; EvSchurBuild;
     EvDistribute false OnIncrement;
     EvAssemble 3 0 false false; EvSolve 3 0 false false;
     EvDistribute false OnIncrement] /\
  timestep (time (snd Example.newton_run)) = 1 /\
  schur_builds (trace (snd Example.newton_run)) = 3.
Proof. repeat split; vm_compute; reflexivity. Qed.

(** A run on a mesh that is not refined globally: the two coarse cells
    are at level 0, below the minimum level 1 of [refine_mesh(1, 3)]. *)
Module CoarseMesh.




End CoarseMesh.


From Stdlib Require Import Sorted.

(** * Further properties of the code

    ** The flag of a boundary condition as a bit mask *)

(** How many of the components below [i] the flag selects: the place in
    the value vector of the value for component [i]. *)
Definition value_index (flag i : nat) : nat :=
  length (filter (Nat.testbit flag) (seq 0 i)).

(** X1: for a recognised flag whose value vector is long enough, the
    [switch] of [make_constraints] yields a mask and an augmented value
    of [dim + 1] entries; the mask selects component [i] exactly when
    [i < 3] and bit [i] of the flag is set, and the augmented value
    holds at a selected component the next value of the vector, in
    order, and zero elsewhere.  So the pressure component is never
    selected in 3D, and in 2D it is selected by the flags 4 to 7. *)
Theorem component_flag_is_bit_mask dim flag value :
  flag_recognized flag = true ->
  flag_arity flag <= length value ->
  exists mask augmented_value,
    component_flag dim flag value = inr (mask, augmented_value) /\
    length mask = dim_nat dim + 1 /\
    length augmented_value = dim_nat dim + 1 /\
    (forall i, nth i mask false = (i <? 3) && Nat.testbit flag i) /\
    (forall i, nth i augmented_value d_zero =
               if (i <? 3) && Nat.testbit flag i
               then nth (value_index flag i) value d_zero
               else d_zero) /\
    nth 3 mask false = false /\
    nth (dim_nat dim) mask false =
      match dim with dim2 => 4 <=? flag | dim3 => false end.
Proof.
  unfold flag_recognized. intros Hrec Hlen.
  destruct flag as [|[|[|[|[|[|[|[|flag]]]]]]]]; try discriminate Hrec;
    destruct value as [|v0 [|v1 [|v2 value]]]; cbn in Hlen; try lia;
    destruct dim; cbn [component_flag read_value nth_error ebind dim_nat
                       repeat Nat.add list_set];
    eexists; eexists; (split; [reflexivity|]);
    (split; [reflexivity|]); (split; [reflexivity|]);
    (split; [intros [|[|[|[|i]]]]; try reflexivity;
             destruct i; reflexivity|]);
    (split; [intros [|[|[|[|i]]]]; try reflexivity;
             destruct i; reflexivity|]);
    split; reflexivity.
Qed.

(** ** The two flag loops of [refine_mesh], exactly *)

(** An active cell after the two loops: its refine flag is cleared when
    its level is [hi] or deeper, its coarsen flag when its level is
    [lo]; the cell keeps its level and every other flag. *)
Definition after_flag_loops (lo hi : nat) (a : ActiveCell) : ActiveCell :=
  mkActiveCell (ac_level a)
               (if hi <=? ac_level a then false else ac_refine a)
               (if lo =? ac_level a then false else ac_coarsen a).

Lemma flat_map_map_pointwise {A B} (f g : A -> list B) (h : B -> B) l :
  Forall (fun x => f x = map h (g x)) l ->
  flat_map f l = map h (flat_map g l).
Proof.
  induction 1 as [|x l Hx _ IH]; [reflexivity|].
  cbn. rewrite map_app, Hx, IH. reflexivity.
Qed.

Lemma clear_refine_flag_from_cells from c : forall level,
  active_cells_from level (clear_refine_flag_from from level c) =
  map (fun a => mkActiveCell (ac_level a)
                  (if from <=? ac_level a then false else ac_refine a)
                  (ac_coarsen a))
      (active_cells_from level c).
Proof.
  induction c as [r co|cs IH] using Cell_nested_ind; intros level.
  - cbn. destruct (from <=? level); reflexivity.
  - cbn [clear_refine_flag_from active_cells_from].
    rewrite flat_map_concat_map, map_map, <- flat_map_concat_map.
    apply flat_map_map_pointwise.
    eapply Forall_impl; [|exact IH]. intros c Hc. apply Hc.
Qed.

Lemma clear_coarsen_flag_at_cells at_level c : forall level,
  active_cells_from level (clear_coarsen_flag_at at_level level c) =
  map (fun a => mkActiveCell (ac_level a) (ac_refine a)
                  (if at_level =? ac_level a then false else ac_coarsen a))
      (active_cells_from level c).
Proof.
  induction c as [r co|cs IH] using Cell_nested_ind; intros level.
  - cbn. destruct (at_level =? level); reflexivity.
  - cbn [clear_coarsen_flag_at active_cells_from].
    rewrite flat_map_concat_map, map_map, <- flat_map_concat_map.
    apply flat_map_map_pointwise.
    eapply Forall_impl; [|exact IH]. intros c Hc. apply Hc.
Qed.

Lemma clear_refine_flags_cells hi t :
  active_cells (clear_refine_flags hi t) =
  map (fun a => mkActiveCell (ac_level a)
                  (if hi <=? ac_level a then false else ac_refine a)
                  (ac_coarsen a))
      (active_cells t).
Proof.
  unfold clear_refine_flags.
  destruct (hi <? n_levels t) eqn:Hguard.
  - unfold active_cells.
    rewrite flat_map_concat_map, map_map, <- flat_map_concat_map.
    apply flat_map_map_pointwise. apply Forall_forall. intros c _.
    apply clear_refine_flag_from_cells.
  - apply Nat.ltb_ge in Hguard.
    pose proof (active_below_n_levels_all t) as Hbelow.
    induction Hbelow as [|a l Ha _ IH]; [reflexivity|].
    cbn [map]. rewrite <- IH.
    assert (E : (hi <=? ac_level a) = false) by (apply Nat.leb_gt; lia).
    rewrite E. destruct a; reflexivity.
Qed.

(** X2: the two loops of [refine_mesh] change the flags of the active
    cells in this way and no other: a refine flag is cleared exactly
    on the cells of level [max_grid_level] or deeper, a coarsen flag
    exactly on the cells of level [min_grid_level]; no flag is ever
    set, no level changes, and the number and order of the active cells
    stay.  In particular a cell above the minimum level, or below it,
    keeps its coarsen flag. *)
Theorem flag_loops_clear_exactly lo hi t :
  active_cells (clear_coarsen_flags lo (clear_refine_flags hi t)) =
    map (after_flag_loops lo hi) (active_cells t) /\
  n_active_cells (clear_coarsen_flags lo (clear_refine_flags hi t)) =
    n_active_cells t /\
  (forall i a,
      nth_error (active_cells t) i = Some a ->
      exists a',
        nth_error
          (active_cells (clear_coarsen_flags lo (clear_refine_flags hi t))) i
          = Some a' /\
        ac_level a' = ac_level a /\
        ac_refine a' = ac_refine a && (ac_level a <? hi) /\
        ac_coarsen a' = ac_coarsen a && negb (ac_level a =? lo)).
Proof.
  assert (E : active_cells (clear_coarsen_flags lo (clear_refine_flags hi t)) =
              map (after_flag_loops lo hi) (active_cells t)).
  { unfold clear_coarsen_flags.
    unfold active_cells at 1.
    rewrite flat_map_concat_map, map_map, <- flat_map_concat_map.
    rewrite (flat_map_map_pointwise
               (fun x => active_cells_from 0 (clear_coarsen_flag_at lo 0 x))
               (active_cells_from 0)
               (fun a => mkActiveCell (ac_level a) (ac_refine a)
                           (if lo =? ac_level a then false
                            else ac_coarsen a))).
    - fold (active_cells (clear_refine_flags hi t)).
      rewrite clear_refine_flags_cells, map_map. reflexivity.
    - apply Forall_forall. intros c _. apply clear_coarsen_flag_at_cells. }
  split; [exact E|]. split.
  - unfold n_active_cells. rewrite E. apply length_map.
  - intros i a Hi. rewrite E.
    exists (after_flag_loops lo hi a). split.
    + rewrite nth_error_map, Hi. reflexivity.
    + unfold after_flag_loops. cbn [ac_level ac_refine ac_coarsen].
      split; [reflexivity|]. split.
      * destruct (Nat.leb_spec hi (ac_level a)) as [H|H].
        -- assert (F : (ac_level a <? hi) = false) by (apply Nat.ltb_ge; lia).
           rewrite F, andb_false_r. reflexivity.
        -- assert (F : (ac_level a <? hi) = true) by (apply Nat.ltb_lt; lia).
           rewrite F, andb_true_r. reflexivity.
      * rewrite (Nat.eqb_sym (ac_level a) lo).
        destruct (lo =? ac_level a); cbn;
          [rewrite andb_false_r|rewrite andb_true_r]; reflexivity.
Qed.

(** ** What the constraint sets depend on *)

Section ConstraintInputs.
Context {C : Collaborators}.
Variable dim : Dim.

(** Two entries with the same boundary id and flag; when [with_values]
    holds and the values are not hard coded, with the same values too. *)
Definition entry_alike (with_values hard_coded : bool)
    (e e' : nat * (nat * list double)) : Prop :=
  fst e = fst e' /\
  entry_flag e = entry_flag e' /\
  (with_values = true -> hard_coded = false ->
   entry_value e = entry_value e').

(** Two states from which the loop over the entries goes on alike. *)
Definition constraints_alike (with_values : bool) (s s' : Solver) : Prop :=
  dof_handler s = dof_handler s' /\
  use_hard_coded_values (parameters s) =
    use_hard_coded_values (parameters s') /\
  zero_constraints s = zero_constraints s' /\
  (with_values = true -> nonzero_constraints s = nonzero_constraints s').

Lemma component_flag_mask flag v v' mv mv' :
  component_flag dim flag v = inr mv ->
  component_flag dim flag v' = inr mv' ->
  fst mv = fst mv'.
Proof.
  destruct flag as [|[|[|[|[|[|[|[|flag]]]]]]]]; cbn; try discriminate;
    destruct v as [|v0 [|v1 [|v2 v]]]; cbn; try discriminate;
    destruct v' as [|v0' [|v1' [|v2' v']]]; cbn; try discriminate;
    intros [= <-] [= <-]; reflexivity.
Qed.

Lemma make_constraints_entry_alike wv e e' s s' :
  entry_well_formed e = true ->
  entry_well_formed e' = true ->
  entry_alike wv (use_hard_coded_values (parameters s) =? 1) e e' ->
  constraints_alike wv s s' ->
  fst (make_constraints_entry dim e s) =
    fst (make_constraints_entry dim e' s') /\
  constraints_alike wv (snd (make_constraints_entry dim e s))
                       (snd (make_constraints_entry dim e' s')).
Proof.
  intros Hwf Hwf' (Hid & Hflag & Hval) (Hdh & Hhc & Hz & Hnz).
  unfold entry_well_formed in Hwf, Hwf'. apply Nat.leb_le in Hwf, Hwf'.
  unfold make_constraints_entry.
  change (fst (snd e)) with (entry_flag e).
  change (snd (snd e)) with (entry_value e).
  change (fst (snd e')) with (entry_flag e').
  change (snd (snd e')) with (entry_value e').
  rewrite <- Hflag in *.
  destruct (flag_recognized (entry_flag e)) eqn:Hrec.
  - destruct (component_flag_recognized dim _ _ Hrec Hwf) as [mv E].
    destruct (component_flag_recognized dim _ _ Hrec Hwf') as [mv' E'].
    rewrite E, E'. mrun.
    assert (Hmask : fst mv = fst mv')
      by (eapply component_flag_mask; eassumption).
    split; [reflexivity|].
    unfold constraints_alike. members.
    rewrite <- Hdh, <- Hhc, <- Hid, <- Hmask, <- Hz.
    repeat split. intros Hwv. rewrite <- (Hnz Hwv).
    destruct (use_hard_coded_values (parameters s) =? 1) eqn:Hh;
      [reflexivity|].
    rewrite (Hval Hwv eq_refl) in E. rewrite E in E'.
    injection E' as <-. reflexivity.
  - rewrite !component_flag_unrecognized by exact Hrec.
    mrun. split; [reflexivity|]. repeat split; assumption.
Qed.

Lemma for_each_entries_alike wv hc bcs bcs' :
  Forall2 (entry_alike wv hc) bcs bcs' ->
  forall s s',
  forallb entry_well_formed bcs = true ->
  forallb entry_well_formed bcs' = true ->
  (use_hard_coded_values (parameters s) =? 1) = hc ->
  constraints_alike wv s s' ->
  fst (for_each bcs (make_constraints_entry dim) s) =
    fst (for_each bcs' (make_constraints_entry dim) s') /\
  constraints_alike wv (snd (for_each bcs (make_constraints_entry dim) s))
                       (snd (for_each bcs' (make_constraints_entry dim) s')).
Proof.
  induction 1 as [|e e' bcs bcs' He _ IH]; intros s s' Hwf Hwf' Hhc Hs;
    cbn [for_each forallb] in *.
  - split; [reflexivity|exact Hs].
  - apply andb_prop in Hwf as [Hwf1 Hwf].
    apply andb_prop in Hwf' as [Hwf1' Hwf'].
    rewrite <- Hhc in He.
    pose proof make_constraints_entry_alike as Halike.
    specialize (Halike wv e e' s s' Hwf1 Hwf1' He Hs).
    destruct Halike as [Hfst Hsnd].
    pose proof (make_constraints_entry_frame dim e s) as (nz & z & Hframe & _).
    destruct (make_constraints_entry dim e s) as [[err|[]] s1] eqn:E1;
      destruct (make_constraints_entry dim e' s') as [[err'|[]] s1'] eqn:E1';
      cbn [fst snd] in *; try discriminate.
    + rewrite (run_bind_fails _ _ _ E1), (run_bind_fails _ _ _ E1').
      split; [exact Hfst|exact Hsnd].
    + rewrite (run_bind_is _ _ _ E1), (run_bind_is _ _ _ E1').
      apply IH; try assumption. rewrite Hframe. exact Hhc.
Qed.

(** The two sets [make_constraints] leaves, and its result. *)
Lemma make_constraints_alike wv s s' :
  all_well_formed (parameters s) = true ->
  all_well_formed (parameters s') = true ->
  dof_handler s = dof_handler s' ->
  use_hard_coded_values (parameters s) =
    use_hard_coded_values (parameters s') ->
  Forall2 (entry_alike wv (use_hard_coded_values (parameters s) =? 1))
          (fluid_dirichlet_bcs (parameters s))
          (fluid_dirichlet_bcs (parameters s')) ->
  fst (make_constraints dim s) = fst (make_constraints dim s') /\
  zero_constraints (snd (make_constraints dim s)) =
    zero_constraints (snd (make_constraints dim s')) /\
  (wv = true ->
   nonzero_constraints (snd (make_constraints dim s)) =
     nonzero_constraints (snd (make_constraints dim s'))).
Proof.
  intros Hwf Hwf' Hdh Hhc Hbcs.
  unfold make_constraints. mrun.
  match goal with
  | |- context [bind (for_each ?l ?f) ?k ?st] =>
      match goal with
      | |- context [bind (for_each ?l' f) ?k' ?st'] =>
          tryif constr_eq st st' then fail else
            (pose proof for_each_entries_alike as Halike;
             specialize (Halike _ _ _ _ Hbcs st st' Hwf Hwf' eq_refl);
             destruct Halike as [Hfst Hsnd])
      end
  end.
  { unfold constraints_alike. members. rewrite Hdh.
    repeat split; assumption. }
  match type of Hfst with
  | fst ?a = fst ?b =>
      destruct a as [[err|[]] s1] eqn:E; destruct b as [[err'|[]] s1'] eqn:E'
  end; cbn [fst snd] in *; try discriminate.
  - rewrite (run_bind_fails _ _ _ E), (run_bind_fails _ _ _ E'). cbn [fst snd].
    destruct Hsnd as (_ & _ & Hz & Hnz).
    split; [exact Hfst|]. split; assumption.
  - rewrite (run_bind_is _ _ _ E), (run_bind_is _ _ _ E'). mrun.
    destruct Hsnd as (_ & _ & Hz & Hnz).
    split; [reflexivity|]. split; [rewrite Hz; reflexivity|].
    intros Hwv. rewrite (Hnz Hwv). reflexivity.
Qed.


Lemma entries_alike_same wv hc bcs :
  Forall2 (entry_alike wv hc) bcs bcs.
Proof.
  induction bcs as [|e bcs IH]; constructor; [|exact IH].
  repeat split.
Qed.

(** X3: [make_constraints] builds both constraint sets afresh from
    the DoF handler and the configuration: what the two sets held
    before has no influence on its result or on the sets it leaves, so
    a second call in a row leaves them as the first did. *)
Theorem make_constraints_starts_afresh s nz z :
  all_well_formed (parameters s) = true ->
  let s' := set_zero_constraints z (set_nonzero_constraints nz s) in
  let s1 := snd (make_constraints dim s) in
  (fst (make_constraints dim s') = fst (make_constraints dim s) /\
   nonzero_constraints (snd (make_constraints dim s')) =
     nonzero_constraints s1 /\
   zero_constraints (snd (make_constraints dim s')) = zero_constraints s1) /\
  (fst (make_constraints dim s1) = fst (make_constraints dim s) /\
   nonzero_constraints (snd (make_constraints dim s1)) =
     nonzero_constraints s1 /\
   zero_constraints (snd (make_constraints dim s1)) = zero_constraints s1).
Proof.
  intros Hwf. cbv zeta. split.
  - pose proof make_constraints_alike as H.
    specialize (H true (set_zero_constraints z (set_nonzero_constraints nz s))
                  s).
    members_in H.
    destruct (H Hwf Hwf eq_refl eq_refl (entries_alike_same _ _ _))
      as (H1 & H2 & H3).
    split; [exact H1|]. split; [exact (H3 eq_refl)|exact H2].
  - destruct (make_constraints_run dim s Hwf) as (nz1 & z1 & Hrun & _).
    set (s1 := snd (make_constraints dim s)).
    assert (Hs1 : s1 = set_zero_constraints z1
                         (set_nonzero_constraints nz1
                            (set_trace (make_constraints_trace s) s)))
      by (subst s1; rewrite Hrun; reflexivity).
    assert (Hp : parameters s1 = parameters s) by (rewrite Hs1; reflexivity).
    assert (Hdh : dof_handler s1 = dof_handler s)
      by (rewrite Hs1; reflexivity).
    assert (Hdef : snd (make_constraints dim s) = s1) by reflexivity.
    clearbody s1.
    pose proof make_constraints_alike as H.
    specialize (H true s1 s).
    rewrite Hp, Hdef in H.
    destruct (H Hwf Hwf Hdh eq_refl (entries_alike_same _ _ _))
      as (H1 & H2 & H3).
    split; [exact H1|]. split; [|exact H2].
    exact (H3 eq_refl).
Qed.

(** X4: the zero constraint set depends on the boundary ids and the
    flags of the configured entries, not on their values; and when
    [use_hard_coded_values] is 1 the same holds of the nonzero set,
    whose values then come from [BoundaryValues]: the configured
    values must be there for the flag to read, but they are ignored. *)
Theorem constraint_values_are_ignored s s' :
  all_well_formed (parameters s) = true ->
  all_well_formed (parameters s') = true ->
  dof_handler s = dof_handler s' ->
  use_hard_coded_values (parameters s) =
    use_hard_coded_values (parameters s') ->
  Forall2 (fun e e' => fst e = fst e' /\ entry_flag e = entry_flag e')
          (fluid_dirichlet_bcs (parameters s))
          (fluid_dirichlet_bcs (parameters s')) ->
  fst (make_constraints dim s) = fst (make_constraints dim s') /\
  zero_constraints (snd (make_constraints dim s)) =
    zero_constraints (snd (make_constraints dim s')) /\
  (use_hard_coded_values (parameters s) = 1 ->
   nonzero_constraints (snd (make_constraints dim s)) =
     nonzero_constraints (snd (make_constraints dim s'))).
Proof.
  intros Hwf Hwf' Hdh Hhc Hbcs.
  pose proof make_constraints_alike as H.
  pose proof (H false s s' Hwf Hwf' Hdh Hhc) as Hzero.
  destruct Hzero as (H1 & H2 & _).
  { eapply Forall2_impl; [|exact Hbcs]. intros e e' (Hid & Hflag).
    repeat split; try assumption. discriminate. }
  split; [exact H1|]. split; [exact H2|].
  intros Hone.
  pose proof (H true s s' Hwf Hwf' Hdh Hhc) as Hnz.
  destruct Hnz as (_ & _ & H3).
  { eapply Forall2_impl; [|exact Hbcs]. intros e e' (Hid & Hflag).
    repeat split; try assumption. intros _ Hno.
    rewrite Hone in Hno. discriminate. }
  exact (H3 eq_refl).
Qed.

End ConstraintInputs.

Section VmultBlocks.
Context {C : Collaborators}.

Lemma vmult_steps_pressure factorise guess solve_A solve_A' P
      system system' mass schur dst dst' v v' u u' :
  vblock1 v = vblock1 v' ->
  vblock1 dst = vblock1 dst' ->
  vmult_steps factorise guess solve_A P system mass schur dst v = inr u ->
  vmult_steps factorise guess solve_A' P system' mass schur dst' v' = inr u' ->
  vblock1 u = vblock1 u'.
Proof.
  intros Hv Hd. unfold vmult_steps, ebind. rewrite <- Hv, <- Hd.
  destruct (factorise (block11 mass)) as [e|pc1]; [discriminate|].
  destruct (converged_or_throw (solver_cg _ (block11 mass) _ _ pc1))
    as [e|x1]; [discriminate|].
  destruct (factorise schur) as [e|pc2]; [discriminate|].
  destruct (converged_or_throw (solver_cg _ schur _ _ pc2))
    as [e|x2]; [discriminate|].
  destruct (solve_A _ _ _ _) as [e|x0]; [discriminate|].
  destruct (solve_A' _ _ _ _) as [e|x0']; [discriminate|].
  intros [= <-] [= <-]. reflexivity.
Qed.

(** X5: the pressure block of what the block preconditioner returns
    depends on the pressure block of its input, on the pressure block
    of [dst] it is handed (the starting guess of the Schur solve), on
    the pressure mass block and on the Schur surrogate only: two
    applications that agree on these and both return agree on the
    pressure block, whatever the system matrix and the velocity
    blocks are. *)
Theorem vmult_pressure_block_is_independent P system system' mass schur
        dst dst' v v' :
  vblock1 v = vblock1 v' ->
  vblock1 dst = vblock1 dst' ->
  (forall u u',
      InsIMEX.vmult P system mass schur dst v = inr u ->
      InsIMEX.vmult P system' mass schur dst' v' = inr u' ->
      vblock1 u = vblock1 u') /\
  (forall u u',
      ParallelNavierStokes.vmult P system mass schur dst v = inr u ->
      ParallelNavierStokes.vmult P system' mass schur dst' v' = inr u' ->
      vblock1 u = vblock1 u').
Proof.
  intros Hv Hd. split; intros u u'.
  - rewrite !imex_vmult_steps. apply vmult_steps_pressure; assumption.
  - rewrite !newton_vmult_steps. apply vmult_steps_pressure; assumption.
Qed.

End VmultBlocks.

(** ** The hard-coded boundary values

    [BoundaryValues::value(p, component)] of the two solvers.  A point
    is the list of its [dim] coordinates.  The assertion on
    [component] is compiled in debug builds only and is left out. *)

Module BoundaryValuesIMEX.

Definition value (dim : Dim) (p : list double) (component : nat) : double :=
  let left_boundary := match dim with dim2 => 0.3 | dim3 => 0 end%float in
  if (component =? 0) &&
     (abs (nth 0 p d_zero - left_boundary) <? 1e-10)%float
  then
    let Uavg := 0.2%float in
    let Umax := match dim with
                | dim2 => (3 * Uavg / 2)%float
                | dim3 => (9 * Uavg / 4)%float
                end in
    let value :=
      (4 * Umax * nth 1 p d_zero * (0.41 - nth 1 p d_zero)
       / (0.41 * 0.41))%float in
    match dim with
    | dim2 => value
    | dim3 =>
        (value * (4 * nth 2 p d_zero * (0.41 - nth 2 p d_zero)
                  / (0.41 * 0.41)))%float
    end
  else d_zero.

(** [vector_value(p, values)]: one value per component. *)
Definition vector_value (dim : Dim) (p : list double) : list double :=
  map (value dim p) (seq 0 (dim_nat dim + 1)).

End BoundaryValuesIMEX.

Module BoundaryValuesNewton.

Definition value (dim : Dim) (p : list double) (component : nat) : double :=
  let left_boundary := match dim with dim2 => 0.3 | dim3 => 0 end%float in
  if (component =? 0) &&
     (abs (nth 0 p d_zero - left_boundary) <? 1e-10)%float
  then
    let U := 0.3%float in
    let y := nth 1 p d_zero in
    let value := (4 * U * y * (0.41 - y) / (0.41 * 0.41))%float in
    match dim with
    | dim2 => value
    | dim3 =>
        (value * (4 * nth 2 p d_zero * (0.41 - nth 2 p d_zero)))%float
    end
  else d_zero.

Definition vector_value (dim : Dim) (p : list double) : list double :=
  map (value dim p) (seq 0 (dim_nat dim + 1)).

End BoundaryValuesNewton.

(** X6: the hard-coded boundary function of either solver gives
    [dim + 1] values of which only the first, the x velocity, can
    differ from zero; it is zero as well at every point that is not
    within [1e-10] of the inlet plane, and in 2D on the two walls
    [y = 0] and [y = 0.41]. *)
Theorem boundary_values_act_on_inlet_velocity dim p :
  let left := match dim with dim2 => 0.3 | dim3 => 0 end%float in
  BoundaryValuesIMEX.vector_value dim p =
    BoundaryValuesIMEX.value dim p 0 :: repeat d_zero (dim_nat dim) /\
  BoundaryValuesNewton.vector_value dim p =
    BoundaryValuesNewton.value dim p 0 :: repeat d_zero (dim_nat dim) /\
  ((abs (nth 0 p d_zero - left) <? 1e-10)%float = false ->
   BoundaryValuesIMEX.vector_value dim p = repeat d_zero (dim_nat dim + 1) /\
   BoundaryValuesNewton.vector_value dim p =
     repeat d_zero (dim_nat dim + 1)) /\
  (forall x c wall,
      wall = 0%float \/ wall = 0.41%float ->
      BoundaryValuesIMEX.value dim2 [x; wall] c = d_zero /\
      BoundaryValuesNewton.value dim2 [x; wall] c = d_zero).
Proof.
  cbv zeta. split; [|split; [|split]].
  - destruct dim; reflexivity.
  - destruct dim; reflexivity.
  - intros Hoff.
    destruct dim; unfold BoundaryValuesIMEX.vector_value,
      BoundaryValuesNewton.vector_value, BoundaryValuesIMEX.value,
      BoundaryValuesNewton.value; cbn [dim_nat Nat.add seq map Nat.eqb andb];
      rewrite Hoff; split; reflexivity.
  - intros x c wall Hwall.
    unfold BoundaryValuesIMEX.value, BoundaryValuesNewton.value.
    cbn [nth].
    destruct ((c =? 0) && (abs (x - 0.3) <? 1e-10)%float);
      [|split; reflexivity].
    destruct Hwall as [-> | ->]; split; vm_compute; reflexivity.
Qed.

(** ** What a time step writes *)

(** The indices of the outputs a trace writes, and the number of its
    assemblies. *)
Definition outputs (evs : list Event) : list nat :=
  flat_map (fun e => match e with
                     | EvOutputResults n => [n]
                     | _ => []
                     end) evs.

Definition is_assembly (e : Event) : bool :=
  match e with
  | EvAssemble _ _ _ _ => true
  | _ => false
  end.

Definition assemblies (evs : list Event) : nat :=
  length (filter is_assembly evs).

Lemma outputs_app evs evs' : outputs (evs ++ evs') = outputs evs ++ outputs evs'.
Proof. unfold outputs. apply flat_map_app. Qed.

Lemma assemblies_app evs evs' :
  assemblies (evs ++ evs') = assemblies evs + assemblies evs'.
Proof. unfold assemblies. rewrite filter_app. apply length_app. Qed.

Section StepFrames.
Context {C : Collaborators}.

(** The members neither assembly nor solve writes. *)
Definition discretisation_kept (s s' : Solver) : Prop :=
  parameters s' = parameters s /\
  triangulation s' = triangulation s /\
  dof_handler s' = dof_handler s /\
  dofs_per_block s' = dofs_per_block s /\
  nonzero_constraints s' = nonzero_constraints s /\
  zero_constraints s' = zero_constraints s /\
  sparsity_pattern s' = sparsity_pattern s /\
  cell_property s' = cell_property s /\
  present_solution s' = present_solution s /\
  time s' = time s.

Lemma discretisation_kept_refl s : discretisation_kept s s.
Proof. repeat split. Qed.

Lemma discretisation_kept_trans s1 s2 s3 :
  discretisation_kept s1 s2 -> discretisation_kept s2 s3 ->
  discretisation_kept s1 s3.
Proof.
  unfold discretisation_kept.
  intros (A1 & A2 & A3 & A4 & A5 & A6 & A7 & A8 & A9 & A10)
         (B1 & B2 & B3 & B4 & B5 & B6 & B7 & B8 & B9 & B10).
  repeat split; congruence.
Qed.

Import NewtonFacts.
Import ParallelNavierStokes.

Lemma newton_iteration_frame apply l s :
  let r := newton_iteration apply l s in
  discretisation_kept s (snd r) /\
  exists evs,
    trace (snd r) = trace s ++ evs /\
    outputs evs = [] /\
    if outer_iteration l <? fluid_max_iterations (parameters s)
    then assemblies evs = 1
    else evs = [] /\ r = (inl too_many_newton, s).
Proof.
  unfold newton_iteration. mrun. unfold assert_throw.
  destruct (outer_iteration l <? fluid_max_iterations (parameters s)) eqn:Hk.
  2:{ mrun. split; [apply discretisation_kept_refl|].
      exists []. rewrite app_nil_r. repeat split. }
  mrun.
  match goal with
  | |- context [bind (assemble ?nz) ?k ?st] =>
      rewrite (run_bind_is _ _ _ (assemble_run nz st))
  end.
  unfold assembled. mrun.
  match goal with
  | |- context [bind (solve ?nz) ?k ?st] =>
      pose proof (newton_solve_run nz st) as Hs
  end.
  destruct (krylov _) as [e|res] eqn:Ek.
  - rewrite (run_bind_fails _ _ _ Hs). unfold ready. members.
    split; [repeat split|].
    rewrite <- !app_assoc. eexists. split; [reflexivity|].
    split; reflexivity.
  - destruct (final_state res).
    + rewrite (run_bind_is _ _ _ Hs). unfold solved, ready. mrun.
      split; [repeat split|].
      rewrite <- !app_assoc. eexists. split; [reflexivity|].
      split; reflexivity.
    + rewrite (run_bind_fails _ _ _ Hs). unfold ready. members.
      split; [repeat split|].
      rewrite <- !app_assoc. eexists. split; [reflexivity|].
      split; reflexivity.
Qed.

Lemma newton_loop_frame fuel : forall apply l s,
  let r := newton_loop fuel apply l s in
  discretisation_kept s (snd r) /\
  (continue_test (fluid_tolerance (parameters s))
                 (current_residual l) (relative_residual l) = false ->
   r = (inr true, s)) /\
  exists evs,
    trace (snd r) = trace s ++ evs /\
    outputs evs = [] /\
    outer_iteration l + assemblies evs <=
      Nat.max (outer_iteration l) (fluid_max_iterations (parameters s)).
Proof.
  induction fuel as [|fuel IH]; intros apply l s; cbn [newton_loop]; mrun;
    change (newton_continue (fluid_tolerance (parameters s)) l)
      with (continue_test (fluid_tolerance (parameters s))
                          (current_residual l) (relative_residual l));
    destruct (continue_test _ _ _) eqn:Hc; mrun.
  - split; [apply discretisation_kept_refl|]. split; [discriminate|].
    exists []. rewrite app_nil_r. repeat split. cbn. lia.
  - split; [apply discretisation_kept_refl|]. split; [reflexivity|].
    exists []. rewrite app_nil_r. repeat split. cbn. lia.
  - split; [|split; [discriminate|]].
    + pose proof (newton_iteration_frame apply l s) as (Hk1 & _).
      cbv zeta in Hk1.
      destruct (newton_iteration apply l s) as [[e|l'] s1] eqn:Hit;
        cbn [snd] in *.
      * rewrite (run_bind_fails _ _ _ Hit). exact Hk1.
      * rewrite (run_bind_is _ _ _ Hit).
        eapply discretisation_kept_trans; [exact Hk1|].
        apply (IH apply l' s1).
    + pose proof (newton_iteration_frame apply l s)
        as (Hk1 & evs1 & He1 & Ho1 & Hcount).
      pose proof (newton_iteration_run apply l s)
        as (_ & _ & _ & _ & evs1' & _ & _ & Hres).
      cbv zeta in Hk1, He1, Hcount, Hres.
      destruct (newton_iteration apply l s) as [[e|l'] s1] eqn:Hit;
        cbn [fst snd] in *.
      * rewrite (run_bind_fails _ _ _ Hit). cbn [snd].
        exists evs1. split; [exact He1|]. split; [exact Ho1|].
        destruct (outer_iteration l <? fluid_max_iterations (parameters s))
          eqn:Hk.
        -- apply Nat.ltb_lt in Hk. lia.
        -- destruct Hcount as [-> _]. cbn. lia.
      * rewrite (run_bind_is _ _ _ Hit).
        destruct Hres as (Hk & Hk' & _).
        destruct (IH apply l' s1) as (Hk2 & _ & evs2 & He2 & Ho2 & Hc2).
        cbv zeta in *.
        destruct Hk1 as (Hp1 & _).
        exists (evs1 ++ evs2).
        split; [rewrite He2, He1, app_assoc; reflexivity|].
        split; [rewrite outputs_app, Ho1, Ho2; reflexivity|].
        rewrite assemblies_app.
        assert (Hlt : (outer_iteration l <?
                       fluid_max_iterations (parameters s)) = true)
          by (apply Nat.ltb_lt; exact Hk).
        rewrite Hlt in Hcount. rewrite Hp1, Hk' in Hc2. lia.
  - split; [apply discretisation_kept_refl|]. split; [reflexivity|].
    exists []. rewrite app_nil_r. repeat split. cbn. lia.
Qed.


Lemma newton_loop_too_many fuel apply l s :
  continue_test (fluid_tolerance (parameters s))
                (current_residual l) (relative_residual l) = true ->
  fluid_max_iterations (parameters s) <= outer_iteration l ->
  newton_loop (S fuel) apply l s = (inl too_many_newton, s).
Proof.
  intros Hc Hk. cbn [newton_loop]. mrun.
  change (newton_continue (fluid_tolerance (parameters s)) l)
    with (continue_test (fluid_tolerance (parameters s))
                        (current_residual l) (relative_residual l)).
  rewrite Hc.
  pose proof (newton_iteration_frame apply l s) as (_ & evs & _ & _ & H).
  cbv zeta in H.
  assert (E : (outer_iteration l <? fluid_max_iterations (parameters s))
              = false) by (apply Nat.ltb_ge; exact Hk).
  rewrite E in H. destruct H as [_ H].
  rewrite (run_bind_fails _ _ _ H). reflexivity.
Qed.

Variable dim : Dim.

(** The state a step hands on once its solve is through: the new
    present solution, and the output of the step when it is due. *)
Definition step_closed (s1 : Solver) (x : BlockVector Vec) : Solver :=
  let s2 := set_present_solution x s1 in
  if time_to_output (time s1)
  then set_trace (trace s2 ++ [EvOutputResults (timestep (time s1))]) s2
  else s2.

(** The end of a step: a refinement when it is due. *)
Definition step_end (refine : M Solver unit) (s1 : Solver)
    (x : BlockVector Vec) : (Exc + unit) * Solver :=
  if time_to_refine (time s1)
  then refine (step_closed s1 x)
  else (inr tt, step_closed s1 x).

Lemma newton_step_normal_form apply s :
  exists s1 evs1 fin,
    discretisation_kept (set_time (time_increment (time s)) s) s1 /\
    trace s1 = trace s ++
               (if timestep (time s) =? 0 then [EvOutputResults 0] else []) ++
               evs1 /\
    outputs evs1 = [] /\
    assemblies evs1 <= fluid_max_iterations (parameters s) /\
    ((fluid_tolerance (parameters s) <? d_one)%float = false ->
     evs1 = [] /\ fin = inr true /\
     evaluation_point s1 = present_solution s) /\
    ((fluid_tolerance (parameters s) <? d_one)%float = true ->
     fluid_max_iterations (parameters s) = 0 ->
     fin = inl too_many_newton) /\
    run_one_step dim apply s =
      match fin with
      | inl e => (inl e, s1)
      | inr _ => step_end (refine_mesh dim 1 3) s1 (evaluation_point s1)
      end.
Proof.
  unfold run_one_step, output_results.
  assert (Hout : forall (b : bool) n (k : unit -> M Solver unit) (st : Solver),
             bind (if b then log (EvOutputResults n) else ret tt) k st =
             k tt (if b then set_trace (trace st ++ [EvOutputResults n]) st
                   else st)).
  { intros [|] n k st; reflexivity. }
  mrun. rewrite Hout. mrun.
  set (s0 := if timestep (time s) =? 0 then _ else s).
  assert (Hs0 : discretisation_kept s s0 /\
                trace s0 = trace s ++
                  (if timestep (time s) =? 0 then [EvOutputResults 0]
                   else [])).
  { subst s0. destruct (timestep (time s) =? 0); members.
    - repeat split.
    - rewrite app_nil_r. repeat split. }
  destruct Hs0 as (Hk0 & He0). clearbody s0.
  pose proof Hk0 as (Hp0 & _ & _ & _ & _ & _ & _ & _ & Hps0 & Ht0).
  members.
  match goal with
  | |- context [bind (newton_loop ?f ?a ?l) ?k ?st] =>
      pose proof (newton_loop_frame f a l st) as (Hk1 & Hstop & evs1 & He1
                                                  & Ho1 & Hc1);
      destruct (newton_loop f a l st) as [fin s1] eqn:Hloop
  end; cbv zeta in *; cbn [fst snd] in *.
  members_in Hstop. members_in He1. members_in Hc1.
  cbn [outer_iteration current_residual relative_residual Nat.add Nat.max]
    in Hstop, Hc1.
  exists s1, evs1, fin.
  split.
  { eapply discretisation_kept_trans; [|exact Hk1].
    unfold discretisation_kept in *. members.
    repeat split; try tauto. rewrite Ht0. reflexivity. }
  split; [rewrite He1, He0, <- app_assoc; reflexivity|].
  split; [exact Ho1|].
  split; [rewrite Hp0 in Hc1; exact Hc1|].
  split.
  { intros Htol.
    assert (Hct : continue_test (fluid_tolerance (parameters s0)) d_one d_one
                  = false).
    { unfold continue_test. rewrite Hp0, Htol. reflexivity. }
    specialize (Hstop Hct). injection Hstop as -> ->.
    members_in He1. rewrite Hps0.
    split; [|split; reflexivity].
    apply (app_inv_head (trace s0)). rewrite app_nil_r. symmetry. exact He1. }
  split.
  { intros Htol Hmax.
    match type of Hloop with
    | newton_loop (S ?f) ?a ?l ?st = _ =>
        rewrite (newton_loop_too_many f a l st) in Hloop
    end.
    - injection Hloop as <- _. reflexivity.
    - members. unfold continue_test. cbn [current_residual relative_residual].
      rewrite Hp0, Htol. reflexivity.
    - members. rewrite Hp0, Hmax. cbn. lia. }
  destruct fin as [e|fin].
  - rewrite (run_bind_fails _ _ _ Hloop). reflexivity.
  - rewrite (run_bind_is _ _ _ Hloop). mrun.
    rewrite Hout. unfold step_end, step_closed. members.
    destruct (time_to_refine (time s1)); destruct (time_to_output (time s1));
      reflexivity.
Qed.


Lemma imex_solve_events nz asm s :
  discretisation_kept s (snd (InsIMEX.solve nz asm s)) /\
  exists evs,
    trace (snd (InsIMEX.solve nz asm s)) = trace s ++ evs /\
    outputs evs = [] /\ assemblies evs = 0.
Proof.
  rewrite IMEXFacts.imex_solve_run. cbv zeta.
  assert (Hnil : forall l : list Event, exists evs,
             l = l ++ evs /\ outputs evs = [] /\ assemblies evs = 0).
  { intros l. exists []. rewrite app_nil_r. repeat split. }
  destruct asm; unfold IMEXFacts.ready.
  - members.
    destruct (IMEXFacts.krylov _ _) as [e|res];
      [|destruct (final_state res)];
      unfold IMEXFacts.solved; members; (split; [repeat split|]);
      rewrite <- ?app_assoc; eexists; (split; [reflexivity|]);
      split; reflexivity.
  - destruct (preconditioner s) as [P|] eqn:HP.
    + destruct (IMEXFacts.krylov _ _) as [e|res];
        [|destruct (final_state res)];
        unfold IMEXFacts.solved; members; (split; [repeat split|]);
        first [ apply Hnil
              | eexists; (split; [reflexivity|]); split; reflexivity ].
    + members. split; [repeat split|]. apply Hnil.
Qed.

Lemma imex_step_normal_form s :
  exists s1 evs1 (res : Exc + (nat * double)),
    discretisation_kept (set_time (time_increment (time s)) s) s1 /\
    trace s1 = trace s ++
               (if timestep (time s) =? 0 then [EvOutputResults 0] else []) ++
               evs1 /\
    outputs evs1 = [] /\
    assemblies evs1 = 1 /\
    InsIMEX.run_one_step dim s =
      match res with
      | inl e => (inl e, s1)
      | inr _ =>
          step_end (InsIMEX.refine_mesh dim 1 3) s1
                   (block_vec_add (present_solution s1) (increment s1))
      end.
Proof.
  unfold InsIMEX.run_one_step, InsIMEX.output_results.
  assert (Hout : forall (b : bool) n (k : unit -> M Solver unit) (st : Solver),
             bind (if b then log (EvOutputResults n) else ret tt) k st =
             k tt (if b then set_trace (trace st ++ [EvOutputResults n]) st
                   else st)).
  { intros [|] n k st; reflexivity. }
  mrun. rewrite Hout. mrun.
  set (s0 := if timestep (time s) =? 0 then _ else s).
  assert (Hs0 : discretisation_kept s s0 /\
                trace s0 = trace s ++
                  (if timestep (time s) =? 0 then [EvOutputResults 0]
                   else [])).
  { subst s0. destruct (timestep (time s) =? 0); members.
    - repeat split.
    - rewrite app_nil_r. repeat split. }
  destruct Hs0 as (Hk0 & He0). clearbody s0.
  pose proof Hk0 as (_ & _ & _ & _ & _ & _ & _ & _ & _ & Ht0).
  members.
  match goal with
  | |- context [bind (InsIMEX.assemble ?nz ?asm) ?k ?st] =>
      assert (Hasm : exists sa,
                 InsIMEX.assemble nz asm st = (inr tt, sa) /\
                 discretisation_kept st sa /\ trace sa = trace st);
      [ destruct asm;
        [ rewrite IMEXFacts.assemble_full | rewrite IMEXFacts.assemble_rhs_only ];
        eexists; (split; [reflexivity|]); members; repeat split
      | destruct Hasm as (sa & Ea & Hka & Hea); rewrite (run_bind_is _ _ _ Ea) ]
  end.
  members_in Hea. mrun.
  match goal with
  | |- context [bind (InsIMEX.solve ?nz ?asm) ?k ?st] =>
      pose proof (imex_solve_events nz asm st)
        as (Hsolve & evs & Hs4 & Hs5 & Hs6);
      destruct (InsIMEX.solve nz asm st) as [res s1] eqn:Es
  end.
  cbn [fst snd] in *. members_in Hs4.
  exists s1. eexists. exists res.
  split.
  { eapply discretisation_kept_trans; [|exact Hsolve].
    eapply discretisation_kept_trans; [|
      eapply discretisation_kept_trans; [exact Hka|]].
    - unfold discretisation_kept in *. members.
      repeat split; try tauto. rewrite Ht0. reflexivity.
    - repeat split. }
  split.
  { rewrite Hs4, Hea, He0, <- !app_assoc. reflexivity. }
  split.
  { rewrite !outputs_app, Hs5. reflexivity. }
  split.
  { rewrite !assemblies_app, Hs6. reflexivity. }
  destruct res as [e|res].
  - rewrite (run_bind_fails _ _ _ Es). reflexivity.
  - rewrite (run_bind_is _ _ _ Es). mrun.
    rewrite Hout. unfold step_end, step_closed. members.
    destruct (time_to_refine (time s1)); destruct (time_to_output (time s1));
      reflexivity.
Qed.

End StepFrames.

Section StepEnds.
Context {C : Collaborators}.
Variable dim : Dim.

Lemma refinement_events_no_output evs :
  forallb is_refinement_event evs = true ->
  outputs evs = [] /\ assemblies evs = 0.
Proof.
  induction evs as [|e evs IH]; [split; reflexivity|].
  cbn [forallb]. intros H. apply andb_prop in H as [He H'].
  destruct (IH H') as [IH1 IH2].
  unfold outputs, assemblies in *. cbn [flat_map filter].
  rewrite IH1. destruct e; try discriminate; cbn; auto.
Qed.

Lemma step_closed_members s1 x :
  parameters (step_closed s1 x) = parameters s1 /\
  triangulation (step_closed s1 x) = triangulation s1 /\
  dof_handler (step_closed s1 x) = dof_handler s1 /\
  dofs_per_block (step_closed s1 x) = dofs_per_block s1 /\
  nonzero_constraints (step_closed s1 x) = nonzero_constraints s1 /\
  zero_constraints (step_closed s1 x) = zero_constraints s1 /\
  sparsity_pattern (step_closed s1 x) = sparsity_pattern s1 /\
  cell_property (step_closed s1 x) = cell_property s1 /\
  time (step_closed s1 x) = time s1 /\
  present_solution (step_closed s1 x) = x /\
  trace (step_closed s1 x) =
    trace s1 ++ (if time_to_output (time s1)
                 then [EvOutputResults (timestep (time s1))] else []).
Proof.
  unfold step_closed. destruct (time_to_output (time s1)); members;
    rewrite ?app_nil_r; repeat split.
Qed.

(** What the two [refine_mesh] have in common for the end of a step. *)
Definition refines (refine : M Solver unit) : Prop :=
  forall s,
    (exists evs, trace (snd (refine s)) = trace s ++ evs /\
                 forallb is_refinement_event evs = true) /\
    time (snd (refine s)) = time s /\
    parameters (snd (refine s)) = parameters s /\
    (all_well_formed (parameters s) = true ->
     all_recognized (parameters s) = true ->
     fst (refine s) = inr tt /\ rebuilt dim (snd (refine s))).

Lemma imex_refines : refines (InsIMEX.refine_mesh dim 1 3).
Proof.
  intros s.
  destruct (imex_refine_mesh_frame dim 1 3 s) as (_ & Ht & Hp & Hev).
  split; [exact Hev|]. split; [exact Ht|]. split; [exact Hp|].
  intros Hwf Hrec.
  destruct (imex_refine_mesh_run dim 1 3 s Hwf Hrec) as (H1 & _ & _ & H4 & _).
  split; assumption.
Qed.

Lemma newton_refines : refines (ParallelNavierStokes.refine_mesh dim 1 3).
Proof.
  intros s.
  destruct (newton_refine_mesh_frame dim 1 3 s) as (_ & Ht & Hp & Hev).
  split; [exact Hev|]. split; [exact Ht|]. split; [exact Hp|].
  intros Hwf Hrec.
  destruct (newton_refine_mesh_run dim 1 3 s Hwf Hrec) as (H1 & _ & _ & H4 & _).
  split; assumption.
Qed.

Lemma step_end_frame refine s1 x :
  refines refine ->
  let r := step_end refine s1 x in
  time (snd r) = time s1 /\
  parameters (snd r) = parameters s1 /\
  (exists evs,
      trace (snd r) =
        trace s1 ++ (if time_to_output (time s1)
                     then [EvOutputResults (timestep (time s1))] else []) ++
        evs /\
      forallb is_refinement_event evs = true) /\
  (all_well_formed (parameters s1) = true ->
   all_recognized (parameters s1) = true ->
   fst r = inr tt) /\
  (time_to_refine (time s1) = false -> r = (inr tt, step_closed s1 x)).
Proof.
  intros Href. cbv zeta. unfold step_end.
  destruct (step_closed_members s1 x)
    as (Hp & _ & _ & _ & _ & _ & _ & _ & Ht & _ & He).
  destruct (time_to_refine (time s1)).
  - destruct (Href (step_closed s1 x)) as ((evs & Hev & Hq) & Ht' & Hp' & Hok).
    split; [congruence|]. split; [congruence|]. split.
    + exists evs. rewrite Hev, He, <- app_assoc. split; [reflexivity|exact Hq].
    + split; [|discriminate]. intros Hwf Hrec. rewrite <- Hp in Hwf, Hrec.
      apply (Hok Hwf Hrec).
  - cbn [fst snd]. split; [exact Ht|]. split; [exact Hp|]. split.
    + exists []. rewrite app_nil_r. split; [exact He|reflexivity].
    + split; reflexivity.
Qed.

End StepEnds.

Section Steps.
Context {C : Collaborators}.
Variable dim : Dim.

(** The shape the time step of either solver has: some work that
    keeps the discretisation and writes no output, then, unless the
    work has thrown, the end of the step on the new present solution. *)
Definition steps_like (refine step : M Solver unit) : Prop :=
  forall s, exists s1 evs1 (res : Exc + BlockVector Vec),
    discretisation_kept (set_time (time_increment (time s)) s) s1 /\
    trace s1 = trace s ++
               (if timestep (time s) =? 0 then [EvOutputResults 0] else []) ++
               evs1 /\
    outputs evs1 = [] /\
    step s = match res with
             | inl e => (inl e, s1)
             | inr x => step_end refine s1 x
             end.

Lemma imex_steps_like :
  steps_like (InsIMEX.refine_mesh dim 1 3) (InsIMEX.run_one_step dim).
Proof.
  intros s.
  destruct (imex_step_normal_form dim s)
    as (s1 & evs1 & res & Hk & He & Ho & _ & Hr).
  exists s1, evs1,
    (match res with
     | inl e => inl e
     | inr _ => inr (block_vec_add (present_solution s1) (increment s1))
     end).
  split; [exact Hk|]. split; [exact He|]. split; [exact Ho|].
  rewrite Hr. destruct res; reflexivity.
Qed.

Lemma newton_steps_like apply :
  steps_like (ParallelNavierStokes.refine_mesh dim 1 3)
             (ParallelNavierStokes.run_one_step dim apply).
Proof.
  intros s.
  destruct (newton_step_normal_form dim apply s)
    as (s1 & evs1 & fin & Hk & He & Ho & _ & _ & _ & Hr).
  exists s1, evs1,
    (match fin with
     | inl e => inl e
     | inr _ => inr (evaluation_point s1)
     end).
  split; [exact Hk|]. split; [exact He|]. split; [exact Ho|].
  rewrite Hr. destruct fin; reflexivity.
Qed.

(** The time loop of either solver, over its step. *)
Fixpoint loop_of (step : M Solver unit) (fuel : nat) : M Solver bool :=
  s <- get ;;
  if (run_time_epsilon <? time_end (time s) - time_current (time s))%float
  then match fuel with
       | 0 => ret false
       | S fuel' => step ;; loop_of step fuel'
       end
  else ret true.

Lemma imex_time_loop_is_loop fuel : forall s,
  InsIMEX.time_loop dim fuel s = loop_of (InsIMEX.run_one_step dim) fuel s.
Proof.
  induction fuel as [|fuel IH]; intros s; cbn [InsIMEX.time_loop loop_of].
  - reflexivity.
  - mrun. destruct (_ <? _)%float; [|reflexivity].
    apply bind_cong. intros _ s'. apply IH.
Qed.

Lemma newton_time_loop_is_loop fuel : forall s,
  ParallelNavierStokes.time_loop dim fuel s =
  loop_of (ParallelNavierStokes.run_one_step dim false) fuel s.
Proof.
  induction fuel as [|fuel IH]; intros s;
    cbn [ParallelNavierStokes.time_loop loop_of].
  - reflexivity.
  - mrun. destruct (_ <? _)%float; [|reflexivity].
    apply bind_cong. intros _ s'. apply IH.
Qed.

Lemma loop_of_invariant (I : Solver -> Prop) step :
  (forall s, I s -> I (snd (step s))) ->
  forall fuel s, I s -> I (snd (loop_of step fuel s)).
Proof.
  intros Hstep fuel. induction fuel as [|fuel IH]; intros s Hs;
    cbn [loop_of]; mrun.
  - destruct (_ <? _)%float; exact Hs.
  - destruct (_ <? _)%float; [|exact Hs].
    specialize (Hstep s Hs).
    destruct (step s) as [[e|[]] s1] eqn:E; cbn [snd] in Hstep.
    + rewrite (run_bind_fails _ _ _ E). exact Hstep.
    + rewrite (run_bind_is _ _ _ E). apply IH, Hstep.
Qed.

End Steps.

Section AnyStep.
Context {C : Collaborators}.
Variable dim : Dim.
Variables refine step : M Solver unit.
Hypothesis Hrefines : refines dim refine.
Hypothesis Hsteps : steps_like refine step.

Lemma step_clock s :
  time (snd (step s)) = time_increment (time s) /\
  parameters (snd (step s)) = parameters s.
Proof.
  destruct (Hsteps s) as (s1 & evs1 & res & Hk & _ & _ & Hr).
  destruct Hk as (Hp & _ & _ & _ & _ & _ & _ & _ & _ & Ht).
  cbn in Hp, Ht. rewrite Hr. destruct res as [e|x]; cbn [snd].
  - split; assumption.
  - pose proof step_end_frame as Hend; specialize (Hend dim refine s1 x Hrefines); destruct Hend as (Ht' & Hp' & _).
    cbv zeta in *. split; congruence.
Qed.

Lemma step_failure s e :
  all_well_formed (parameters s) = true ->
  all_recognized (parameters s) = true ->
  fst (step s) = inl e ->
  discretisation_kept (set_time (time_increment (time s)) s) (snd (step s)).
Proof.
  intros Hwf Hrec.
  destruct (Hsteps s) as (s1 & evs1 & res & Hk & _ & _ & Hr).
  rewrite Hr. destruct res as [e'|x]; cbn [fst snd].
  - intros _. exact Hk.
  - pose proof step_end_frame as Hend; specialize (Hend dim refine s1 x Hrefines); destruct Hend as (_ & _ & _ & Hok & _).
    cbv zeta in Hok. destruct Hk as (Hp & _). cbn in Hp.
    rewrite Hp in Hok. rewrite (Hok Hwf Hrec). discriminate.
Qed.

Lemma step_outputs s :
  exists evs post,
    trace (snd (step s)) = trace s ++ evs /\
    outputs evs =
      (if timestep (time s) =? 0 then [0] else []) ++ post /\
    (post = [] \/ post = [S (timestep (time s))]).
Proof.
  destruct (Hsteps s) as (s1 & evs1 & res & Hk & He & Ho & Hr).
  destruct Hk as (_ & _ & _ & _ & _ & _ & _ & _ & _ & Ht). cbn in Ht.
  rewrite Hr. destruct res as [e|x]; cbn [snd].
  - eexists. exists []. split; [exact He|]. split; [|left; reflexivity].
    rewrite outputs_app, Ho.
    destruct (timestep (time s) =? 0); reflexivity.
  - pose proof step_end_frame as Hend; specialize (Hend dim refine s1 x Hrefines); destruct Hend as (_ & _ & (evs & Hev & Hq) & _).
    cbv zeta in Hev. pose proof refinement_events_no_output as Hno; specialize (Hno evs Hq); destruct Hno as [Hq1 _].
    eexists.
    exists (if time_to_output (time s1) then [S (timestep (time s))] else []).
    split; [rewrite Hev, He, <- !app_assoc; reflexivity|]. split.
    + rewrite !outputs_app, Ho, Hq1, Ht. cbn [timestep time_increment].
      destruct (timestep (time s) =? 0);
        destruct (time_to_output (time_increment (time s))); reflexivity.
    + destruct (time_to_output (time s1)); [right|left]; reflexivity.
Qed.

(** The output indices of a trace are in increasing order and none is
    beyond the step the clock shows. *)
Definition outputs_in_order (s : Solver) : Prop :=
  StronglySorted lt (outputs (trace s)) /\
  Forall (fun k => k <= timestep (time s)) (outputs (trace s)) /\
  (timestep (time s) = 0 -> outputs (trace s) = []).

Lemma step_outputs_in_order s :
  outputs_in_order s -> outputs_in_order (snd (step s)).
Proof.
  intros (Hsorted & Hle & Hzero).
  destruct (step_outputs s) as (evs & post & He & Ho & Hpost).
  destruct (step_clock s) as (Ht & _).
  unfold outputs_in_order. rewrite He, outputs_app, Ho, Ht.
  cbn [timestep time_increment].
  destruct (timestep (time s)) as [|t] eqn:Et; cbn [Nat.eqb].
  - rewrite (Hzero eq_refl). cbn [app].
    destruct Hpost as [-> | ->]; (split; [|split; [|discriminate]]).
    + repeat constructor.
    + repeat constructor.
    + repeat constructor.
    + repeat constructor.
  - cbn [app]. destruct Hpost as [-> | ->]; rewrite ?app_nil_r;
      (split; [|split; [|discriminate]]).
    + exact Hsorted.
    + eapply Forall_impl; [|exact Hle]. cbn. intros k Hk. lia.
    + clear He Ho Hzero.
      induction Hsorted as [|k l Hl IH Hk]; cbn [app].
      * repeat constructor.
      * inversion Hle; subst. constructor; [apply IH; assumption|].
        apply Forall_app. split; [exact Hk|].
        apply Forall_cons; [lia|apply Forall_nil].
    + apply Forall_app. split.
      * eapply Forall_impl; [|exact Hle]. cbn. intros k Hk. lia.
      * apply Forall_cons; [lia|apply Forall_nil].
Qed.

(** The members the discretisation determines are those of the
    triangulation the solver holds: the DoF handler is the one
    distributed on it, and the block sizes, the two constraint sets (as
    [make_constraints] builds them on that handler, closed), the
    sparsity pattern and the cell properties are those of that
    handler and that triangulation. *)
Definition discretised (s : Solver) : Prop :=
  dof_handler s =
    distribute_dofs (dim_nat dim) (fluid_degree (parameters s))
                    (triangulation s) /\
  dofs_per_block s = count_dofs_per_block (dof_handler s) /\
  closed (nonzero_constraints s) = true /\
  closed (zero_constraints s) = true /\
  sparsity_pattern s =
    make_sparsity_pattern (dof_handler s) (dofs_per_block s)
                          (lines (nonzero_constraints s)) /\
  cell_property s =
    repeat (repeat (zero_cell_property dim) (n_q_points dim (parameters s)))
           (n_active_cells (triangulation s)) /\
  nonzero_constraints s =
    fst (snd (constraints_of dim (dof_handler s) (parameters s))) /\
  zero_constraints s =
    snd (snd (constraints_of dim (dof_handler s) (parameters s))).

Lemma rebuilt_discretised s : rebuilt dim s -> discretised s.
Proof.
  intros (H1 & H2 & H3 & H4 & H5 & _ & _ & _ & _ & _ & _ & H12 & H13 & H14).
  repeat split; assumption.
Qed.

Lemma discretisation_kept_discretised s s' :
  discretisation_kept s s' -> discretised s -> discretised s'.
Proof.
  unfold discretised.
  intros (A1 & A2 & A3 & A4 & A5 & A6 & A7 & A8 & _ & _)
         (H1 & H2 & H3 & H4 & H5 & H6 & H7 & H8).
  rewrite A1, A2, A3, A4, A5, A6, A7, A8. repeat split; assumption.
Qed.

Lemma step_discretised s :
  all_well_formed (parameters s) = true ->
  all_recognized (parameters s) = true ->
  discretised s -> discretised (snd (step s)).
Proof.
  intros Hwf Hrec Hd.
  destruct (Hsteps s) as (s1 & evs1 & res & Hk & _ & _ & Hr).
  assert (Hd1 : discretised s1).
  { eapply discretisation_kept_discretised; [exact Hk|].
    destruct Hd as (H1 & H2 & H3 & H4 & H5 & H6 & H7 & H8).
    repeat split; assumption. }
  rewrite Hr. destruct res as [e|x]; cbn [snd]; [exact Hd1|].
  unfold step_end.
  destruct (step_closed_members s1 x)
    as (B1 & B2 & B3 & B4 & B5 & B6 & B7 & B8 & _).
  destruct (time_to_refine (time s1)); cbn [snd].
  - destruct (Hrefines (step_closed s1 x)) as (_ & _ & _ & Hok).
    destruct Hk as (Hp & _). cbn in Hp.
    apply rebuilt_discretised, Hok; congruence.
  - unfold discretised in *. rewrite B1, B2, B3, B4, B5, B6, B7, B8.
    exact Hd1.
Qed.

End AnyStep.

Section SetUp.
Context {C : Collaborators}.
Variable dim : Dim.

(** The state [run] has built when it enters its first step. *)
Definition set_up (tria : Triangulation) (p : AllParameters) (s0 : Solver)
  : Prop :=
  rebuilt dim s0 /\
  parameters s0 = p /\
  time s0 = time_init p /\
  triangulation s0 =
    refine_global (dim_nat dim) (global_refinement p) tria /\
  trace s0 = [EvSetupDofs; EvMakeConstraints; EvInitializeSystem].

Lemma imex_run_set_up fuel tria p :
  all_well_formed p = true ->
  all_recognized p = true ->
  exists s0,
    set_up tria p s0 /\
    InsIMEX.run dim fuel (solver_new tria p) = InsIMEX.time_loop dim fuel s0.
Proof.
  intros Hwf Hrec.
  unfold InsIMEX.run, setup_dofs, InsIMEX.initialize_system,
    setup_cell_property. mrun.
  match goal with
  | |- context [bind (make_constraints dim) ?k ?st] =>
      pose proof (make_constraints_built dim st) as H;
      destruct (@constraints_of_recognized _ dim (dof_handler st)
                  (parameters st) Hwf Hrec)
        as (Hok & Hnz & Hz)
  end.
  cbv zeta in H. members_in H. members_in Hok. members_in Hnz. members_in Hz.
  rewrite Hok in H.
  rewrite (run_bind_is _ _ _ H). mrun.
  eexists. split; [|reflexivity].
  unfold set_up, rebuilt. members. repeat split; assumption.
Qed.

Lemma newton_run_set_up fuel tria p :
  all_well_formed p = true ->
  all_recognized p = true ->
  exists s0,
    set_up tria p s0 /\
    ParallelNavierStokes.run dim fuel (solver_new tria p) =
      bind (ParallelNavierStokes.run_one_step dim true)
           (fun _ => ParallelNavierStokes.time_loop dim fuel) s0.
Proof.
  intros Hwf Hrec.
  unfold ParallelNavierStokes.run, setup_dofs,
    ParallelNavierStokes.initialize_system, setup_cell_property. mrun.
  match goal with
  | |- context [bind (make_constraints dim) ?k ?st] =>
      pose proof (make_constraints_built dim st) as H;
      destruct (@constraints_of_recognized _ dim (dof_handler st)
                  (parameters st) Hwf Hrec)
        as (Hok & Hnz & Hz)
  end.
  cbv zeta in H. members_in H. members_in Hok. members_in Hnz. members_in Hz.
  rewrite Hok in H.
  rewrite (run_bind_is _ _ _ H). mrun.
  eexists. split; [|reflexivity].
  unfold set_up, rebuilt. members. repeat split; assumption.
Qed.

(** An invariant of the steps that holds once the solver is set up
    holds when [run] returns. *)
Lemma imex_run_invariant (I : Solver -> Prop) fuel tria p :
  all_well_formed p = true ->
  all_recognized p = true ->
  (forall s0, set_up tria p s0 -> I s0) ->
  (forall s, I s -> I (snd (InsIMEX.run_one_step dim s))) ->
  I (snd (InsIMEX.run dim fuel (solver_new tria p))).
Proof.
  intros Hwf Hrec Hinit Hstep.
  destruct (imex_run_set_up fuel tria p Hwf Hrec) as (s0 & Hs0 & ->).
  rewrite imex_time_loop_is_loop.
  apply loop_of_invariant; [exact Hstep|]. apply Hinit, Hs0.
Qed.

Lemma newton_run_invariant (I : Solver -> Prop) fuel tria p :
  all_well_formed p = true ->
  all_recognized p = true ->
  (forall s0, set_up tria p s0 -> I s0) ->
  (forall apply s, I s ->
                   I (snd (ParallelNavierStokes.run_one_step dim apply s))) ->
  I (snd (ParallelNavierStokes.run dim fuel (solver_new tria p))).
Proof.
  intros Hwf Hrec Hinit Hstep.
  destruct (newton_run_set_up fuel tria p Hwf Hrec) as (s0 & Hs0 & ->).
  pose proof (Hstep true s0 (Hinit s0 Hs0)) as H1.
  destruct (ParallelNavierStokes.run_one_step dim true s0)
    as [[e|[]] s1] eqn:E; cbn [snd] in H1.
  - rewrite (run_bind_fails _ _ _ E). exact H1.
  - rewrite (run_bind_is _ _ _ E), newton_time_loop_is_loop.
    apply loop_of_invariant; [apply Hstep|exact H1].
Qed.

End SetUp.

Section RunTraces.
Context {C : Collaborators}.
Variable dim : Dim.

(** The state in which [run] takes its first step, or stops when
    [make_constraints] has thrown: the clock at step 0 and the set-up
    logged, whatever the flags. *)
Definition before_first_step (p : AllParameters) (s0 : Solver) : Prop :=
  parameters s0 = p /\
  time s0 = time_init p /\
  (trace s0 = [EvSetupDofs; EvMakeConstraints] \/
   trace s0 = [EvSetupDofs; EvMakeConstraints; EvInitializeSystem]).

Lemma imex_run_from_set_up (I : Solver -> Prop) fuel tria p :
  (forall s0, before_first_step p s0 -> I s0) ->
  (forall s, I s -> I (snd (InsIMEX.run_one_step dim s))) ->
  I (snd (InsIMEX.run dim fuel (solver_new tria p))).
Proof.
  intros Hinit Hstep.
  unfold InsIMEX.run, setup_dofs, InsIMEX.initialize_system,
    setup_cell_property. mrun.
  match goal with
  | |- context [bind (make_constraints dim) ?k ?st] =>
      destruct (make_constraints_frame dim st) as (r & nz & z & H)
  end.
  unfold make_constraints_trace in H. members_in H.
  destruct r as [e|[]].
  - rewrite (run_bind_fails _ _ _ H). cbn [snd]. apply Hinit.
    unfold before_first_step. members. repeat split. left. reflexivity.
  - rewrite (run_bind_is _ _ _ H). mrun.
    rewrite imex_time_loop_is_loop.
    apply loop_of_invariant; [exact Hstep|]. apply Hinit.
    unfold before_first_step. members. repeat split. right. reflexivity.
Qed.

Lemma newton_run_from_set_up (I : Solver -> Prop) fuel tria p :
  (forall s0, before_first_step p s0 -> I s0) ->
  (forall apply s,
      I s -> I (snd (ParallelNavierStokes.run_one_step dim apply s))) ->
  I (snd (ParallelNavierStokes.run dim fuel (solver_new tria p))).
Proof.
  intros Hinit Hstep.
  unfold ParallelNavierStokes.run, setup_dofs,
    ParallelNavierStokes.initialize_system, setup_cell_property. mrun.
  match goal with
  | |- context [bind (make_constraints dim) ?k ?st] =>
      destruct (make_constraints_frame dim st) as (r & nz & z & H)
  end.
  unfold make_constraints_trace in H. members_in H.
  destruct r as [e|[]].
  - rewrite (run_bind_fails _ _ _ H). cbn [snd]. apply Hinit.
    unfold before_first_step. members. repeat split. left. reflexivity.
  - rewrite (run_bind_is _ _ _ H). mrun.
    match goal with
    | |- context [bind (ParallelNavierStokes.run_one_step dim true) ?k ?st] =>
        assert (H0 : I st)
          by (apply Hinit; unfold before_first_step; members; repeat split;
              right; reflexivity);
        pose proof (Hstep true st H0) as H1;
        destruct (ParallelNavierStokes.run_one_step dim true st)
          as [[e|[]] s1] eqn:E
    end; cbn [snd] in H1.
    + rewrite (run_bind_fails _ _ _ E). exact H1.
    + rewrite (run_bind_is _ _ _ E), newton_time_loop_is_loop.
      apply loop_of_invariant; [apply Hstep|exact H1].
Qed.

Lemma before_first_step_outputs p s0 :
  before_first_step p s0 -> outputs_in_order s0.
Proof.
  intros (_ & _ & [H|H]); unfold outputs_in_order; rewrite H; cbn;
    repeat split; constructor.
Qed.

(** X10: the outputs of a run of either solver are written in strictly
    increasing order of their index, and no index is beyond the step
    the clock shows: the run writes no output index twice, so no output
    file is overwritten. *)
Theorem run_outputs_increase fuel tria p :
  (let s := snd (InsIMEX.run dim fuel (solver_new tria p)) in
   StronglySorted lt (outputs (trace s)) /\
   Forall (fun k => k <= timestep (time s)) (outputs (trace s))) /\
  (let s := snd (ParallelNavierStokes.run dim fuel (solver_new tria p)) in
   StronglySorted lt (outputs (trace s)) /\
   Forall (fun k => k <= timestep (time s)) (outputs (trace s))).
Proof.
  split; cbv zeta.
  - assert (H : outputs_in_order
                  (snd (InsIMEX.run dim fuel (solver_new tria p)))).
    { apply imex_run_from_set_up; [apply before_first_step_outputs|].
      intros s. apply step_outputs_in_order with (dim := dim)
                        (refine := InsIMEX.refine_mesh dim 1 3).
      - apply imex_refines.
      - apply imex_steps_like. }
    destruct H as (H1 & H2 & _). split; assumption.
  - assert (H : outputs_in_order
                  (snd (ParallelNavierStokes.run dim fuel
                          (solver_new tria p)))).
    { apply newton_run_from_set_up; [apply before_first_step_outputs|].
      intros apply s.
      apply step_outputs_in_order with (dim := dim)
              (refine := ParallelNavierStokes.refine_mesh dim 1 3).
      - apply newton_refines.
      - apply newton_steps_like. }
    destruct H as (H1 & H2 & _). split; assumption.
Qed.

End RunTraces.

Section StepTheorems.
Context {C : Collaborators}.
Variable dim : Dim.

(** X7: a time step of either solver that throws has advanced the
    clock and may have written the work vectors and the matrices, but
    it leaves the present solution, the triangulation, the DoF layout,
    the two constraint sets, the sparsity pattern and the cell
    properties as they were (every flag of the configuration being
    recognised, so that a refinement cannot be what throws). *)
Theorem failed_step_keeps_solution s :
  all_well_formed (parameters s) = true ->
  all_recognized (parameters s) = true ->
  (forall e,
      fst (InsIMEX.run_one_step dim s) = inl e ->
      let s' := snd (InsIMEX.run_one_step dim s) in
      present_solution s' = present_solution s /\
      time s' = time_increment (time s) /\
      discretisation_kept (set_time (time_increment (time s)) s) s') /\
  (forall apply e,
      fst (ParallelNavierStokes.run_one_step dim apply s) = inl e ->
      let s' := snd (ParallelNavierStokes.run_one_step dim apply s) in
      present_solution s' = present_solution s /\
      time s' = time_increment (time s) /\
      discretisation_kept (set_time (time_increment (time s)) s) s').
Proof.
  intros Hwf Hrec. split.
  - intros e He. cbv zeta.
    pose proof step_failure as H.
    specialize (H dim _ _ (imex_refines dim) (imex_steps_like dim)
                  s e Hwf Hrec He).
    split; [apply H|]. split; [apply H|exact H].
  - intros apply e He. cbv zeta.
    pose proof step_failure as H.
    specialize (H dim _ _ (newton_refines dim) (newton_steps_like dim apply)
                  s e Hwf Hrec He).
    split; [apply H|]. split; [apply H|exact H].
Qed.

(** X8: whatever its outcome, a time step of the Newton solver
    assembles at most [max_iteration] times; with [max_iteration] 0 and
    a tolerance below 1 it throws "Too many Newton iterations!" before
    any assembly. *)
Theorem newton_step_work_is_bounded apply s :
  let r := ParallelNavierStokes.run_one_step dim apply s in
  exists evs,
    trace (snd r) = trace s ++ evs /\
    assemblies evs <= fluid_max_iterations (parameters s) /\
    ((fluid_tolerance (parameters s) <? d_one)%float = true ->
     fluid_max_iterations (parameters s) = 0 ->
     fst r = inl too_many_newton /\ assemblies evs = 0).
Proof.
  cbv zeta.
  destruct (newton_step_normal_form dim apply s)
    as (s1 & evs1 & fin & Hk & He & Ho & Hc & _ & Hmany & Hr).
  rewrite Hr.
  assert (Hpre : assemblies (if timestep (time s) =? 0
                             then [EvOutputResults 0] else []) = 0)
    by (destruct (timestep (time s) =? 0); reflexivity).
  destruct fin as [e|fin].
  - cbn [fst snd]. eexists. split; [exact He|].
    split; [rewrite assemblies_app, Hpre; exact Hc|].
    intros Htol Hmax. specialize (Hmany Htol Hmax). injection Hmany as ->.
    split; [reflexivity|]. rewrite assemblies_app, Hpre. lia.
  - pose proof step_end_frame as Hend.
    specialize (Hend dim _ s1 (evaluation_point s1) (newton_refines dim)).
    cbv zeta in Hend. destruct Hend as (_ & _ & (evs & Hev & Hq) & _).
    pose proof refinement_events_no_output as Hno.
    specialize (Hno evs Hq). destruct Hno as [_ Hq2].
    eexists. split; [rewrite Hev, He, <- !app_assoc; reflexivity|].
    assert (Hpost : assemblies
                      (if time_to_output (time s1)
                       then [EvOutputResults (timestep (time s1))] else []) = 0)
      by (destruct (time_to_output (time s1)); reflexivity).
    split.
    + rewrite !assemblies_app, Hpre, Hpost, Hq2. lia.
    + intros Htol Hmax. specialize (Hmany Htol Hmax). discriminate.
Qed.

(** X9: when the tolerance is not below 1 (1 or more, or not a
    number), the Newton loop does not run at all: the step assembles
    and solves nothing and, no refinement being due, returns normally
    with the present solution unchanged.  The residuals start at 1, and
    the loop tests [relative_residual > tolerance] before its first
    turn. *)
Theorem newton_step_without_iteration apply s :
  (fluid_tolerance (parameters s) <? d_one)%float = false ->
  time_to_refine (time_increment (time s)) = false ->
  let r := ParallelNavierStokes.run_one_step dim apply s in
  fst r = inr tt /\
  present_solution (snd r) = present_solution s /\
  time (snd r) = time_increment (time s) /\
  exists evs,
    trace (snd r) = trace s ++ evs /\
    assemblies evs = 0 /\
    residuals evs = [] /\
    outputs evs =
      (if timestep (time s) =? 0 then [0] else []) ++
      (if time_to_output (time_increment (time s))
       then [S (timestep (time s))] else []).
Proof.
  intros Htol Href. cbv zeta.
  destruct (newton_step_normal_form dim apply s)
    as (s1 & evs1 & fin & Hk & He & Ho & Hc & Hnone & _ & Hr).
  destruct (Hnone Htol) as (-> & -> & Hev).
  destruct Hk as (_ & _ & _ & _ & _ & _ & _ & _ & _ & Ht). cbn in Ht.
  rewrite Hr. unfold step_end. rewrite Ht, Href. cbn [fst snd].
  destruct (step_closed_members s1 (evaluation_point s1))
    as (_ & _ & _ & _ & _ & _ & _ & _ & Ht' & Hps & Htr).
  split; [reflexivity|]. split; [congruence|]. split; [congruence|].
  eexists. split; [rewrite Htr, He, app_nil_r, <- app_assoc; reflexivity|].
  rewrite Ht. cbn [timestep time_increment].
  destruct (timestep (time s) =? 0);
    destruct (time_to_output (time_increment (time s)));
    repeat split.
Qed.

(** X11: with every flag recognised, whenever a time step returns,
    normally or by throwing, and so when [run] returns, the DoF handler
    is the one distributed on the triangulation the solver holds, and
    the block sizes, the two constraint sets (those [make_constraints]
    builds from cleared sets on that handler, closed), the sparsity
    pattern and the zeroed cell properties are those of that handler
    and that triangulation: no step leaves a mesh without its
    discretisation, nor a constraint set of an earlier mesh. *)
Theorem discretisation_follows_mesh p fuel tria :
  all_well_formed p = true ->
  all_recognized p = true ->
  (forall s,
      parameters s = p -> discretised dim s ->
      discretised dim (snd (InsIMEX.run_one_step dim s)) /\
      forall apply,
        discretised dim
          (snd (ParallelNavierStokes.run_one_step dim apply s))) /\
  discretised dim (snd (InsIMEX.run dim fuel (solver_new tria p))) /\
  discretised dim
    (snd (ParallelNavierStokes.run dim fuel (solver_new tria p))).
Proof.
  intros Hwf Hrec.
  assert (Himex : forall s',
             parameters s' = p -> discretised dim s' ->
             discretised dim (snd (InsIMEX.run_one_step dim s'))).
  { intros s' Hp Hd. pose proof step_discretised as H.
    apply (H dim _ _ (imex_refines dim) (imex_steps_like dim));
      [rewrite Hp; exact Hwf|rewrite Hp; exact Hrec|exact Hd]. }
  assert (Hnewton : forall apply s',
             parameters s' = p -> discretised dim s' ->
             discretised dim
               (snd (ParallelNavierStokes.run_one_step dim apply s'))).
  { intros apply s' Hp Hd. pose proof step_discretised as H.
    apply (H dim _ _ (newton_refines dim) (newton_steps_like dim apply));
      [rewrite Hp; exact Hwf|rewrite Hp; exact Hrec|exact Hd]. }
  split; [|split].
  - intros s Hp Hd. split; [apply Himex; assumption|].
    intros apply. apply Hnewton; assumption.
  - pose proof imex_run_invariant as H.
    specialize (H dim (fun s' => parameters s' = p /\ discretised dim s')
                  fuel tria p Hwf Hrec).
    apply H.
    + intros s0 (Hreb & Hp & _). split; [exact Hp|].
      apply rebuilt_discretised, Hreb.
    + intros s' (Hp & Hd). split; [|apply Himex; assumption].
      pose proof step_clock as Hc.
      specialize (Hc dim _ _ (imex_refines dim) (imex_steps_like dim) s').
      destruct Hc as [_ Hc]. congruence.
  - pose proof newton_run_invariant as H.
    specialize (H dim (fun s' => parameters s' = p /\ discretised dim s')
                  fuel tria p Hwf Hrec).
    apply H.
    + intros s0 (Hreb & Hp & _). split; [exact Hp|].
      apply rebuilt_discretised, Hreb.
    + intros apply s' (Hp & Hd). split; [|apply Hnewton; assumption].
      pose proof step_clock as Hc.
      specialize (Hc dim _ _ (newton_refines dim)
                     (newton_steps_like dim apply) s').
      destruct Hc as [_ Hc]. congruence.
Qed.

End StepTheorems.

Section IMEXRuns.
Context {C : Collaborators}.
Variable dim : Dim.




(** X13: from the third time step on, the time loop of the
    single-process solver leaves the system matrix, the mass matrix,
    the Schur surrogate and the preconditioner exactly as it found
    them through every turn at whose end no refinement is due, whether
    the steps succeed or throw: through its first [fuel] turns, when
    the clock is not due for refinement after any of the next [fuel]
    steps; a refinement may be due later. *)
Theorem imex_time_loop_keeps_operator fuel s :
  2 <= timestep (time s) ->
  (forall j, j < fuel ->
             time_to_refine (Nat.iter (S j) time_increment (time s)) = false) ->
  let s' := snd (InsIMEX.time_loop dim fuel s) in
  system_matrix s' = system_matrix s /\
  mass_matrix s' = mass_matrix s /\
  mass_schur s' = mass_schur s /\
  preconditioner s' = preconditioner s.
Proof.
  revert s. induction fuel as [|fuel IH]; intros s Hts Href; cbv zeta;
    cbn [InsIMEX.time_loop]; mrun.
  - destruct (_ <? _)%float; repeat split.
  - destruct (_ <? _)%float; [|repeat split].
    destruct (imex_run_one_step_run dim s) as (Ht & _ & Hkeep & _).
    cbv zeta in Ht, Hkeep.
    assert (H0 : time_to_refine (time_increment (time s)) = false)
      by (apply (Href 0); lia).
    destruct (Hkeep ltac:(lia) H0) as (K1 & K2 & K3 & K4).
    destruct (InsIMEX.run_one_step dim s) as [[e|[]] s1] eqn:Hstep;
      cbn [fst snd] in *.
    + rewrite (run_bind_fails _ _ _ Hstep). cbn [snd].
      repeat split; assumption.
    + rewrite (run_bind_is _ _ _ Hstep).
      destruct (IH s1) as (J1 & J2 & J3 & J4).
      * rewrite Ht. cbn [timestep time_increment]. lia.
      * intros j Hj. rewrite Ht, <- Nat.iter_succ_r. apply Href. lia.
      * repeat split; congruence.
Qed.

End IMEXRuns.

Section FirstStep.
Context {C : Collaborators}.
Variable dim : Dim.

(** X14: [ParallelNavierStokes::run] takes its first time step before
    it tests the clock, so a run that gets through the set-up always
    writes output 0 and ends at step 1 or later, even when the end
    time is already reached; [InsIMEX::run] tests first, and then
    returns from the set-up without a step and without any output. *)
Theorem first_step_before_clock_test fuel tria p :
  all_well_formed p = true ->
  all_recognized p = true ->
  (let s := snd (ParallelNavierStokes.run dim fuel (solver_new tria p)) in
   1 <= timestep (time s) /\ In (EvOutputResults 0) (trace s)) /\
  ((run_time_epsilon <? end_time p - d_zero)%float = false ->
   exists s0,
     InsIMEX.run dim fuel (solver_new tria p) = (inr true, s0) /\
     timestep (time s0) = 0 /\
     trace s0 = [EvSetupDofs; EvMakeConstraints; EvInitializeSystem]).
Proof.
  intros Hwf Hrec. split.
  - cbv zeta.
    destruct (newton_run_set_up dim fuel tria p Hwf Hrec)
      as (s0 & (_ & _ & Ht0 & _ & Htr0) & ->).
    assert (Hstep : forall apply s,
               time (snd (ParallelNavierStokes.run_one_step dim apply s)) =
                 time_increment (time s) /\
               exists evs,
                 trace (snd (ParallelNavierStokes.run_one_step dim apply s)) =
                 trace s ++
                 (if timestep (time s) =? 0 then [EvOutputResults 0] else [])
                 ++ evs).
    { intros apply s.
      pose proof step_clock as Hc.
      specialize (Hc dim _ _ (newton_refines dim)
                     (newton_steps_like dim apply) s).
      split; [apply Hc|].
      destruct (newton_steps_like dim apply s)
        as (s1 & evs1 & res & _ & He & _ & Hr).
      rewrite Hr. destruct res as [e|x]; cbn [snd].
      - exists evs1. exact He.
      - pose proof step_end_frame as Hend.
        specialize (Hend dim _ s1 x (newton_refines dim)).
        cbv zeta in Hend. destruct Hend as (_ & _ & (evs & Hev & _) & _).
        eexists. rewrite Hev, He, <- !app_assoc. reflexivity. }
    destruct (Hstep true s0) as (Ht1 & evs & He1).
    rewrite Ht0 in He1. cbn [time_init timestep Nat.eqb] in He1.
    assert (H1 : 1 <= timestep
                        (time (snd (ParallelNavierStokes.run_one_step
                                      dim true s0))) /\
                 In (EvOutputResults 0)
                    (trace (snd (ParallelNavierStokes.run_one_step
                                   dim true s0)))).
    { rewrite Ht1, He1. cbn [timestep time_increment]. split; [lia|].
      rewrite in_app_iff. right. left. reflexivity. }
    destruct (ParallelNavierStokes.run_one_step dim true s0)
      as [[e|[]] s1] eqn:E; cbn [snd] in H1.
    + rewrite (run_bind_fails _ _ _ E). exact H1.
    + rewrite (run_bind_is _ _ _ E), newton_time_loop_is_loop.
      apply (loop_of_invariant
               (fun s => 1 <= timestep (time s) /\
                         In (EvOutputResults 0) (trace s))); [|exact H1].
      intros s (Hts & Hin). destruct (Hstep false s) as (Ht & evs' & He).
      rewrite Ht, He. cbn [timestep time_increment]. split; [lia|].
      rewrite in_app_iff. left. exact Hin.
  - intros Hend.
    destruct (imex_run_set_up dim fuel tria p Hwf Hrec)
      as (s0 & (_ & _ & Ht0 & _ & Htr0) & ->).
    exists s0. split; [|split; [rewrite Ht0; reflexivity|exact Htr0]].
    destruct fuel; cbn [InsIMEX.time_loop]; mrun; rewrite Ht0;
      cbn [time_init time_end time_current]; rewrite Hend; reflexivity.
Qed.

End FirstStep.

(** ** The further properties on concrete data *)

Module Cases.

(** A configuration that hard codes the boundary values, and the
    solver set up on the two cells under it, with the values the flag
    reads and with other values. *)
Definition hard_coded (value : list double) : AllParameters :=
  mkAllParameters 1%float 1%float 0%float 1 0.3%float 10 3%float 1%float
                  0%float 0%float 0 [(0, (3, value))] 1 0 [].

Definition hard_coded_1 : Solver :=
  snd (InsIMEX.run (C := Example.plain) dim2 0
         (solver_new (C := Example.plain) Example.two_cells
                     (hard_coded [1%float; 2%float]))).

Definition hard_coded_2 : Solver :=
  snd (InsIMEX.run (C := Example.plain) dim2 0
         (solver_new (C := Example.plain) Example.two_cells
                     (hard_coded [5%float; 7%float; 9%float]))).

(** The solver set up for at most two Newton iterations, and for the
    tolerance 1. *)
Definition two_iterations : Solver :=
  snd (InsIMEX.run (C := Example.plain) dim2 0
         (solver_new (C := Example.plain) Example.two_cells
            (Example.parameters_of 0.3%float 2 3%float 1
               [(0, (3, [1%float; 2%float]))]))).

Definition tolerance_one : Solver :=
  snd (InsIMEX.run (C := Example.plain) dim2 0
         (solver_new (C := Example.plain) Example.two_cells
            (Example.parameters_of 1%float 10 3%float 1
               [(0, (3, [1%float; 2%float]))]))).

(** The collaborators that refine after every fourth step, and the
    single-process solver after two of its five steps under them. *)
Definition refining_later : Collaborators := Toy.collaborators 0 4.

Definition after_two_steps : Solver :=
  snd (InsIMEX.run (C := refining_later) dim2 2
         (solver_new (C := refining_later) Example.two_cells
            (Example.parameters_of 0.3%float 10 5%float 0
               [(0, (3, [1%float; 2%float]))]))).

(** A configuration whose end time is 0. *)
Definition no_time : AllParameters :=
  Example.parameters_of 0.3%float 10 0%float 0 [].

(** An application of the preconditioner of the finished run, and
    another with the same pressure input. *)
Definition schur_preconditioner : BlockSchurPreconditioner :=
  mkBlockSchurPreconditioner 0%float 1%float 1%float 1%float.

Definition input_1 : BlockVector (list double) :=
  mkBlockVector [1%float; 2%float; 3%float; 4%float] [1%float; 1%float].

Definition input_2 : BlockVector (list double) :=
  mkBlockVector [0%float; 0%float; 0%float; 0%float] [1%float; 1%float].

Definition zero_guess : BlockVector (list double) :=
  mkBlockVector [0%float; 0%float; 0%float; 0%float] [0%float; 0%float].

End Cases.

Lemma component_flag_is_bit_mask_on_example :
  exists mask augmented_value,
    component_flag dim2 5 [1%float; 2%float] = inr (mask, augmented_value) /\
    mask = [true; false; true] /\
    augmented_value = [1%float; 0%float; 2%float].
Proof.
  destruct (@component_flag_is_bit_mask dim2 5 [1%float; 2%float])
    as (mask & av & E & _).
  - reflexivity.
  - cbn. lia.
  - exists mask, av. split; [exact E|].
    vm_compute in E. injection E as <- <-. split; reflexivity.
Defined.

Lemma make_constraints_starts_afresh_on_example :
  all_well_formed (parameters Example.imex_set_up) = true /\
  nonzero_constraints
    (snd (make_constraints (C := Example.plain) dim2
            (snd (make_constraints (C := Example.plain) dim2
                    Example.imex_set_up)))) =
  nonzero_constraints
    (snd (make_constraints (C := Example.plain) dim2 Example.imex_set_up)).
Proof.
  split; [vm_compute; reflexivity|].
  pose proof (@make_constraints_starts_afresh Example.plain dim2
                Example.imex_set_up (cm_clear (C := Example.plain))
                (cm_clear (C := Example.plain))) as H.
  cbv zeta in H. destruct H as (_ & _ & H & _).
  - vm_compute. reflexivity.
  - exact H.
Defined.

Lemma constraint_values_are_ignored_on_example :
  use_hard_coded_values (parameters Cases.hard_coded_1) = 1 /\
  map entry_value (fluid_dirichlet_bcs (parameters Cases.hard_coded_1)) =
    [[1%float; 2%float]] /\
  map entry_value (fluid_dirichlet_bcs (parameters Cases.hard_coded_2)) =
    [[5%float; 7%float; 9%float]] /\
  nonzero_constraints
    (snd (make_constraints (C := Example.plain) dim2 Cases.hard_coded_1)) =
  nonzero_constraints
    (snd (make_constraints (C := Example.plain) dim2 Cases.hard_coded_2)) /\
  lines (nonzero_constraints
           (snd (make_constraints (C := Example.plain) dim2
                   Cases.hard_coded_2))) =
    [(0, 0.3%float); (1, 0%float)].
Proof.
  split; [reflexivity|]. split; [reflexivity|]. split; [reflexivity|].
  pose proof (@constraint_values_are_ignored Example.plain dim2
                Cases.hard_coded_1 Cases.hard_coded_2) as H.
  destruct H as (_ & _ & H).
  - vm_compute. reflexivity.
  - vm_compute. reflexivity.
  - reflexivity.
  - reflexivity.
  - repeat constructor.
  - split; [apply H; reflexivity|]. vm_compute. reflexivity.
Defined.

Lemma vmult_pressure_block_on_example :
  exists u u',
    InsIMEX.vmult (C := Example.plain) Cases.schur_preconditioner
      (system_matrix (snd Example.imex_run))
      (mass_matrix (snd Example.imex_run))
      (mass_schur (snd Example.imex_run)) Cases.zero_guess Cases.input_1
      = inr u /\
    InsIMEX.vmult (C := Example.plain) Cases.schur_preconditioner
      (mass_matrix (snd Example.imex_run))
      (mass_matrix (snd Example.imex_run))
      (mass_schur (snd Example.imex_run)) Cases.zero_guess Cases.input_2
      = inr u' /\
    vblock1 u = vblock1 u'.
Proof.
  pose proof (@vmult_pressure_block_is_independent Example.plain
                Cases.schur_preconditioner
                (system_matrix (snd Example.imex_run))
                (mass_matrix (snd Example.imex_run))
                (mass_matrix (snd Example.imex_run))
                (mass_schur (snd Example.imex_run))
                Cases.zero_guess Cases.zero_guess
                Cases.input_1 Cases.input_2 eq_refl eq_refl) as [H _].
  eexists. eexists. split; [vm_compute; reflexivity|].
  split; [vm_compute; reflexivity|].
  apply H; vm_compute; reflexivity.
Defined.

Lemma failed_step_keeps_solution_on_example :
  fst (ParallelNavierStokes.run_one_step (C := Example.plain) dim2 true
         Cases.two_iterations) = inl too_many_newton /\
  present_solution
    (snd (ParallelNavierStokes.run_one_step (C := Example.plain) dim2 true
            Cases.two_iterations)) =
  present_solution Cases.two_iterations.
Proof.
  assert (E : fst (ParallelNavierStokes.run_one_step (C := Example.plain)
                     dim2 true Cases.two_iterations) = inl too_many_newton)
    by (vm_compute; reflexivity).
  split; [exact E|].
  pose proof (@failed_step_keeps_solution Example.plain dim2
                Cases.two_iterations) as H.
  destruct H as (_ & H).
  - vm_compute. reflexivity.
  - vm_compute. reflexivity.
  - destruct (H true too_many_newton E) as (Hp & _). exact Hp.
Defined.

Lemma newton_step_without_iteration_on_example :
  (fluid_tolerance (parameters Cases.tolerance_one) <? d_one)%float = false /\
  fst (ParallelNavierStokes.run_one_step (C := Example.plain) dim2 true
         Cases.tolerance_one) = inr tt /\
  present_solution
    (snd (ParallelNavierStokes.run_one_step (C := Example.plain) dim2 true
            Cases.tolerance_one)) =
  present_solution Cases.tolerance_one.
Proof.
  split; [vm_compute; reflexivity|].
  pose proof (@newton_step_without_iteration Example.plain dim2 true
                Cases.tolerance_one) as H.
  cbv zeta in H. destruct H as (H1 & H2 & _).
  - vm_compute. reflexivity.
  - reflexivity.
  - split; assumption.
Defined.

Lemma discretisation_follows_mesh_on_example :
  discretised (C := Example.refining) dim2
    (snd (InsIMEX.run (C := Example.refining) dim2 2
            (solver_new (C := Example.refining) Example.two_cells
                        (parameters Example.imex_set_up)))).
Proof.
  pose proof (@discretisation_follows_mesh Example.refining dim2
                (parameters Example.imex_set_up) 2 Example.two_cells) as H.
  destruct H as (_ & H & _).
  - vm_compute. reflexivity.
  - vm_compute. reflexivity.
  - exact H.
Defined.

Lemma imex_time_loop_keeps_operator_on_example :
  timestep (time Cases.after_two_steps) = 2 /\
  time_to_refine (Collaborators := Cases.refining_later)
    (Nat.iter 2 time_increment (time Cases.after_two_steps)) = true /\
  timestep
    (time (snd (InsIMEX.time_loop (C := Cases.refining_later) dim2 1
                  Cases.after_two_steps))) = 3 /\
  system_matrix
    (snd (InsIMEX.time_loop (C := Cases.refining_later) dim2 1
            Cases.after_two_steps)) =
  system_matrix Cases.after_two_steps.
Proof.
  split; [vm_compute; reflexivity|]. split; [vm_compute; reflexivity|].
  split; [vm_compute; reflexivity|].
  pose proof (@imex_time_loop_keeps_operator Cases.refining_later dim2 1
                Cases.after_two_steps) as H.
  cbv zeta in H. destruct H as (H & _).
  - vm_compute. lia.
  - intros j Hj. assert (j = 0) as -> by lia. vm_compute. reflexivity.
  - exact H.
Defined.

Lemma first_step_before_clock_test_on_example :
  (run_time_epsilon <? end_time Cases.no_time - d_zero)%float = false /\
  1 <= timestep
         (time (snd (ParallelNavierStokes.run (C := Example.plain) dim2 3
                       (solver_new (C := Example.plain) Example.two_cells
                                   Cases.no_time)))) /\
  exists s0,
    InsIMEX.run (C := Example.plain) dim2 3
      (solver_new (C := Example.plain) Example.two_cells Cases.no_time)
      = (inr true, s0) /\
    timestep (time s0) = 0.
Proof.
  assert (Hend : (run_time_epsilon <? end_time Cases.no_time - d_zero)%float
                 = false) by (vm_compute; reflexivity).
  split; [exact Hend|].
  pose proof (@first_step_before_clock_test Example.plain dim2 3
                Example.two_cells Cases.no_time) as H.
  cbv zeta in H. destruct H as ((H1 & _) & H2).
  - vm_compute. reflexivity.
  - vm_compute. reflexivity.
  - split; [exact H1|].
    destruct (H2 Hend) as (s0 & E & Ht & _). exists s0. split; assumption.
Defined.
